(* ===== verification/_CoqProject ===== *)
-Q . S2P
Prelude.v
Regex.v
Cursor.v
TokenScanner.v
Simulation.v
Grammar.v
Parser.v
Refinement.v
Properties.v
Anatomy.v
Producer.v
Liveness.v
Composition.v
Substitution.v
Sessions.v
Examples.v
ZipCursor.v
Styles.v
