(* ===== verification/Prelude.v ===== *)
(** * Verification of svelte-css-preprocessor: the placeholder scanner

    The repository preprocesses style sheets: placeholders of the form
    [$name.path(arg1, arg2, ...)] embedded in CSS text are found by a
    hand-written scanner and later replaced by values taken from a plain
    JavaScript object of style tables.  Two source files are under [src/]:

    - [src/src/lib/token-scanner.js]: the scanner.  [scanFunc css] creates
      a cursor over the text ([newScanner], imported from [./scanner.js],
      which is not part of the sources) and returns a closure that yields
      one token per call, or [null] when no [$] is left.  The closure is
      built from four inner functions [scanName], [scanParams], [scanArgs]
      (a [while (true)] loop) and [scanArg] (which throws on an empty
      argument).  [scanAll css] drains the closure into an array.
    - [src/src/styles.js]: the style tables of the example site (named
      RGB colours, the light and the dark theme, fonts, sizes, spacing).

    ** Files of the development

    - [Prelude] (this file): the string type [jsstring] (a list of
      characters, with string literals in scope [js_scope]), the list
      functions the scanner relies on ([take_while], [drop_while],
      [stops], [head_of], [split_on] for JavaScript's
      [String.prototype.split], [join]), the monad [Scan] of
      computations that thread a cursor and
      may throw, with its notation in [scan_scope], the tactics and the
      hint database [scan] shared by the other files.
    - [Regex]: the regular expressions that occur in token-scanner.js, as
      a small syntax of single-character patterns with [re_match], and
      the six literals of the source with their characterisations.
    - [Cursor]: the cursor that token-scanner.js imports.  Its code is
      not under [src/], so it is modelled from the specification: a
      type class [Cursor] of operations ([readWhile], [skipSpace],
      [accept], [expect], [seek], [read], [index], [slice]), the
      reference cursor [Ref.t] (a text and an offset), and the laws
      [CursorLaws] that an implementation owes the scanner: a simulation
      of the reference cursor.  The lemmas [ref_*_zip] describe the
      reference cursor as a zipper (the text read, the text left); the
      lemmas [ahead_*] say that it only moves forward, within the text.
    - [TokenScanner]: token-scanner.js, function by function and in the
      order of the source, generic in the cursor: [Token], [scanName],
      [scanArg], [scanArgs] (with its loop [scanArgs_loop]),
      [scanParams], the closure [next], [scanFunc] and [scanAll] (with
      its loop [scanAll_loop]), and the object exported ([exports]).
      The file holds definitions only; the inputs of the specification
      are run in [Examples].
    - [Simulation]: every function of the scanner, run on a cursor that
      satisfies the laws and on the reference cursor from related
      states, ends in related outcomes; hence [scanAll] on such a
      cursor is [scanAll] on the reference cursor ([scanAll_on_ref]),
      which is how the theorems proved on the reference cursor are
      stated for every cursor that satisfies the laws.
    - [Grammar]: the specification of the scanner, as relations between
      the text that remains and the outcome: [args_at], [params_at],
      [token_at], [scan_at].  They never give the outcome out of fuel;
      the values they give account for the text consumed, have the
      shape of placeholders and depend only on the text consumed and on
      the character that follows ([token_at_local], [token_at_closes]);
      their exceptions are characterised; and each gives at most one
      outcome ([scan_at_det]).  [args_at_values_ind] and
      [scan_at_tokens_ind] are the inductions on the derivations that
      give arguments and tokens, used by the files below.
    - [Parser]: the specification as functions: [parse_args],
      [parse_params], [parse_token] and [parse_all], defined with
      Equations by recursion on the length of the text that remains,
      without fuel.  They give the outcomes of the relations
      ([parse_all_sound]), so the relations are total
      ([scan_at_total]), are the graphs of the functions
      ([scan_at_parse]) and are decidable.
    - [Refinement]: run on the reference cursor, each function of the
      scanner computes the outcome its relation gives
      ([scanName_computes] ... [scanAll_computes]); with totality,
      [scanAll] has an outcome exactly when [scan_at] gives it
      ([scanAll_scan_at]), on every cursor that satisfies the laws,
      is the function [parse_all], and never runs out of fuel.
    - [Properties]: what callers rely on, derived from the grammar:
      offsets and [raw], order, coverage of the markers, the shape of
      [path] and [args], the round trip through [raw], the texts whose
      outcome is known (a bare name, a rendered placeholder, the two
      error conditions) and the characterisation of the exceptions.
    - [Anatomy]: a token read off its [raw] text: the name, the body of
      the parameter list, and [args] as the body cut at the commas
      with the leading white space of each piece dropped ([args_of]).
    - [Producer]: the closure called again and again, as the step
      relation [yields]; [scanAll] drains it and fails where it fails,
      an exhausted producer stays exhausted, every call returns or
      throws, and the cursor only moves forward.
    - [Liveness]: from any state a producer can be in, finitely many
      calls, at most one for each character left, lead to the call that
      returns [null] or throws.
    - [Composition]: the tokens of a text made of two parts are the
      tokens of the parts, the second moved by the length of the first
      ([shift]), when the last placeholder of the first part cannot go
      on into the second ([closed_at], [closes]).
    - [Substitution]: the text with values in the place of the tokens
      ([substitute]), as the caller of the scanner writes it: putting
      [raw] back gives the text, putting texts without a marker leaves
      no placeholder; and the tokens are at most as many as the markers.
    - [Sessions]: several producers in one program.  A semantics of
      such programs, which is the model's and not code of the
      repository: the closures are kept in a store, by address, each
      with its environment ([env]); [scanFunc_new] creates one at a
      fresh address and [call] runs one on its own cursor; [step] and
      [runs] are the step relation of a program that creates and calls
      producers in any order.  Under this semantics the values of one
      closure in any interleaving are those of [scanAll].
    - [Examples]: [scanAll] run on the inputs of section 8 of the
      specification, and on the inputs on which code and specification
      part.
    - [ZipCursor]: a second cursor, a zipper that keeps the text read
      and the text left, with the proof that it satisfies [CursorLaws];
      the theorems stated for any such cursor hold of the scanner on it.
    - [Styles]: the tables of styles.js; the two imports of styles.js
      are the classes [Colors] and [ColorSchemeRenderer]; every colour
      a theme names is a property of the table of colours.

    ** Modelling choices

    - A character is an [ascii] (8 bits).  Every character the scanner
      tells apart ([$ ( ) , . _ -], letters, digits, white space) is in
      that range; the source itself leaves characters of two code units
      aside (comment at line 16 of token-scanner.js).
    - A regular expression of the source matches one character; it is a
      literal or a character class, and [re_match] decides it.
    - White space.  [skipSpace] belongs to scanner.js and the
      specification does not say which characters it skips.  The model
      takes the six characters of the 8-bit range that JavaScript's
      [\s] matches below 128: space, tab, line feed, vertical tab, form
      feed and carriage return ([is_space]).  JavaScript's [\s] also
      matches characters outside that range (U+00A0 and others), which
      the model does not have.
    - The cursor at the end of the text.  [seek] that finds nothing
      returns false without moving, as section 6 of the specification
      says; the calls after the sentinel rest on it ([next_exhausted]).
      The specification does not say what [read] does at the end of
      the text: in the reference cursor it returns nothing and stays.
      The closure calls [read] only after [seek] has found a marker, so
      that choice is never observed by the scanner.
    - Exceptions.  [MissingArgument name] is the exception of line 67.
      [Expected re] stands for what [expect] of scanner.js throws when
      the expression does not match; the specification names the
      condition and not its value.
    - Offsets are [nat].  A JavaScript exception is the outcome [Throw];
      [null] is [None].
    - The closure returned by [scanFunc] owns the cursor: the model of a
      call of the closure is the state transformer [next] applied to the
      cursor state, so successive calls are successive applications
      ([yields] in [Producer]).  Where several closures exist, each
      owns the cursor of its environment, in a store ([Sessions]): that
      a call leaves the cursors of the other closures alone is part of
      that semantics, justified by the scope of [sr] in scanFunc, and
      is not claimed as a theorem.
    - An exception carries no cursor state: what a closure does when
      called again after it threw is not modelled (the specification
      says such a cursor is never reused).
    - Fuel.  The [while (true)] of [scanArgs] and the [while] of
      [scanAll] are fixpoints on a fuel, both started with
      [fuel_for css], the length of the text plus one.  Every iteration
      of either loop consumes at least one character of the text (an
      argument is not empty; a token starts with its marker), so the
      number of iterations is at most the length of the text plus the
      final one.  The outcome [OutOfFuel] exists only in the model:
      [scanAll_terminates] and [next_terminates] show that it is never
      the outcome of [scanAll], nor of a call of the closure, and
      [scanAll_parse_all] that [scanAll] is a function defined without
      fuel.

    ** What the theorems show

    - Refinement: [scanAll] computes the grammar, on every cursor that
      satisfies the laws ([scanAll_refines]), and is the parser
      [parse_all] ([scanAll_parse_all]).
    - Termination: [scanAll_terminates], [next_terminates].
    - Liveness: [next_eventually_ends].
    - Invariants of the result: [scanAll_offsets], [scanAll_sorted],
      [scanAll_covers], [scanAll_path], [scanAll_args].
    - Round trips: [scanAll_roundtrip] (scanning [raw] again),
      [scanAll_render] (scanning the text of a placeholder),
      [substitute_raw] (putting [raw] back at the offsets).
    - Functional behaviour: [scanAll_no_marker], [scanAll_bare],
      [scanAll_app] (a text made of two parts), [scanAll_anatomy]
      ([path] and [args] as functions of [raw]).
    - What the caller gets: [substitute_complete] (one pass leaves no
      placeholder), [scanAll_markers] (no more tokens than markers).
    - Errors: [scanAll_throws] (what an exception says of the text),
      [scanAll_missing_argument], [scanAll_unclosed] (texts that raise
      each exception), [scanAll_fails_fast].
    - The producer: [scanAll_drains], [next_exhausted],
      [next_moves_forward], [next_token_span].
    - Several producers: [interleaved_drains], [interleaved_throws].
    - A property of the code that its description does not state:
      [scanArg_skips_nothing].
    - The expression of names: [name_re_matches].
    - The tables: [themes_defined].

    ** What is not modelled

    [./scanner.js], [./color-scheme-renderer.js] and [./colors.js] are
    imported by the sources but are not among them.  The first is
    modelled from the specification ([Cursor]).  The other two are not
    described by the specification, which leaves them out of its scope:
    [Styles] has the names they export, as the operations of two
    classes, and nothing of what the functions compute; the theorem
    about the themes states what it assumes of [rgbsToColors].  The
    code of styles.js that is commented out (lines 48-53) is not
    modelled.  Characters outside the 8-bit range and the message text
    of the exceptions (the model keeps what the message is built from:
    the name, or the expression expected) are left out. *)

From Stdlib Require Import Ascii String.
From stdpp Require Import list strings.

(** Shared definitions: strings as lists of characters, prefix scanning,
    splitting, and the cursor-passing monad with exceptions. *)

(** ** Strings *)

Abbreviation jsstring := (list ascii).

Declare Scope js_scope.
Delimit Scope js_scope with js.
#[warning="-via-type-mismatch,-via-type-remapping"]
String Notation list String.string_of_list_byte String.list_byte_of_string
  (via string mapping [[nil] => EmptyString, [cons] => String]) : js_scope.

(** ** Longest prefix satisfying a predicate *)

Section prefix_scan.
Context {A : Type}.
Implicit Types (p : A → bool) (l w : list A) (x : A).

Fixpoint take_while p l : list A :=
  match l with
  | x :: l' => if p x then x :: take_while p l' else []
  | [] => []
  end.

Fixpoint drop_while p l : list A :=
  match l with
  | x :: l' => if p x then drop_while p l' else l
  | [] => []
  end.

Lemma take_drop_while p l : take_while p l ++ drop_while p l = l.
Proof. induction l as [|x l IH]; simpl; [done|]. destruct (p x); simpl; congruence. Qed.

Lemma Forall_take_while p l : Forall (λ x, p x = true) (take_while p l).
Proof.
  induction l as [|x l IH]; simpl; [constructor|].
  destruct (p x) eqn:E; constructor; done.
Qed.

Lemma head_drop_while p l x : head (drop_while p l) = Some x → p x = false.
Proof.
  induction l as [|y l IH]; simpl; [done|].
  destruct (p y) eqn:E; simpl; [done|]. congruence.
Qed.

Lemma drop_while_drop p l : drop_while p l = drop (length (take_while p l)) l.
Proof. induction l as [|x l IH]; simpl; [done|]. destruct (p x); simpl; done. Qed.

Lemma take_while_take p l : take_while p l = take (length (take_while p l)) l.
Proof.
  induction l as [|x l IH]; simpl; [done|]. destruct (p x); simpl; congruence.
Qed.

Lemma length_take_while_le p l : length (take_while p l) ≤ length l.
Proof. induction l as [|x l IH]; simpl; [done|]. destruct (p x); simpl; lia. Qed.

Lemma length_drop_while p l :
  length (drop_while p l) = length l - length (take_while p l).
Proof. rewrite drop_while_drop, length_drop. done. Qed.

(** The scan of [w ++ l] stops exactly after [w] when every element of
    [w] satisfies [p] and [l] does not start with one that does. *)
Lemma take_while_app_stop p w l :
  Forall (λ x, p x = true) w → take_while p l = [] →
  take_while p (w ++ l) = w.
Proof.
  induction 1 as [|x w Hx _ IH]; simpl; [done|].
  intros Hl. rewrite Hx, IH; done.
Qed.

Lemma drop_while_app_stop p w l :
  Forall (λ x, p x = true) w → take_while p l = [] →
  drop_while p (w ++ l) = l.
Proof.
  intros Hw Hl. rewrite drop_while_drop, take_while_app_stop by done.
  by rewrite drop_app_length.
Qed.

Lemma take_while_nil_iff p l :
  take_while p l = [] ↔ l = [] ∨ ∃ x l', l = x :: l' ∧ p x = false.
Proof.
  destruct l as [|x l]; simpl; [by split; [left|]|].
  destruct (p x) eqn:E; split; try done.
  - intros [?|(y & l' & ? & ?)]; simplify_eq; congruence.
  - right. by exists x, l.
Qed.

Lemma take_while_drop_while p l : take_while p (drop_while p l) = [].
Proof.
  induction l as [|x l IH]; simpl; [done|].
  destruct (p x) eqn:E; simpl; [done|]. by rewrite E.
Qed.

Lemma drop_while_idemp p l : drop_while p (drop_while p l) = drop_while p l.
Proof.
  rewrite (drop_while_drop p (drop_while p l)), take_while_drop_while. done.
Qed.

Lemma drop_while_app_all p w l :
  Forall (λ x, p x = true) w → drop_while p (w ++ l) = drop_while p l.
Proof. induction 1 as [|x w Hx _ IH]; simpl; [done|]. by rewrite Hx. Qed.

Lemma take_while_all p l : Forall (λ x, p x = true) l → take_while p l = l.
Proof.
  intros H. rewrite <-(app_nil_r l) at 1. by apply take_while_app_stop.
Qed.

(** [stops p l]: a scan for [p] finds nothing at the start of [l]. *)
Definition stops p l : Prop := take_while p l = [].

#[export] Instance stops_dec `{EqDecision A} p l : Decision (stops p l).
Proof. unfold stops. apply _. Defined.

Lemma stops_nil p : stops p [].
Proof. done. Qed.

Lemma stops_cons p x l : stops p (x :: l) ↔ p x = false.
Proof. unfold stops. simpl. destruct (p x); naive_solver. Qed.

Lemma stops_drop_while p l : stops p (drop_while p l).
Proof. apply take_while_drop_while. Qed.

(** A predicate that implies another stops no later. *)
Lemma stops_weaken p q l :
  (∀ x, p x = true → q x = true) → stops q l → stops p l.
Proof.
  unfold stops. intros Hpq. destruct l as [|x l]; simpl; [done|].
  destruct (p x) eqn:E; [|done]. by rewrite (Hpq x E).
Qed.

Lemma stops_app_l p w l : stops p (w ++ l) → stops p w.
Proof. destruct w as [|x w]; [done|]. simpl. by rewrite !stops_cons. Qed.

Lemma stops_app_r p w l : w ≠ [] → stops p w → stops p (w ++ l).
Proof. destruct w as [|x w]; [done|]. intros _. simpl. by rewrite !stops_cons. Qed.

Lemma stops_app_tail p w l l' :
  stops p (w ++ l) → (w = [] → stops p l') → stops p (w ++ l').
Proof. destruct w; [by intros _ H; apply H|]. simpl. by rewrite !stops_cons. Qed.

Lemma drop_while_stops p l : stops p l → drop_while p l = l.
Proof. intros Hl. by rewrite drop_while_drop, Hl. Qed.

Lemma stops_head p l : stops p l ↔ ∀ x, head l = Some x → p x = false.
Proof.
  destruct l as [|y l]; simpl; [by split|]. rewrite stops_cons. naive_solver.
Qed.

(** [l2] starts as [l1] does, or is empty. *)
Definition head_of (l1 l2 : list A) : Prop :=
  ∀ x, head l2 = Some x → head l1 = Some x.

Lemma head_of_nil l : head_of l [].
Proof. by intros x. Qed.

Lemma head_of_app_r l l' : l ≠ [] → head_of l (l ++ l').
Proof. destruct l; [done|]. by intros _ x. Qed.

Lemma head_of_app_nil w l1 l2 :
  (w = [] → head_of l1 l2) → head_of (w ++ l1) (w ++ l2).
Proof. destruct w; [by intros H; apply H|]. by intros _ x. Qed.

Lemma head_of_app w l1 l2 : head_of l1 l2 → head_of (w ++ l1) (w ++ l2).
Proof. intros. by apply head_of_app_nil. Qed.

(** Whether a list stops [p] depends on its first element only. *)
Lemma stops_head_of p l1 l2 : head_of l1 l2 → stops p l1 → stops p l2.
Proof. rewrite !stops_head. unfold head_of. naive_solver. Qed.

Lemma head_of_neq l1 l2 x : head_of l1 l2 → head l1 ≠ Some x → head l2 ≠ Some x.
Proof. unfold head_of. naive_solver. Qed.

(** Every list is a run of elements satisfying [p] followed by a list
    that stops [p]. *)
Lemma take_while_split p l :
  ∃ w l', l = w ++ l' ∧ Forall (λ x, p x = true) w ∧ stops p l'.
Proof.
  exists (take_while p l), (drop_while p l).
  by rewrite take_drop_while; auto using Forall_take_while, stops_drop_while.
Qed.

(** Induction on the length of a list. *)
Lemma length_ind (P : list A → Prop) :
  (∀ l, (∀ l', length l' < length l → P l') → P l) → ∀ l, P l.
Proof.
  intros HP l. remember (length l) as n eqn:Hn. revert l Hn.
  induction n as [n IH] using lt_wf_ind. intros l ->. apply HP. eauto.
Qed.

(** Where a scan stops, all of it has been taken. *)
(** A text splits in one way only into a run of characters that
    satisfy [p] and a text that does not start with one. *)
Lemma app_stop_inj p w l w' l' :
  Forall (λ x, p x = true) w → stops p l →
  Forall (λ x, p x = true) w' → stops p l' →
  w ++ l = w' ++ l' → w = w' ∧ l = l'.
Proof.
  intros Hw Hl Hw' Hl' Heq. split.
  - by rewrite <-(take_while_app_stop p w l), Heq, take_while_app_stop.
  - by rewrite <-(drop_while_app_stop p w l), Heq, drop_while_app_stop.
Qed.

Lemma take_while_stops p l : stops p l → take_while p l = [] ∧ drop_while p l = l.
Proof. intros Hl. split; [done|]. by rewrite drop_while_drop, Hl. Qed.
End prefix_scan.

(** ** Splitting on a separator, as JavaScript's [split] does *)

Section split.
Context {A : Type} `{EqDecision A}.
Implicit Types (sep x : A) (l seg : list A) (segs : list (list A)).

(** [split_on sep l] cuts [l] at every [sep]; the result is never empty,
    and an empty [l] gives one empty segment. *)
Fixpoint split_on sep l : list (list A) :=
  match l with
  | [] => [[]]
  | x :: l' =>
      if decide (x = sep) then [] :: split_on sep l'
      else match split_on sep l' with
           | seg :: segs => (x :: seg) :: segs
           | [] => [[x]]
           end
  end.

Fixpoint join sep segs : list A :=
  match segs with
  | [] => []
  | [seg] => seg
  | seg :: segs' => seg ++ sep :: join sep segs'
  end.

Lemma split_on_nonempty sep l : split_on sep l ≠ [].
Proof.
  destruct l as [|x l]; simpl; [done|].
  case_decide; [done|]. destruct (split_on sep l); done.
Qed.

Lemma length_split_on sep l :
  length (split_on sep l) = S (length (filter (λ x, x = sep) l)).
Proof.
  induction l as [|x l IH]; simpl; [done|].
  rewrite filter_cons. case_decide; simpl; [by rewrite IH|].
  destruct (split_on sep l); simpl in *; lia.
Qed.

Lemma join_cons sep seg segs :
  segs ≠ [] → join sep (seg :: segs) = seg ++ sep :: join sep segs.
Proof. destruct segs; done. Qed.

Lemma join_split_on sep l : join sep (split_on sep l) = l.
Proof.
  induction l as [|x l IH]; simpl; [done|].
  pose proof (split_on_nonempty sep l) as Hne.
  case_decide; subst.
  - rewrite join_cons by done. simpl. congruence.
  - destruct (split_on sep l) as [|seg [|seg' segs]]; [done|..];
      simpl in *; congruence.
Qed.

Lemma Forall_split_on sep l : Forall (λ seg, sep ∉ seg) (split_on sep l).
Proof.
  induction l as [|x l IH]; simpl.
  - repeat constructor. apply not_elem_of_nil.
  - case_decide.
    + constructor; [apply not_elem_of_nil | done].
    + pose proof (split_on_nonempty sep l).
      destruct (split_on sep l) as [|seg segs]; [done|].
      inversion IH; subst. constructor; [|done].
      rewrite not_elem_of_cons. done.
Qed.

Lemma split_on_no_sep sep l : sep ∉ l → split_on sep l = [l].
Proof.
  induction l as [|x l IH]; simpl; [done|].
  rewrite not_elem_of_cons. intros [? ?]. case_decide; [congruence|].
  by rewrite IH.
Qed.

Lemma split_on_app_sep sep l1 l2 :
  sep ∉ l1 → split_on sep (l1 ++ sep :: l2) = l1 :: split_on sep l2.
Proof.
  induction l1 as [|x l1 IH]; simpl.
  - intros _. by rewrite decide_True.
  - rewrite not_elem_of_cons. intros [? ?]. case_decide; [congruence|].
    by rewrite IH.
Qed.

(** Elements other than the separator put in front go to the first
    segment. *)
Lemma split_on_app_l sep w l :
  sep ∉ w →
  split_on sep (w ++ l) =
  (w ++ default [] (head (split_on sep l))) :: tail (split_on sep l).
Proof.
  induction w as [|x w IH]; simpl.
  - intros _. pose proof (split_on_nonempty sep l). by destruct (split_on sep l).
  - rewrite not_elem_of_cons. intros [? ?]. case_decide; [congruence|].
    by rewrite IH.
Qed.

(** What holds of every element of a joined list holds of every element
    of every segment. *)
Lemma Forall_join (P : A → Prop) sep segs :
  Forall P (join sep segs) → Forall (Forall P) segs.
Proof.
  induction segs as [|seg segs IH]; [constructor|].
  destruct segs as [|seg' segs]; [by repeat constructor|].
  rewrite join_cons by done.
  intros [Hseg [_ Hrest]%Forall_cons]%Forall_app. constructor; auto.
Qed.

(** [split_on] undoes [join] on segments free of the separator. *)
Lemma split_on_join sep segs :
  segs ≠ [] → Forall (λ seg, sep ∉ seg) segs →
  split_on sep (join sep segs) = segs.
Proof.
  induction segs as [|seg segs IH]; [done|]. intros _ Hall.
  inversion Hall as [|?? Hseg Hsegs]; subst.
  destruct segs as [|seg' segs]; simpl.
  - by apply split_on_no_sep.
  - rewrite split_on_app_sep by done. f_equal. by apply IH.
Qed.
End split.

(** ** Outcomes and the cursor-passing monad *)

(** What a call does: it returns, it throws, or (in the model only) the
    fuel of a loop ran out. *)
Inductive outcome (E A : Type) : Type :=
| Return (a : A)
| Throw (e : E)
| OutOfFuel.
Arguments Return {E A} a.
Arguments Throw {E A} e.
Arguments OutOfFuel {E A}.

#[export] Instance outcome_eq_dec {E A} `{EqDecision E, EqDecision A} :
  EqDecision (outcome E A).
Proof. solve_decision. Defined.

Definition outcome_map {E A B} (f : A → B) (o : outcome E A) : outcome E B :=
  match o with
  | Return a => Return (f a)
  | Throw e => Throw e
  | OutOfFuel => OutOfFuel
  end.

(** A computation in state [S] that may throw an [E]. *)
Definition Scan (E S A : Type) : Type := S → outcome E (A * S).

Section scan_monad.
Context {E S : Type}.

Definition ret {A} (a : A) : Scan E S A := λ s, Return (a, s).

Definition bind {A B} (m : Scan E S A) (k : A → Scan E S B) : Scan E S B :=
  λ s, match m s with
       | Return (a, s') => k a s'
       | Throw e => Throw e
       | OutOfFuel => OutOfFuel
       end.

Definition throw {A} (e : E) : Scan E S A := λ _, Throw e.

(** A cursor operation that cannot fail, as a computation. *)
Definition lift {A} (f : S → A * S) : Scan E S A := λ s, Return (f s).

(** An observation of the cursor, which stays where it is. *)
Definition gets {A} (g : S → A) : Scan E S A := λ s, Return (g s, s).

(** A cursor operation that only moves the cursor. *)
Definition exec (f : S → S) : Scan E S unit := λ s, Return (tt, f s).

Lemma bind_ret_l {A B} (a : A) (k : A → Scan E S B) s : bind (ret a) k s = k a s.
Proof. done. Qed.

Lemma bind_ret_r {A} (m : Scan E S A) s : bind m ret s = m s.
Proof. unfold bind, ret. destruct (m s) as [[a s']| |]; done. Qed.

Lemma bind_assoc {A B C} (m : Scan E S A) (k : A → Scan E S B)
    (h : B → Scan E S C) s :
  bind (bind m k) h s = bind m (λ a, bind (k a) h) s.
Proof. unfold bind. destruct (m s) as [[a s']| |]; done. Qed.

(** One step of a computation whose first part is known. *)
Lemma bind_lift {A B} (f : S → A * S) (k : A → Scan E S B) s a s' :
  f s = (a, s') → bind (lift f) k s = k a s'.
Proof. unfold bind, lift. by intros ->. Qed.

Lemma bind_gets {A B} (g : S → A) (k : A → Scan E S B) s :
  bind (gets g) k s = k (g s) s.
Proof. done. Qed.

Lemma bind_exec {B} (f : S → S) (k : unit → Scan E S B) s :
  bind (exec f) k s = k tt (f s).
Proof. done. Qed.

Lemma bind_returns {A B} (m : Scan E S A) (k : A → Scan E S B) s a s' :
  m s = Return (a, s') → bind m k s = k a s'.
Proof. unfold bind. by intros ->. Qed.

Lemma bind_throws {A B} (m : Scan E S A) (k : A → Scan E S B) s e :
  m s = Throw e → bind m k s = Throw e.
Proof. unfold bind. by intros ->. Qed.

(** One step of a computation whose first part is known to end in the
    image of an outcome [o]. *)
Lemma bind_outcome_map {A B V} (m : Scan E S A) (k : A → Scan E S B) s
    (f : V → A * S) (o : outcome E V) :
  m s = outcome_map f o →
  bind m k s = match o with
               | Return v => k (f v).1 (f v).2
               | Throw e => Throw e
               | OutOfFuel => OutOfFuel
               end.
Proof. unfold bind. intros ->. destruct o as [v| |]; simpl; [|done..]. by destruct (f v). Qed.

Lemma bind_Return {A B} (m : Scan E S A) (k : A → Scan E S B) s b s'' :
  bind m k s = Return (b, s'') ↔
  ∃ a s', m s = Return (a, s') ∧ k a s' = Return (b, s'').
Proof.
  unfold bind. destruct (m s) as [[a s']| |]; naive_solver.
Qed.

Lemma bind_Throw {A B} (m : Scan E S A) (k : A → Scan E S B) s e :
  bind m k s = Throw e ↔
  m s = Throw e ∨ ∃ a s', m s = Return (a, s') ∧ k a s' = Throw e.
Proof.
  unfold bind. destruct (m s) as [[a s']| |]; naive_solver.
Qed.

Lemma bind_OutOfFuel {A B} (m : Scan E S A) (k : A → Scan E S B) s :
  bind m k s = OutOfFuel ↔
  m s = OutOfFuel ∨ ∃ a s', m s = Return (a, s') ∧ k a s' = OutOfFuel.
Proof.
  unfold bind. destruct (m s) as [[a s']| |]; naive_solver.
Qed.
End scan_monad.

#[global] Arguments bind : simpl never.
#[global] Arguments lift : simpl never.
#[global] Arguments exec : simpl never.
#[global] Arguments gets : simpl never.

Declare Scope scan_scope.
Delimit Scope scan_scope with scan.
Notation "x <- m ;; k" := (bind m (λ x, k))
  (at level 100, m at next level, right associativity) : scan_scope.
Notation "m ;;; k" := (bind m (λ _, k))
  (at level 100, right associativity) : scan_scope.

(** ** Automation *)

Create HintDb scan discriminated.

#[export] Hint Resolve Forall_take_while length_take_while_le
  split_on_nonempty Forall_split_on : scan.
#[export] Hint Rewrite @take_drop_while @take_while_drop_while
  @drop_while_idemp @join_split_on : scan.

(** Splits a hypothesis that a sequence of binds returned, threw or ran
    out of fuel into the facts about its steps. *)
Ltac scan_inv :=
  repeat match goal with
  | H : bind _ _ _ = Return _ |- _ =>
      apply bind_Return in H; destruct H as (? & ? & ? & H)
  | H : ret _ _ = Return _ |- _ => unfold ret in H; simplify_eq H
  | H : lift _ _ = Return _ |- _ => unfold lift in H; simplify_eq H
  | H : exec _ _ = Return _ |- _ => unfold exec in H; simplify_eq H
  | H : gets _ _ = Return _ |- _ => unfold gets in H; simplify_eq H
  | H : throw _ _ = Return _ |- _ => discriminate H
  | H : Return _ = Return _ |- _ => simplify_eq H
  | H : Throw _ = Return _ |- _ => discriminate H
  | H : OutOfFuel = Return _ |- _ => discriminate H
  end.

(** Case analysis on the character a list starts with. *)
Ltac destruct_head l :=
  let c := fresh "c" in let l' := fresh l in
  destruct l as [|c l']; simpl in *.

(** Closes an equation between concatenations that differ only in how
    they are bracketed. *)
Ltac solve_app :=
  repeat (progress (simpl; rewrite <-?(assoc_L (++)))); rewrite ?app_nil_r;
  first [done | repeat f_equal; done].
