(* ===== verification/Regex.v ===== *)
(** The regular expressions of token-scanner.js.

    Every regular expression the scanner hands to the cursor matches one
    character: a literal ([/\(/], [/,/], [/\$/]) or a bracket expression,
    possibly negated ([/[a-zA-Z0-9_\-\.]/], [/[^,)]/]).  They are kept as
    syntax ([regex]) with their meaning given by [re_match], so that an
    error can name the expression that failed to match.  The file also
    fixes which characters the cursor takes for white space. *)

From Stdlib Require Import Ascii String.
From stdpp Require Import list strings.
From S2P Require Import Prelude.

#[local] Open Scope char_scope.

(** ** Syntax and matching *)

(** An item of a bracket expression: one character or a range. *)
Inductive class_item : Type :=
| Single (c : ascii)
| Range (lo hi : ascii).

Inductive regex : Type :=
| Lit (c : ascii)
| Class (negated : bool) (items : list class_item).

#[export] Instance class_item_eq_dec : EqDecision class_item.
Proof. solve_decision. Defined.

#[export] Instance regex_eq_dec : EqDecision regex.
Proof. solve_decision. Defined.

Definition item_match (i : class_item) (c : ascii) : bool :=
  match i with
  | Single d => Ascii.eqb c d
  | Range lo hi => Ascii.leb lo c && Ascii.leb c hi
  end.

Definition re_match (r : regex) (c : ascii) : bool :=
  match r with
  | Lit d => Ascii.eqb c d
  | Class negated items => xorb negated (existsb (λ i, item_match i c) items)
  end.

(** ** The expressions of the source *)

(** [/[a-zA-Z0-9_\-\.]/]: the characters of a name. *)
Definition name_re : regex :=
  Class false [Range "a" "z"; Range "A" "Z"; Range "0" "9";
               Single "_"; Single "-"; Single "."].

(** [/\(/] *)
Definition lparen_re : regex := Lit "(".

(** [/\)/] *)
Definition rparen_re : regex := Lit ")".

(** [/,/] *)
Definition comma_re : regex := Lit ",".

(** [/[^,)]/]: the characters of an argument. *)
Definition arg_re : regex := Class true [Single ","; Single ")"].

(** [/\$/]: the marker that starts a placeholder. *)
Definition marker_re : regex := Lit "$".

(** White space as the cursor's [skipSpace] sees it: space, tab, line
    feed, vertical tab, form feed and carriage return. *)
Definition is_space (c : ascii) : bool :=
  match c with
  | " " | "009" | "010" | "011" | "012" | "013" => true
  | _ => false
  end.

(** ** Reference predicates on character codes *)

Definition code_in (lo hi : N) (c : ascii) : bool :=
  (N.leb lo (N_of_ascii c) && N.leb (N_of_ascii c) hi)%N.

Definition is_letter (c : ascii) : bool := code_in 97 122 c || code_in 65 90 c.
Definition is_digit (c : ascii) : bool := code_in 48 57 c.

(** The characters of a name, by their codes. *)
Definition is_name_char (c : ascii) : bool :=
  is_letter c || is_digit c || bool_decide (c ∈ ["_"; "-"; "."]).

(** ** Characterisations *)

(** A property of characters decided by a boolean function holds of
    every character as soon as it holds of the 256 of them. *)
Ltac by_cases_on_ascii c :=
  destruct c as [[] [] [] [] [] [] [] []]; vm_compute; try reflexivity;
  try discriminate.

Lemma re_match_Lit d c : re_match (Lit d) c = true ↔ c = d.
Proof. apply Ascii.eqb_eq. Qed.

Lemma re_match_Lit_false d c : re_match (Lit d) c = false ↔ c ≠ d.
Proof. apply Ascii.eqb_neq. Qed.

Lemma re_match_negated items c :
  re_match (Class true items) c = negb (re_match (Class false items) c).
Proof. simpl. by destruct (existsb _ items). Qed.

Lemma name_re_spec c : re_match name_re c = is_name_char c.
Proof. by_cases_on_ascii c. Qed.

Lemma arg_re_spec c : re_match arg_re c = true ↔ c ≠ "," ∧ c ≠ ")".
Proof.
  unfold arg_re. simpl. rewrite orb_false_r.
  destruct (Ascii.eqb_spec c ","), (Ascii.eqb_spec c ")"); naive_solver.
Qed.

Lemma arg_re_false c : re_match arg_re c = false ↔ c = "," ∨ c = ")".
Proof.
  unfold arg_re. simpl. rewrite orb_false_r.
  destruct (Ascii.eqb_spec c ","), (Ascii.eqb_spec c ")"); naive_solver.
Qed.

Lemma is_space_decide c :
  is_space c = bool_decide (c ∈ [" "; "009"; "010"; "011"; "012"; "013"]).
Proof. by_cases_on_ascii c. Qed.

Lemma is_space_spec c :
  is_space c = true ↔ c ∈ [" "; "009"; "010"; "011"; "012"; "013"].
Proof. rewrite is_space_decide. apply bool_decide_eq_true. Qed.

(** White space never belongs to a name, and always to an argument. *)
Lemma space_not_name c : is_space c = true → re_match name_re c = false.
Proof. by_cases_on_ascii c. Qed.

Lemma space_is_arg c : is_space c = true → re_match arg_re c = true.
Proof. by_cases_on_ascii c. Qed.

(** The characters of a name may all occur in an argument. *)
Lemma name_is_arg c : re_match name_re c = true → re_match arg_re c = true.
Proof. by_cases_on_ascii c. Qed.

(** The delimiters of the grammar are neither name characters nor space. *)
Lemma delimiter_not_name c :
  c ∈ ["$"; "("; ")"; ","] → re_match name_re c = false.
Proof.
  rewrite !elem_of_cons, elem_of_nil. intros [->|[->|[->|[->|[]]]]]; done.
Qed.

Lemma delimiter_not_space c :
  c ∈ ["$"; "("; ")"; ","] → is_space c = false.
Proof.
  rewrite !elem_of_cons, elem_of_nil. intros [->|[->|[->|[->|[]]]]]; done.
Qed.

#[export] Hint Resolve space_not_name space_is_arg name_is_arg : scan.

(** C31: the expression of names, [/[a-zA-Z0-9_\-\.]/], matches exactly
    the letters A to Z and a to z, the digits, the underscore, the
    hyphen and the dot. *)
Theorem name_re_matches c :
  re_match name_re c = true ↔
  is_letter c = true ∨ is_digit c = true ∨ c ∈ ["_"; "-"; "."].
Proof.
  rewrite name_re_spec. unfold is_name_char.
  rewrite !orb_true_iff, bool_decide_eq_true. tauto.
Qed.

#[export] Hint Rewrite re_match_Lit name_re_spec : scan.

(** A text stops a literal exactly when it does not start with it. *)
Lemma stops_Lit d (l : list ascii) : stops (re_match (Lit d)) l ↔ head l ≠ Some d.
Proof.
  rewrite stops_head. split.
  - intros Hl Hd. specialize (Hl d Hd). by apply re_match_Lit_false in Hl.
  - intros Hd c Hc. apply re_match_Lit_false. congruence.
Qed.

(** Where no argument starts, no white space starts either; where no
    white space starts after a name, neither does a name character. *)
Lemma stops_arg_space (l : list ascii) : stops (re_match arg_re) l → stops is_space l.
Proof. apply stops_weaken, space_is_arg. Qed.

(** A text starts with [,] or [)], or is empty, exactly when it stops
    the expression of arguments. *)
Lemma stops_arg_re (l : list ascii) :
  stops (re_match arg_re) l ↔ l = [] ∨ head l = Some "," ∨ head l = Some ")".
Proof.
  destruct l as [|c l]; simpl; [by split; [left|]|].
  rewrite stops_cons, arg_re_false. naive_solver.
Qed.

(** A text without the marker is a text none of whose characters
    matches [marker_re]. *)
Lemma marker_free (l : list ascii) :
  "$" ∉ l ↔ Forall (λ c, re_match marker_re c = false) l.
Proof.
  rewrite Forall_forall. unfold marker_re.
  setoid_rewrite re_match_Lit_false. naive_solver.
Qed.
