(* ===== verification/Cursor.v ===== *)
(** The cursor that token-scanner.js obtains from [newScanner].

    Its code ([./scanner.js]) is not among the sources: the operations
    are modelled from their description in the specification.  The file
    holds the interface the scanner is written against ([Cursor]), the
    reference cursor [Ref.t] (the text and an offset into it), what an
    implementation owes its client ([CursorLaws]: a simulation of the
    reference cursor), and the lemmas on the reference cursor that the
    proofs about the scanner use: the operations on a zipper
    ([ref_*_zip]), and that they move the cursor forward and keep it
    within the text ([ahead_*]). *)

From Stdlib Require Import Ascii String.
From stdpp Require Import list strings.
From S2P Require Import Prelude Regex.

#[local] Open Scope js_scope.

(** ** Errors *)

(** The exceptions of a scan: [scanArg] found no argument for the
    placeholder [name], or the cursor's [expect] did not find a match
    for [re]. *)
Inductive error : Type :=
| MissingArgument (name : jsstring)
| Expected (re : regex).

#[export] Instance error_eq_dec : EqDecision error.
Proof. solve_decision. Defined.

(** ** The interface *)

Class Cursor (S : Type) : Type := {
  newScanner : jsstring → S;
  (** consumes the longest run of characters matching the expression *)
  readWhile : regex → S → jsstring * S;
  skipSpace : S → S;
  (** consumes one matching character, or leaves the cursor in place *)
  accept : regex → S → bool * S;
  (** like [accept], but throws when there is no match *)
  expect : regex → S → outcome error (unit * S);
  (** moves to the next match, or stays in place when there is none *)
  seek : regex → S → bool * S;
  read : S → option ascii * S;
  index : S → nat;
  slice : nat → nat → S → jsstring;
}.

(** ** The reference cursor *)

Module Ref.
Record t : Type := mk { text : jsstring; idx : nat }.

#[export] Instance eq_dec : EqDecision t.
Proof. solve_decision. Defined.

(** The text still to be read. *)
Definition rest (s : t) : jsstring := drop (idx s) (text s).

Definition advance (n : nat) (s : t) : t := mk (text s) (idx s + n).

Definition newScanner (css : jsstring) : t := mk css 0.

Definition readWhile (re : regex) (s : t) : jsstring * t :=
  let w := take_while (re_match re) (rest s) in
  (w, advance (length w) s).

Definition skipSpace (s : t) : t :=
  advance (length (take_while is_space (rest s))) s.

Definition accept (re : regex) (s : t) : bool * t :=
  match rest s with
  | c :: _ => if re_match re c then (true, advance 1 s) else (false, s)
  | [] => (false, s)
  end.

Definition expect (re : regex) (s : t) : outcome error (unit * t) :=
  let '(ok, s') := accept re s in
  if ok then Return (tt, s') else Throw (Expected re).

Definition seek (re : regex) (s : t) : bool * t :=
  let skipped := take_while (λ c, negb (re_match re c)) (rest s) in
  match drop (length skipped) (rest s) with
  | _ :: _ => (true, advance (length skipped) s)
  | [] => (false, s)
  end.

Definition read (s : t) : option ascii * t :=
  match rest s with
  | c :: _ => (Some c, advance 1 s)
  | [] => (None, s)
  end.

Definition index (s : t) : nat := idx s.

Definition slice (a b : nat) (s : t) : jsstring :=
  take (b - a) (drop a (text s)).

(** The offset stays within the text. *)
Definition wf (s : t) : Prop := idx s ≤ length (text s).

(** The cursor that has read [pre] and has [l] left to read. *)
Definition zip (pre l : jsstring) : t := mk (pre ++ l) (length pre).

#[export] Instance wf_dec s : Decision (wf s).
Proof. unfold wf. apply _. Defined.
End Ref.

#[export] Instance ref_cursor : Cursor Ref.t := {
  newScanner := Ref.newScanner;
  readWhile := Ref.readWhile;
  skipSpace := Ref.skipSpace;
  accept := Ref.accept;
  expect := Ref.expect;
  seek := Ref.seek;
  read := Ref.read;
  index := Ref.index;
  slice := Ref.slice;
}.

(** ** What an implementation owes the scanner *)

(** Outcomes that agree on the value and are related on the state. *)
Definition outcome_rel {E A S1 S2} (R : S1 → S2 → Prop)
    (o1 : outcome E (A * S1)) (o2 : outcome E (A * S2)) : Prop :=
  match o1, o2 with
  | Return (a1, s1), Return (a2, s2) => a1 = a2 ∧ R s1 s2
  | Throw e1, Throw e2 => e1 = e2
  | OutOfFuel, OutOfFuel => True
  | _, _ => False
  end.

(** Related outcomes agree once the states are dropped. *)
Lemma outcome_rel_map_fst {E A S1 S2} (R : S1 → S2 → Prop)
    (o1 : outcome E (A * S1)) (o2 : outcome E (A * S2)) :
  outcome_rel R o1 o2 → outcome_map fst o1 = outcome_map fst o2.
Proof.
  unfold outcome_rel.
  destruct o1 as [[a1 s1]| |], o2 as [[a2 s2]| |]; naive_solver.
Qed.

(** Results of a total operation that agree in the same way. *)
Definition result_rel {A S1 S2} (R : S1 → S2 → Prop)
    (r1 : A * S1) (r2 : A * S2) : Prop :=
  r1.1 = r2.1 ∧ R r1.2 r2.2.

(** An implementation simulates the reference cursor: a relation [sim]
    between its states and the reference states holds initially and is
    kept by every operation, with equal results. *)
Class CursorLaws (S : Type) `{Cursor S} : Type := {
  sim : S → Ref.t → Prop;
  sim_newScanner css : sim (newScanner css) (Ref.newScanner css);
  sim_readWhile re s r :
    sim s r → result_rel sim (readWhile re s) (Ref.readWhile re r);
  sim_skipSpace s r : sim s r → sim (skipSpace s) (Ref.skipSpace r);
  sim_accept re s r :
    sim s r → result_rel sim (accept re s) (Ref.accept re r);
  sim_expect re s r :
    sim s r → outcome_rel sim (expect re s) (Ref.expect re r);
  sim_seek re s r : sim s r → result_rel sim (seek re s) (Ref.seek re r);
  (** [read] is only specified where there is a character to read *)
  sim_read s r :
    sim s r → Ref.rest r ≠ [] → result_rel sim (read s) (Ref.read r);
  sim_index s r : sim s r → index s = Ref.index r;
  sim_slice a b s r : sim s r → slice a b s = Ref.slice a b r;
}.

(** Related outcomes and results, for the relation [eq]. *)
Lemma outcome_rel_eq {E A S} (o : outcome E (A * S)) : outcome_rel eq o o.
Proof. by destruct o as [[a s]| |]. Qed.

Lemma result_rel_eq {A S} (r : A * S) : result_rel eq r r.
Proof. done. Qed.

#[export] Instance ref_laws : CursorLaws Ref.t := {|
  sim := eq;
  sim_newScanner _ := eq_refl;
  sim_readWhile re _ _ Hs := eq_ind _ (λ r, result_rel eq _ (readWhile re r))
    (result_rel_eq _) _ Hs;
  sim_skipSpace _ _ Hs := f_equal skipSpace Hs;
  sim_accept re _ _ Hs := eq_ind _ (λ r, result_rel eq _ (accept re r))
    (result_rel_eq _) _ Hs;
  sim_expect re _ _ Hs := eq_ind _ (λ r, outcome_rel eq _ (expect re r))
    (outcome_rel_eq _) _ Hs;
  sim_seek re _ _ Hs := eq_ind _ (λ r, result_rel eq _ (seek re r))
    (result_rel_eq _) _ Hs;
  sim_read _ _ Hs _ := eq_ind _ (λ r, result_rel eq _ (read r))
    (result_rel_eq _) _ Hs;
  sim_index _ _ Hs := f_equal index Hs;
  sim_slice a b _ _ Hs := f_equal (slice a b) Hs;
|}.

(** ** The reference cursor seen as a zipper

    Every well-formed state is [Ref.zip pre l] for the text [pre] already
    read and the text [l] that remains; each operation is a function of
    [l] that moves characters from [l] to the end of [pre]. *)

Section ref_zip.
Implicit Types (pre l w : jsstring) (re : regex) (s : Ref.t).

Lemma ref_rest_advance n s : Ref.rest (Ref.advance n s) = drop n (Ref.rest s).
Proof. unfold Ref.rest, Ref.advance. simpl. by rewrite drop_drop. Qed.

(** After a successful [seek] there is a character to read. *)
Lemma ref_seek_found re s s' : seek re s = (true, s') → Ref.rest s' ≠ [].
Proof.
  simpl. unfold Ref.seek.
  destruct (drop _ (Ref.rest s)) as [|c l] eqn:Hd; intros [= <-].
  by rewrite ref_rest_advance, Hd.
Qed.

Lemma ref_rest_zip pre l : Ref.rest (Ref.zip pre l) = l.
Proof. unfold Ref.rest, Ref.zip. simpl. apply drop_app_length. Qed.

Lemma ref_wf_zip pre l : Ref.wf (Ref.zip pre l).
Proof. unfold Ref.wf, Ref.zip. simpl. rewrite length_app. lia. Qed.

Lemma ref_zip_wf s :
  Ref.wf s → s = Ref.zip (take (Ref.idx s) (Ref.text s)) (Ref.rest s).
Proof.
  destruct s as [txt i]. unfold Ref.wf, Ref.zip, Ref.rest. simpl. intros Hi.
  by rewrite take_drop, length_take, Nat.min_l.
Qed.

Lemma ref_zip_inj pre l pre' l' :
  Ref.zip pre l = Ref.zip pre' l' → pre = pre' ∧ l = l'.
Proof.
  unfold Ref.zip. intros [= Happ Hlen]. by apply app_inj_1 in Happ.
Qed.

Lemma ref_advance_zip pre w l :
  Ref.advance (length w) (Ref.zip pre (w ++ l)) = Ref.zip (pre ++ w) l.
Proof.
  unfold Ref.advance, Ref.zip. simpl. by rewrite length_app, (assoc_L (++)).
Qed.

Lemma ref_newScanner_zip css : newScanner css = Ref.zip [] css.
Proof. done. Qed.

Lemma ref_readWhile_zip re pre l :
  readWhile re (Ref.zip pre l) =
  (take_while (re_match re) l,
   Ref.zip (pre ++ take_while (re_match re) l) (drop_while (re_match re) l)).
Proof.
  simpl. unfold Ref.readWhile. rewrite ref_rest_zip.
  rewrite <-(take_drop_while (re_match re) l) at 3. by rewrite ref_advance_zip.
Qed.

Lemma ref_skipSpace_zip pre l :
  skipSpace (Ref.zip pre l) =
  Ref.zip (pre ++ take_while is_space l) (drop_while is_space l).
Proof.
  simpl. unfold Ref.skipSpace. rewrite ref_rest_zip.
  rewrite <-(take_drop_while is_space l) at 2. by rewrite ref_advance_zip.
Qed.

Lemma ref_accept_zip re pre l :
  accept re (Ref.zip pre l) =
  match l with
  | c :: l' =>
      if re_match re c then (true, Ref.zip (pre ++ [c]) l')
      else (false, Ref.zip pre l)
  | [] => (false, Ref.zip pre l)
  end.
Proof.
  simpl. unfold Ref.accept. rewrite ref_rest_zip.
  destruct l as [|c l']; [done|]. destruct (re_match re c); [|done].
  by rewrite <-(ref_advance_zip pre [c] l').
Qed.

Lemma ref_expect_zip re pre l :
  expect re (Ref.zip pre l) =
  match l with
  | c :: l' =>
      if re_match re c then Return (tt, Ref.zip (pre ++ [c]) l')
      else Throw (Expected re)
  | [] => Throw (Expected re)
  end.
Proof.
  simpl. unfold Ref.expect. change (Ref.accept re) with (accept re).
  rewrite ref_accept_zip. destruct l as [|c l']; [done|].
  by destruct (re_match re c).
Qed.

Lemma ref_seek_zip re pre l :
  let skip c := negb (re_match re c) in
  seek re (Ref.zip pre l) =
  match drop_while skip l with
  | _ :: _ => (true, Ref.zip (pre ++ take_while skip l) (drop_while skip l))
  | [] => (false, Ref.zip pre l)
  end.
Proof.
  simpl. unfold Ref.seek. rewrite ref_rest_zip, <-drop_while_drop.
  destruct (drop_while _ l) as [|c l'] eqn:Hd; [done|].
  rewrite <-Hd. rewrite <-(take_drop_while (λ c, negb (re_match re c)) l) at 2.
  by rewrite ref_advance_zip.
Qed.

Lemma ref_read_zip pre c l :
  read (Ref.zip pre (c :: l)) = (Some c, Ref.zip (pre ++ [c]) l).
Proof.
  simpl. unfold Ref.read. rewrite ref_rest_zip.
  by rewrite <-(ref_advance_zip pre [c] l).
Qed.

(** The operations where the text that remains is known to decompose. *)
Lemma ref_readWhile_app re pre w l :
  Forall (λ c, re_match re c = true) w → stops (re_match re) l →
  readWhile re (Ref.zip pre (w ++ l)) = (w, Ref.zip (pre ++ w) l).
Proof.
  intros Hw Hl. rewrite ref_readWhile_zip.
  by rewrite take_while_app_stop, drop_while_app_stop.
Qed.

Lemma ref_skipSpace_app pre ws l :
  Forall (λ c, is_space c = true) ws → stops is_space l →
  skipSpace (Ref.zip pre (ws ++ l)) = Ref.zip (pre ++ ws) l.
Proof.
  intros Hw Hl. rewrite ref_skipSpace_zip.
  by rewrite take_while_app_stop, drop_while_app_stop.
Qed.

Lemma ref_skipSpace_stops pre l :
  stops is_space l → skipSpace (Ref.zip pre l) = Ref.zip pre l.
Proof.
  intros Hl. rewrite <-(app_nil_r pre) at 2.
  by rewrite <-(ref_skipSpace_app pre [] l).
Qed.

Lemma ref_accept_hit re pre c l :
  re_match re c = true →
  accept re (Ref.zip pre (c :: l)) = (true, Ref.zip (pre ++ [c]) l).
Proof. intros Hc. by rewrite ref_accept_zip, Hc. Qed.

Lemma ref_accept_miss re pre l :
  stops (re_match re) l → accept re (Ref.zip pre l) = (false, Ref.zip pre l).
Proof.
  intros Hl. rewrite ref_accept_zip. destruct l as [|c l]; [done|].
  apply stops_cons in Hl. by rewrite Hl.
Qed.

Lemma ref_expect_hit re pre c l :
  re_match re c = true →
  expect re (Ref.zip pre (c :: l)) = Return (tt, Ref.zip (pre ++ [c]) l).
Proof. intros Hc. by rewrite ref_expect_zip, Hc. Qed.

Lemma ref_expect_miss re pre l :
  stops (re_match re) l → expect re (Ref.zip pre l) = Throw (Expected re).
Proof.
  intros Hl. rewrite ref_expect_zip. destruct l as [|c l]; [done|].
  apply stops_cons in Hl. by rewrite Hl.
Qed.

Lemma ref_seek_app re pre gap c l :
  Forall (λ c, re_match re c = false) gap → re_match re c = true →
  seek re (Ref.zip pre (gap ++ c :: l)) = (true, Ref.zip (pre ++ gap) (c :: l)).
Proof.
  intros Hgap Hc. rewrite ref_seek_zip.
  assert (Forall (λ c, negb (re_match re c) = true) gap) as Hgap'.
  { eapply Forall_impl; [done|]. by intros ? ->. }
  rewrite take_while_app_stop, drop_while_app_stop; try done;
    apply stops_cons; by rewrite Hc.
Qed.

Lemma ref_seek_none re pre l :
  Forall (λ c, re_match re c = false) l →
  seek re (Ref.zip pre l) = (false, Ref.zip pre l).
Proof.
  intros Hl. rewrite ref_seek_zip.
  assert (Forall (λ c, negb (re_match re c) = true) l) as Hl'.
  { eapply Forall_impl; [done|]. by intros ? ->. }
  rewrite <-(app_nil_r l) at 1. by rewrite drop_while_app_stop.
Qed.

Lemma ref_index_zip pre l : index (Ref.zip pre l) = length pre.
Proof. done. Qed.

(** The slice between the offsets reached after [pre] and after
    [pre ++ w] is [w], wherever the cursor stands. *)
Lemma ref_slice_text pre w l i :
  slice (length pre) (length (pre ++ w)) (Ref.mk (pre ++ w ++ l) i) = w.
Proof.
  simpl. unfold Ref.slice. simpl. rewrite drop_app_length, length_app.
  replace (length pre + length w - length pre) with (length w) by lia.
  by rewrite take_app_length.
Qed.

Lemma ref_slice_zip pre w l :
  slice (length pre) (length (pre ++ w)) (Ref.zip (pre ++ w) l) = w.
Proof.
  unfold Ref.zip. rewrite <-(assoc_L (++)). apply ref_slice_text.
Qed.
End ref_zip.

(** ** The reference cursor only moves forward, within its text *)

(** [r'] is ahead of [r]: the same text, read further, not past its
    end. *)
Definition ahead (r r' : Ref.t) : Prop :=
  Ref.text r' = Ref.text r ∧ Ref.idx r ≤ Ref.idx r' ≤ length (Ref.text r).

#[export] Instance ahead_trans : Transitive ahead.
Proof.
  unfold ahead. intros r1 r2 r3 (Ht & ? & ?) (Ht' & ? & ?).
  rewrite Ht in *. split; [congruence|lia].
Qed.

Section ref_ahead.
Implicit Types (re : regex) (r : Ref.t).

Lemma ahead_refl r : Ref.wf r → ahead r r.
Proof. unfold ahead, Ref.wf. intros Hr. split; [done|lia]. Qed.

Lemma ahead_wf r r' : ahead r r' → Ref.wf r'.
Proof. unfold Ref.wf. intros (-> & _ & ?). done. Qed.

Lemma ref_length_rest r : length (Ref.rest r) = length (Ref.text r) - Ref.idx r.
Proof. unfold Ref.rest. by rewrite length_drop. Qed.

(** Moving over characters that remain keeps the cursor in the text. *)
Lemma ahead_advance n r :
  Ref.wf r → n ≤ length (Ref.rest r) → ahead r (Ref.advance n r).
Proof.
  rewrite ref_length_rest. unfold ahead, Ref.wf. simpl. intros. split; [done|lia].
Qed.

Lemma ahead_readWhile re r : Ref.wf r → ahead r (readWhile re r).2.
Proof. intros Hr. by apply ahead_advance, length_take_while_le. Qed.

Lemma ahead_skipSpace r : Ref.wf r → ahead r (skipSpace r).
Proof. intros Hr. by apply ahead_advance, length_take_while_le. Qed.

Lemma ahead_accept re r : Ref.wf r → ahead r (accept re r).2.
Proof.
  intros Hr. unfold accept. simpl. unfold Ref.accept.
  destruct (Ref.rest r) as [|c l] eqn:Hrest; [by apply ahead_refl|].
  destruct (re_match re c); [|by apply ahead_refl].
  apply ahead_advance; [done|]. rewrite Hrest. simpl. lia.
Qed.

Lemma ahead_expect re r u r' :
  Ref.wf r → expect re r = Return (u, r') → ahead r r'.
Proof.
  intros Hr. pose proof (ahead_accept re r Hr) as Ha. revert Ha.
  unfold expect, accept. simpl. unfold Ref.expect.
  destruct (Ref.accept re r) as [[] r1]; naive_solver.
Qed.

Lemma ahead_seek re r : Ref.wf r → ahead r (seek re r).2.
Proof.
  intros Hr. unfold seek. simpl. unfold Ref.seek.
  destruct (drop _ (Ref.rest r)); [by apply ahead_refl|].
  by apply ahead_advance, length_take_while_le.
Qed.

Lemma ahead_read r : Ref.wf r → ahead r (read r).2.
Proof.
  intros Hr. unfold read. simpl. unfold Ref.read.
  destruct (Ref.rest r) as [|c l] eqn:Hrest; [by apply ahead_refl|].
  apply ahead_advance; [done|]. rewrite Hrest. simpl. lia.
Qed.

Lemma ref_advance_0 r : Ref.advance 0 r = r.
Proof. destruct r. unfold Ref.advance. simpl. f_equal. lia. Qed.

(** After a run of characters among which all white space is, there is
    no white space to skip. *)
Lemma ref_skipSpace_readWhile re r :
  (∀ c, is_space c = true → re_match re c = true) →
  skipSpace (readWhile re r).2 = (readWhile re r).2.
Proof.
  intros Hre. unfold skipSpace, readWhile. simpl. unfold Ref.skipSpace.
  rewrite ref_rest_advance, <-drop_while_drop.
  rewrite (stops_weaken is_space (re_match re)); [|done|apply stops_drop_while].
  apply ref_advance_0.
Qed.

(** [seek] that fails leaves the cursor where it was. *)
Lemma ref_seek_false re r r' : seek re r = (false, r') → r' = r.
Proof.
  unfold seek. simpl. unfold Ref.seek.
  destruct (drop _ (Ref.rest r)); naive_solver.
Qed.
End ref_ahead.

#[export] Hint Rewrite ref_rest_zip ref_readWhile_zip ref_skipSpace_zip
  ref_accept_zip ref_expect_zip ref_read_zip ref_index_zip : scan.
#[export] Hint Resolve ref_wf_zip : scan.

(** In proofs about the scanner the operations of the cursor are
    rewritten with the lemmas above, never unfolded. *)
#[global] Arguments newScanner : simpl never.
#[global] Arguments readWhile : simpl never.
#[global] Arguments skipSpace : simpl never.
#[global] Arguments accept : simpl never.
#[global] Arguments expect : simpl never.
#[global] Arguments seek : simpl never.
#[global] Arguments read : simpl never.
#[global] Arguments index : simpl never.
#[global] Arguments slice : simpl never.
