(* ===== verification/TokenScanner.v ===== *)
(** token-scanner.js, function by function.

    The definitions follow the source in its order and under its names.
    They are generic in the cursor (any instance of [Cursor]); run on the
    reference cursor they compute, which is how the examples of
    [Examples] are checked.

    [scanFunc css] builds the cursor and a closure over it.  The inner
    functions [scanName], [scanParams], [scanArgs] and [scanArg] and the
    closure itself ([next]) are computations in the monad [Scan error S]:
    they read and move the cursor [sr] they share, and [scanArg] may
    throw.  The loop of [scanArgs] and the loop of [scanAll] take fuel;
    both are started with [S (length css)], one more than the number of
    characters either loop can consume. *)

From Stdlib Require Import Ascii String.
From stdpp Require Import list strings.
From S2P Require Import Prelude Regex Cursor.

#[local] Open Scope js_scope.
#[local] Open Scope scan_scope.

(** The object literal returned by the closure (lines 85-91). *)
Record Token : Type := mkToken {
  start : nat;
  end_ : nat;
  raw : jsstring;
  path : list jsstring;
  args : list jsstring;
}.

#[export] Instance Token_eq_dec : EqDecision Token.
Proof. solve_decision. Defined.

Section scanFunc.
Context {S : Type} `{Cursor S}.

(** The text handed to [scanFunc]: every inner function is a closure
    under it. *)
Variable css : jsstring.

(** Bound on the iterations of either loop over [css]. *)
Definition fuel_for : nat := Datatypes.S (length css).

Definition scanName : Scan error S jsstring :=
  name <- lift (readWhile name_re) ;;
  exec skipSpace ;;;
  ret name.

Definition scanArg (name : jsstring) : Scan error S jsstring :=
  arg <- lift (readWhile arg_re) ;;
  if decide (arg = "") then throw (MissingArgument name)
  else
    exec skipSpace ;;;
    ret arg.

(** The [while (true)] of [scanArgs]: [args] is the array built so far. *)
Fixpoint scanArgs_loop (fuel : nat) (name : jsstring) (args : list jsstring)
    : Scan error S (list jsstring) :=
  match fuel with
  | 0 => λ _, OutOfFuel
  | Datatypes.S fuel' =>
      arg <- scanArg name ;;
      let args := args ++ [arg] in
      more <- lift (accept comma_re) ;;
      if negb more then ret args
      else
        exec skipSpace ;;;
        scanArgs_loop fuel' name args
  end.

Definition scanArgs (name : jsstring) : Scan error S (list jsstring) :=
  scanArgs_loop fuel_for name [].

Definition scanParams (name : jsstring) : Scan error S (list jsstring) :=
  opened <- lift (accept lparen_re) ;;
  if negb opened then ret []
  else
    exec skipSpace ;;;
    closed <- lift (accept rparen_re) ;;
    if closed then ret []
    else
      args <- scanArgs name ;;
      exec skipSpace ;;;
      expect rparen_re ;;;
      ret args.

(** The closure that [scanFunc] returns: one call yields the next token,
    or [None] for JavaScript's [null]. *)
Definition next : Scan error S (option Token) :=
  found <- lift (seek marker_re) ;;
  if negb found then ret None
  else
    start <- gets index ;;
    startRune <- lift read ;;
    name <- scanName ;;
    args <- scanParams name ;;
    end_ <- gets index ;;
    raw <- gets (slice start end_) ;;
    ret (Some {| start := start; end_ := end_; raw := raw;
                 path := split_on "."%char name; args := args |}).

(** [scanFunc css]: the fresh cursor [sr] paired with the closure that
    owns it. *)
Definition scanFunc : S * Scan error S (option Token) :=
  (newScanner css, next).

(** The [while ((tk = f()) !== null)] of [scanAll]. *)
Fixpoint scanAll_loop (fuel : nat) (f : Scan error S (option Token))
    (result : list Token) : Scan error S (list Token) :=
  match fuel with
  | 0 => λ _, OutOfFuel
  | Datatypes.S fuel' =>
      tk <- f ;;
      match tk with
      | None => ret result
      | Some tk => scanAll_loop fuel' f (result ++ [tk])
      end
  end.

Definition scanAll : outcome error (list Token) :=
  let '(sr, f) := scanFunc in
  outcome_map fst (scanAll_loop fuel_for f [] sr).
End scanFunc.

(** The object that the module exports (lines 95-98). *)
Record Exports (S : Type) : Type := mkExports {
  exports_scanAll : jsstring → outcome error (list Token);
  exports_scanFunc : jsstring → S * Scan error S (option Token);
}.

Definition exports {S : Type} `{Cursor S} : Exports S :=
  {| exports_scanAll := scanAll; exports_scanFunc := scanFunc |}.
