(* ===== verification/Simulation.v ===== *)
(** The scanner does not depend on the cursor it is given.

    For a cursor that satisfies [CursorLaws], every function of
    token-scanner.js run on it and run on the reference cursor, from
    related states, end in related outcomes: the same value and related
    states, the same exception, or both out of fuel.  [scanAll], which
    hides the cursor, therefore returns exactly what it returns on the
    reference cursor. *)

From Stdlib Require Import Ascii String.
From stdpp Require Import list strings.
From S2P Require Import Prelude Regex Cursor TokenScanner.

#[local] Open Scope js_scope.

(** ** Related computations *)

Section related.
Context {S : Type} `{CursorLaws S}.
Implicit Types (s : S) (r : Ref.t).

(** Two computations are related when they take related states to
    related outcomes. *)
Definition scan_rel {A} (m : Scan error S A) (m' : Scan error Ref.t A) : Prop :=
  ∀ s r, sim s r → outcome_rel sim (m s) (m' r).

Lemma scan_rel_ret {A} (a : A) : scan_rel (ret a) (ret a).
Proof. by intros s r Hs. Qed.

Lemma scan_rel_throw {A} (e : error) : scan_rel (A := A) (throw e) (throw e).
Proof. by intros s r Hs. Qed.

Lemma scan_rel_bind {A B} (m : Scan error S A) m' (k : A → Scan error S B) k' :
  scan_rel m m' → (∀ a, scan_rel (k a) (k' a)) → scan_rel (bind m k) (bind m' k').
Proof.
  intros Hm Hk s r Hs. specialize (Hm s r Hs). unfold bind, outcome_rel in *.
  destruct (m s) as [[a s1]| |], (m' r) as [[a' r1]| |]; try done.
  destruct Hm as [-> Hs1]. by apply Hk.
Qed.

(** The same, where the continuations need only agree on the states
    the first computation can end in on the reference cursor. *)
Lemma outcome_rel_bind {A B} (m : Scan error S A) m' (k : A → Scan error S B) k' s r :
  outcome_rel sim (m s) (m' r) →
  (∀ a s1 r1, m' r = Return (a, r1) → sim s1 r1 →
     outcome_rel sim (k a s1) (k' a r1)) →
  outcome_rel sim (bind m k s) (bind m' k' r).
Proof.
  intros Hm Hk. unfold bind, outcome_rel in *.
  destruct (m s) as [[a s1]| |], (m' r) as [[a' r1]| |]; try done.
  destruct Hm as [-> Hs1]. by apply Hk.
Qed.

Lemma outcome_rel_lift {A} (f : S → A * S) (g : Ref.t → A * Ref.t) s r :
  result_rel sim (f s) (g r) →
  outcome_rel sim (lift (E := error) f s) (lift g r).
Proof. unfold lift, result_rel. destruct (f s), (g r). done. Qed.

Lemma scan_rel_lift {A} (f : S → A * S) (g : Ref.t → A * Ref.t) :
  (∀ s r, sim s r → result_rel sim (f s) (g r)) → scan_rel (lift f) (lift g).
Proof. intros Hfg s r Hs. by apply outcome_rel_lift, Hfg. Qed.

Lemma scan_rel_apply {A} (m : Scan error S A) m' s r :
  scan_rel m m' → sim s r → outcome_rel sim (m s) (m' r).
Proof. intros Hm. apply Hm. Qed.

Lemma scan_rel_exec (f : S → S) (g : Ref.t → Ref.t) :
  (∀ s r, sim s r → sim (f s) (g r)) → scan_rel (exec f) (exec g).
Proof. intros Hfg s r Hs. simpl. auto. Qed.

Lemma scan_rel_if {A} (b : bool) (m1 m2 : Scan error S A) m1' m2' :
  scan_rel m1 m1' → scan_rel m2 m2' →
  scan_rel (if b then m1 else m2) (if b then m1' else m2').
Proof. by destruct b. Qed.

(** Observations that the two cursors agree on. *)
Lemma scan_rel_gets {A} (g : S → A) (g' : Ref.t → A) :
  (∀ s r, sim s r → g s = g' r) → scan_rel (gets g) (gets g').
Proof. intros Hg s r Hs. unfold gets. simpl. auto. Qed.

Lemma scan_rel_index : scan_rel (gets index) (gets index).
Proof. apply scan_rel_gets, @sim_index. Qed.

Lemma scan_rel_slice a b : scan_rel (gets (slice a b)) (gets (slice a b)).
Proof. apply scan_rel_gets, @sim_slice. Qed.

Lemma scan_rel_expect re : scan_rel (expect re) (expect re).
Proof. intros s r Hs. by apply sim_expect. Qed.
End related.

#[export] Hint Resolve scan_rel_ret scan_rel_throw scan_rel_index
  scan_rel_slice scan_rel_expect : scan.

(** Relates two computations built alike from the operations of the
    cursor, one bind at a time. *)
Ltac scan_rel_step :=
  first
  [ apply scan_rel_bind; [|intros ?]
  | apply scan_rel_if
  | apply scan_rel_lift; intros ? ? ?;
      first [by apply sim_readWhile | by apply sim_accept | by apply sim_seek]
  | apply scan_rel_exec; intros ? ? ?; by apply sim_skipSpace
  | match goal with |- scan_rel (if ?c then _ else _) _ => destruct c end
  | solve [auto with scan] ].

(** ** The functions of the scanner *)

Section scanner.
Context {S : Type} `{CursorLaws S}.
Variable css : jsstring.

Lemma scanName_rel : scan_rel scanName scanName.
Proof. unfold scanName. repeat scan_rel_step. Qed.

Lemma scanArg_rel name : scan_rel (scanArg name) (scanArg name).
Proof. unfold scanArg. repeat scan_rel_step. Qed.

Lemma scanArgs_loop_rel fuel name args :
  scan_rel (scanArgs_loop fuel name args) (scanArgs_loop fuel name args).
Proof.
  revert args. induction fuel as [|fuel IH]; intros args; simpl; [by intros s r|].
  apply scan_rel_bind; [apply scanArg_rel|]. intros arg.
  repeat scan_rel_step.
Qed.

Lemma scanParams_rel name : scan_rel (scanParams css name) (scanParams css name).
Proof.
  unfold scanParams, scanArgs.
  repeat first [apply scanArgs_loop_rel | scan_rel_step].
Qed.

(** [read] is related only where a character is left, which is the case
    after [seek] succeeded. *)
Lemma next_rel : scan_rel (next css) (next css).
Proof.
  intros s r Hs. unfold next.
  apply outcome_rel_bind; [by apply outcome_rel_lift, sim_seek|].
  intros [] s1 r1 [= Hseek] Hs1; simpl; [|done].
  apply ref_seek_found in Hseek.
  apply outcome_rel_bind; [by apply scan_rel_index|].
  intros start ? ? [= <- <-] Hs2.
  apply outcome_rel_bind; [by apply outcome_rel_lift, sim_read|].
  intros startRune s3 r3 _ Hs3. apply scan_rel_apply; [|done].
  repeat first [apply scanName_rel | apply scanParams_rel | scan_rel_step].
Qed.

Lemma scanAll_loop_rel fuel result :
  scan_rel (scanAll_loop fuel (next css) result)
    (scanAll_loop fuel (next css) result).
Proof.
  revert result. induction fuel as [|fuel IH]; intros result; simpl;
    [by intros s r|].
  apply scan_rel_bind; [apply next_rel|]. intros [tk|]; [apply IH|].
  apply scan_rel_ret.
Qed.

(** Whatever cursor [newScanner] provides, as long as it satisfies the
    laws of the interface, [scanAll] returns the tokens, or throws the
    exception, that it returns or throws on the reference cursor. *)
Lemma scanAll_on_ref : scanAll (S := S) css = scanAll (S := Ref.t) css.
Proof.
  unfold scanAll, scanFunc. apply (outcome_rel_map_fst sim).
  apply scanAll_loop_rel, sim_newScanner.
Qed.
End scanner.
