(* ===== verification/Grammar.v ===== *)
(** What the scanner is to compute, stated on the text alone.

    The relations of this file describe, by the way a text decomposes
    into names, white space, delimiters and arguments, the outcome of
    scanning it: the arguments of a parameter list or the exception
    raised in it ([args_at], [params_at]), the placeholder that follows
    a marker ([token_at]) and the tokens of a whole text ([scan_at]).
    There is no cursor, no offset arithmetic beyond lengths, and no
    fuel.  Each relation is single-valued (the last section); [Parser]
    gives the functions that compute them, hence that they are total,
    and [Refinement] shows that token-scanner.js computes them. *)

From Stdlib Require Import Ascii String.
From stdpp Require Import list strings.
From S2P Require Import Prelude Regex Cursor TokenScanner.

#[local] Open Scope js_scope.

(** ** Classes of texts *)

Definition name_chars (w : jsstring) : Prop :=
  Forall (λ c, re_match name_re c = true) w.

Definition arg_chars (w : jsstring) : Prop :=
  Forall (λ c, re_match arg_re c = true) w.

Definition spaces (w : jsstring) : Prop :=
  Forall (λ c, is_space c = true) w.

#[export] Instance name_chars_dec w : Decision (name_chars w).
Proof. unfold name_chars. apply _. Defined.

#[export] Instance arg_chars_dec w : Decision (arg_chars w).
Proof. unfold arg_chars. apply _. Defined.

#[export] Instance spaces_dec w : Decision (spaces w).
Proof. unfold spaces. apply _. Defined.

(** An argument: a non-empty run of characters other than [,] and [)]
    that does not start with white space.  It may contain white space
    and may end with it. *)
Definition argument (a : jsstring) : Prop :=
  a ≠ [] ∧ arg_chars a ∧ stops is_space a.

#[export] Instance argument_dec a : Decision (argument a).
Proof. unfold argument. apply _. Defined.

(** ** Argument lists *)

(** The value of a parameter list: the arguments, the text they were
    read from, and the text left after them. *)
Definition parsed : Type := list jsstring * jsstring * jsstring.

(** Prefixes the value of the rest of an argument list with the
    argument [a] and the text [w] that leads to the rest. *)
Definition parsed_cons (a w : jsstring) (v : parsed) : parsed :=
  let '(args, w', l) := v in (a :: args, w ++ w', l).

(** [args_at name l o]: scanning arguments at the start of [l], for the
    placeholder [name], has outcome [o]. *)
Inductive args_at (name : jsstring) : jsstring → outcome error parsed → Prop :=
| args_missing l :
    stops (re_match arg_re) l →
    args_at name l (Throw (MissingArgument name))
| args_last a l :
    argument a → stops (re_match arg_re) l → head l ≠ Some ","%char →
    args_at name (a ++ l) (Return ([a], a, l))
| args_more a ws l o :
    argument a → spaces ws → stops is_space l → args_at name l o →
    args_at name (a ++ "," ++ ws ++ l)
      (outcome_map (parsed_cons a (a ++ "," ++ ws)) o).

(** ** Parameter lists *)

(** Wraps the value of an argument list into that of the parameter list
    [( ws args )]. *)
Definition parsed_wrap (ws : jsstring) (args : list jsstring) (w l : jsstring)
    : parsed :=
  (args, "(" ++ ws ++ w ++ ")", l).

Inductive params_at (name : jsstring) : jsstring → outcome error parsed → Prop :=
| params_absent l :
    head l ≠ Some "("%char →
    params_at name l (Return ([], [], l))
| params_empty ws l :
    spaces ws →
    params_at name ("(" ++ ws ++ ")" ++ l) (Return ([], "(" ++ ws ++ ")", l))
| params_args ws l args w l' :
    spaces ws → stops is_space l → head l ≠ Some ")"%char →
    args_at name l (Return (args, w, ")"%char :: l')) →
    params_at name ("(" ++ ws ++ l) (Return (parsed_wrap ws args w l'))
| params_unclosed ws l args w :
    spaces ws → stops is_space l → head l ≠ Some ")"%char →
    args_at name l (Return (args, w, [])) →
    params_at name ("(" ++ ws ++ l) (Throw (Expected rparen_re))
| params_missing ws l e :
    spaces ws → stops is_space l → head l ≠ Some ")"%char →
    args_at name l (Throw e) →
    params_at name ("(" ++ ws ++ l) (Throw e).

(** ** Placeholders *)

(** The value of a placeholder: its name, its arguments, the text after
    the marker it was read from, and the text left after it. *)
Definition placeholder : Type := jsstring * list jsstring * jsstring * jsstring.

Definition placeholder_of (name ws : jsstring) (v : parsed) : placeholder :=
  let '(args, w, l) := v in (name, args, name ++ ws ++ w, l).

(** [token_at l o]: the text [l] after a marker gives the outcome [o]. *)
Inductive token_at : jsstring → outcome error placeholder → Prop :=
| token_intro name ws l o :
    name_chars name → spaces ws →
    stops (re_match name_re) (ws ++ l) → stops is_space l →
    params_at name l o →
    token_at (name ++ ws ++ l) (outcome_map (placeholder_of name ws) o).

(** A text closes a placeholder without a parameter list that stands
    before it: it is empty, or its first character is neither a character
    of a name, nor a space, nor an opening parenthesis. *)
Definition closes (l : jsstring) : Prop :=
  stops (re_match name_re) l ∧ stops is_space l ∧ head l ≠ Some "("%char.

#[export] Instance closes_dec l : Decision (closes l).
Proof. unfold closes. apply _. Defined.

(** ** Texts *)

(** The token for the placeholder with value [v] whose marker stands at
    offset [start]. *)
Definition token_of (start : nat) (v : placeholder) : Token :=
  let '(name, args, w, _) := v in
  {| start := start; end_ := start + 1 + length w; raw := "$" ++ w;
     path := split_on "."%char name; args := args |}.

(** [scan_at off l o]: the text [l], which starts at offset [off] of
    the text handed to [scanAll], gives the outcome [o]. *)
Inductive scan_at : nat → jsstring → outcome error (list Token) → Prop :=
| scan_done off l :
    "$"%char ∉ l →
    scan_at off l (Return [])
| scan_throw off gap l e :
    "$"%char ∉ gap → token_at l (Throw e) →
    scan_at off (gap ++ "$" ++ l) (Throw e)
| scan_token off gap l name args w l' o :
    "$"%char ∉ gap → token_at l (Return (name, args, w, l')) →
    scan_at (off + length gap + 1 + length w) l' o →
    scan_at off (gap ++ "$" ++ l)
      (outcome_map (cons (token_of (off + length gap) (name, args, w, l'))) o).

(** ** Induction on the argument lists that are returned *)

(** Induction on the derivations that give arguments: the last
    argument, or an argument, a comma, white space and then the other
    arguments. *)
Lemma args_at_values_ind name
    (P : jsstring → list jsstring → jsstring → jsstring → Prop) :
  (∀ a l, argument a → stops (re_match arg_re) l → head l ≠ Some ","%char →
     P (a ++ l) [a] a l) →
  (∀ a ws l args w l',
     argument a → spaces ws → stops is_space l →
     args_at name l (Return (args, w, l')) → P l args w l' →
     P (a ++ "," ++ ws ++ l) (a :: args) ((a ++ "," ++ ws) ++ w) l') →
  ∀ l args w l', args_at name l (Return (args, w, l')) → P l args w l'.
Proof.
  intros Hlast Hmore l args w l' H. remember (Return (args, w, l')) as o eqn:Ho.
  revert args w l' Ho.
  induction H as [|a l Ha Hl Hc|a ws l o Ha Hws Hl Hargs IH];
    intros args w l' Ho; [done| |].
  - injection Ho as <- <- <-. by apply Hlast.
  - destruct o as [[[args0 w0] l0]| |]; [injection Ho as <- <- <-|done..].
    by apply Hmore; [..|apply IH].
Qed.

(** Induction on [H], a derivation that gives arguments, by
    [args_at_values_ind].  What depends on the text, the arguments, the
    text consumed or the text left must be in the goal. *)
Ltac args_at_ind H :=
  lazymatch type of H with
  | args_at ?name ?l (Return (?args, ?w, ?l')) =>
      pattern l, args, w, l';
      lazymatch goal with
      | |- ?P l args w l' =>
          revert l args w l' H; refine (args_at_values_ind name P _ _); cbv beta
      end
  end.

(** ** The value accounts for the text, and fuel never runs out *)

Section text.
Implicit Types (l w name : jsstring) (args : list jsstring).

Lemma args_at_fuel name l : ¬ args_at name l OutOfFuel.
Proof.
  intros H. remember OutOfFuel as o eqn:Ho.
  induction H as [| |a ws l o Ha Hws Hl Hargs IH]; try done.
  destruct o; [done..|]. by apply IH.
Qed.

(** The text consumed and the text left make up the text scanned, and
    the text left starts with [)] or is empty. *)
Lemma args_at_Return name l args w l' :
  args_at name l (Return (args, w, l')) →
  l = w ++ l' ∧ stops (re_match arg_re) l' ∧ head l' ≠ Some ","%char.
Proof.
  intros H. args_at_ind H; [done|].
  intros a ws l args w l' _ _ _ _ (-> & ? & ?). by rewrite <-!(assoc_L (++)).
Qed.

Lemma args_at_rest name l args w l' :
  args_at name l (Return (args, w, l')) → l' = [] ∨ ∃ l'', l' = ")"%char :: l''.
Proof.
  intros (_ & Hstop & Hc)%args_at_Return.
  apply stops_arg_re in Hstop as [->|[?|?]]; [by left|done|].
  right. destruct l' as [|c l'']; simplify_eq/=. by exists l''.
Qed.

Lemma params_at_fuel name l : ¬ params_at name l OutOfFuel.
Proof. inversion 1. Qed.

Lemma params_at_Return name l args w l' :
  params_at name l (Return (args, w, l')) → l = w ++ l'.
Proof.
  inversion 1 as [| |ws l0 args0 w0 l0' Hws Hl0 Hc Hargs| |]; subst; try done.
  - solve_app.
  - apply args_at_Return in Hargs as (-> & _). unfold parsed_wrap in *.
    simplify_eq/=. solve_app.
Qed.

Lemma token_at_fuel l : ¬ token_at l OutOfFuel.
Proof.
  inversion 1 as [name ws l0 o ? ? ? ? Hp]; subst.
  destruct o; [done..|]. by apply params_at_fuel in Hp.
Qed.

Lemma token_at_Return l name args w l' :
  token_at l (Return (name, args, w, l')) → l = w ++ l'.
Proof.
  inversion 1 as [name0 ws l0 o ? ? ? ? Hp]; subst.
  destruct o as [[[args0 w0] l0']| |]; simplify_eq/=.
  apply params_at_Return in Hp as ->. solve_app.
Qed.

Lemma scan_at_fuel off l : ¬ scan_at off l OutOfFuel.
Proof.
  intros H. remember OutOfFuel as o eqn:Ho.
  induction H as [| |off gap l name args w l' o Hgap Htok Hscan IH]; try done.
  destruct o; [done..|]. by apply IH.
Qed.

(** Induction on the derivations that give tokens: a text without a
    marker, or a placeholder after a text without a marker and then a
    text that gives the other tokens. *)
Lemma scan_at_tokens_ind (P : nat → jsstring → list Token → Prop) :
  (∀ off l, "$"%char ∉ l → P off l []) →
  (∀ off gap name args w l' tks,
     "$"%char ∉ gap → token_at (w ++ l') (Return (name, args, w, l')) →
     scan_at (off + length gap + 1 + length w) l' (Return tks) →
     P (off + length gap + 1 + length w) l' tks →
     P off (gap ++ "$" ++ w ++ l')
       (token_of (off + length gap) (name, args, w, l') :: tks)) →
  ∀ off l tks, scan_at off l (Return tks) → P off l tks.
Proof.
  intros Hdone Htoken off l tks H. remember (Return tks) as o eqn:Ho.
  revert tks Ho.
  induction H as [off l Hl| |off gap l name args w l' o Hgap Htok Hscan IH];
    intros tks Ho; [| done |].
  - simplify_eq. by apply Hdone.
  - destruct o as [tks'| |]; [injection Ho as <-|done..].
    pose proof (token_at_Return _ _ _ _ _ Htok) as ->.
    by apply Htoken; [..|apply IH].
Qed.
End text.

(** Induction on [H], a derivation that gives tokens, by
    [scan_at_tokens_ind].  What depends on the offset, the text or the
    tokens must be in the goal. *)
Ltac scan_at_ind H :=
  lazymatch type of H with
  | scan_at ?off ?l (Return ?tks) =>
      pattern off, l, tks;
      lazymatch goal with
      | |- ?P off l tks =>
          revert off l tks H; refine (scan_at_tokens_ind P _ _); cbv beta
      end
  end.

(** ** The shape of the values *)

Section shape.
Implicit Types (l w name : jsstring) (args : list jsstring).

(** An argument list that is returned holds at least one argument, and
    only arguments. *)
Lemma args_at_arguments name l args w l' :
  args_at name l (Return (args, w, l')) →
  args ≠ [] ∧ Forall argument args ∧ w ≠ [] ∧ stops is_space w.
Proof.
  intros H. args_at_ind H.
  - intros a l Ha _ _. pose proof Ha as (? & ? & ?).
    repeat split; auto.
  - intros a ws l args w l' Ha _ _ _ (_ & Hall & _).
    pose proof Ha as (Hne & _ & Hsp).
    repeat split; [done|by constructor|by destruct a|].
    rewrite <-(assoc_L (++)). by apply stops_app_r.
Qed.

Lemma params_at_arguments name l args w l' :
  params_at name l (Return (args, w, l')) → Forall argument args.
Proof.
  inversion 1 as [| |ws l0 args0 w0 l0' Hws Hl0 Hc Hargs| |]; subst;
    [constructor..|].
  unfold parsed_wrap in *. simplify_eq. by apply args_at_arguments in Hargs as (_ & ? & _).
Qed.

Lemma token_at_shape l name args w l' :
  token_at l (Return (name, args, w, l')) →
  name_chars name ∧ Forall argument args.
Proof.
  inversion 1 as [name0 ws l0 o ? ? ? ? Hp]; subst.
  destruct o as [[[args0 w0] l0']| |]; simplify_eq/=.
  by apply params_at_arguments in Hp.
Qed.

(** The text of a placeholder starts with its name. *)
Lemma token_at_name l name args w l' :
  token_at l (Return (name, args, w, l')) → name `prefix_of` w.
Proof.
  inversion 1 as [name0 ws l0 o ? ? ? ? Hp]; subst.
  destruct o as [[[args0 w0] l0']| |]; simplify_eq/=. by apply prefix_app_r.
Qed.
End shape.

(** ** A value depends only on the text it accounts for *)

Section local.
Implicit Types (l w name : jsstring) (args : list jsstring).

Lemma args_at_local name l args w l' l'' :
  args_at name l (Return (args, w, l')) →
  stops (re_match arg_re) l'' → head l'' ≠ Some ","%char →
  args_at name (w ++ l'') (Return (args, w, l'')).
Proof.
  intros H Hstop Hc. args_at_ind H.
  - intros a l Ha _ _. by apply args_last.
  - intros a ws l args w l' Ha Hws Hl Hargs IH.
    pose proof (args_at_arguments _ _ _ _ _ Hargs) as (_ & _ & Hw & Hsp).
    replace (((a ++ "," ++ ws) ++ w) ++ l'')
      with (a ++ "," ++ ws ++ w ++ l'') by solve_app.
    apply (args_more name a ws (w ++ l'') (Return (args, w, l''))); try done.
    by apply stops_app_r.
Qed.

(** A parameter list that was read is read again, with the same value,
    before any text; where there was no parameter list, before a text
    that does not start with an opening parenthesis. *)
Lemma params_at_local name l args w l' l'' :
  params_at name l (Return (args, w, l')) →
  (w = [] → head l'' ≠ Some "("%char) →
  params_at name (w ++ l'') (Return (args, w, l'')).
Proof.
  inversion 1 as [| |ws l0 args0 w0 l0' Hws Hl0 Hc Hargs| |]; subst; intros Hl''.
  - by apply params_absent, Hl''.
  - simpl. rewrite <-(assoc_L (++)). by apply (params_empty name ws l'').
  - unfold parsed_wrap in *. simplify_eq.
    pose proof (args_at_arguments _ _ _ _ _ Hargs) as (_ & _ & Hw0 & Hsp).
    pose proof (args_at_Return _ _ _ _ _ Hargs) as (-> & _).
    simpl. rewrite <-!(assoc_L (++)).
    apply (params_args name ws (w0 ++ ")" ++ l'') args w0 l'').
    + done.
    + by apply stops_app_r.
    + by destruct w0.
    + by apply (args_at_local _ _ _ _ _ _ Hargs).
Qed.

(** The text of a placeholder without a parameter list does not end
    with a closing parenthesis. *)
Lemma last_name_spaces name ws :
  name_chars name → spaces ws → last (name ++ ws) ≠ Some ")"%char.
Proof.
  intros Hname Hws Hlast. apply last_Some_elem_of, elem_of_app in Hlast.
  destruct Hlast as [Hin|Hin].
  - eapply Forall_forall in Hname; [|done]. done.
  - eapply Forall_forall in Hws; [|done]. done.
Qed.

(** A placeholder that was read is read again, with the same value,
    before a text that starts as the text after it did or is empty,
    and before any text if it ends with its parameter list. *)
Lemma token_at_local l name args w l' l'' :
  token_at l (Return (name, args, w, l')) →
  head_of l' l'' ∨ last w = Some ")"%char →
  token_at (w ++ l'') (Return (name, args, w, l'')).
Proof.
  inversion 1 as [name0 ws l0 o Hname Hws Hstop Hl0 Hp]; subst.
  destruct o as [[[args0 w0] l0']| |]; simplify_eq/=. intros Hl''.
  pose proof (params_at_Return _ _ _ _ _ Hp) as ->.
  assert (w0 = [] → head_of l' l'') as Hhead.
  { intros ->. rewrite app_nil_r in Hl''.
    destruct Hl'' as [?|Hlast]; [done|]. by apply last_name_spaces in Hlast. }
  rewrite <-!(assoc_L (++)).
  apply (token_intro name ws (w0 ++ l'') (Return (args, w0, l''))); try done.
  - eapply stops_head_of; [|done]. by apply head_of_app, head_of_app_nil.
  - eapply stops_head_of; [|done]. by apply head_of_app_nil.
  - apply (params_at_local _ _ _ _ _ _ Hp). intros ->.
    eapply head_of_neq; [by apply Hhead|]. by inversion Hp.
Qed.

(** The same before a text that closes a placeholder. *)
Lemma token_at_closes l name args w l' l'' :
  token_at l (Return (name, args, w, l')) → closes l'' →
  token_at (w ++ l'') (Return (name, args, w, l'')).
Proof.
  inversion 1 as [name0 ws l0 o Hname Hws Hstop Hl0 Hp]; subst.
  destruct o as [[[args0 w0] l0']| |]; simplify_eq/=. intros (Hn & Hs & Hc).
  pose proof (params_at_Return _ _ _ _ _ Hp) as ->. rewrite <-!(assoc_L (++)).
  apply (token_intro name ws (w0 ++ l'') (Return (args, w0, l''))); try done.
  - apply (stops_app_tail _ _ (w0 ++ l')); [done|intros ->].
    by apply (stops_app_tail _ _ l').
  - by apply (stops_app_tail _ _ l').
  - by apply (params_at_local _ _ _ _ _ _ Hp).
Qed.

(** A placeholder that was read is read again, with the same value,
    when a text is appended, unless it reached the end of the text,
    does not end with its parameter list, and the text appended does not
    close it. *)
Lemma token_at_app l name args w l' l'' :
  token_at l (Return (name, args, w, l')) →
  (l' = [] → last w = Some ")"%char ∨ closes l'') →
  token_at (w ++ l' ++ l'') (Return (name, args, w, l' ++ l'')).
Proof.
  intros Htok Hend. destruct (decide (l' = [])) as [->|Hl'].
  - destruct (Hend eq_refl) as [Hlast|Hcl];
      [apply (token_at_local _ _ _ _ _ _ Htok); by right
      |by apply (token_at_closes _ _ _ _ _ _ Htok)].
  - apply (token_at_local _ _ _ _ _ _ Htok). left. by apply head_of_app_r.
Qed.

(** A placeholder that was read is read again, alone, with the same
    value. *)
Lemma token_at_alone l name args w l' :
  token_at l (Return (name, args, w, l')) →
  token_at w (Return (name, args, w, [])).
Proof.
  intros Htok. rewrite <-(app_nil_r w) at 1.
  apply (token_at_local _ _ _ _ _ _ Htok). left. apply head_of_nil.
Qed.
End local.

(** ** Where exceptions come from *)

Section throws.
Implicit Types (l w name : jsstring) (args : list jsstring).

Lemma arg_chars_no_rparen a : arg_chars a → ")"%char ∉ a.
Proof.
  intros Ha Hin. eapply Forall_forall in Ha; [|done]. by apply arg_re_spec in Ha as [_ ?].
Qed.

Lemma spaces_no_rparen ws : spaces ws → ")"%char ∉ ws.
Proof. intros Hws Hin. eapply Forall_forall in Hws; [|done]. done. Qed.

(** Shows that a concatenation of arguments, commas and white space
    holds no closing parenthesis. *)
Ltac solve_no_rparen :=
  repeat (rewrite not_elem_of_app || rewrite not_elem_of_cons);
  repeat split; try done;
  eauto using arg_chars_no_rparen, spaces_no_rparen, not_elem_of_nil.

(** The text of an argument list holds no closing parenthesis. *)
Lemma args_at_no_rparen name l args w l' :
  args_at name l (Return (args, w, l')) → ")"%char ∉ w.
Proof.
  intros H. args_at_ind H.
  - intros a l (_ & Ha & _) _ _. by apply arg_chars_no_rparen.
  - intros a ws l args w l' (_ & Ha & _) Hws _ _ IH. solve_no_rparen.
Qed.

(** The only exception of an argument list is the missing argument; it
    is raised where the text, after arguments each followed by a comma,
    comes to a comma, a closing parenthesis or its end. *)
Lemma args_at_Throw name l e :
  args_at name l (Throw e) →
  e = MissingArgument name ∧
  ∃ w l', l = w ++ l' ∧ (")"%char ∉ w) ∧ stops (re_match arg_re) l'.
Proof.
  intros H. remember (Throw e) as o eqn:Ho. revert Ho.
  induction H as [l Hl|a l Ha Hl Hc|a ws l o Ha Hws Hl Hargs IH]; intros Ho.
  - simplify_eq. split; [done|]. exists [], l. split; [done|]. split; [|done].
    apply not_elem_of_nil.
  - done.
  - destruct o as [|e'|]; simplify_eq/=.
    destruct (IH eq_refl) as (-> & w & l' & -> & Hw & Hl').
    split; [done|]. exists (a ++ "," ++ ws ++ w), l'. split; [solve_app|].
    split; [|done]. destruct Ha as (_ & Ha & _).
    solve_no_rparen.
Qed.

(** The exceptions of a parameter list. *)
Lemma params_at_Throw name l e :
  params_at name l (Throw e) →
  ∃ w l', l = "(" ++ w ++ l' ∧ (")"%char ∉ w) ∧
    ((e = Expected rparen_re ∧ w ≠ [] ∧ l' = []) ∨
     (e = MissingArgument name ∧ stops (re_match arg_re) l')).
Proof.
  inversion 1 as [| | |ws l0 args w Hws Hl0 Hc Hargs|ws l0 e0 Hws Hl0 Hc Hargs];
    subst.
  - pose proof (args_at_Return _ _ _ _ _ Hargs) as (-> & _).
    pose proof (args_at_arguments _ _ _ _ _ Hargs) as (_ & _ & Hw & _).
    apply args_at_no_rparen in Hargs.
    exists (ws ++ w), []. split; [solve_app|]. split.
    + solve_no_rparen.
    + left. split; [done|]. split; [|done]. by destruct ws, w.
  - apply args_at_Throw in Hargs as (-> & w & l' & -> & Hw & Hl').
    exists (ws ++ w), l'. split; [solve_app|]. split.
    + solve_no_rparen.
    + by right.
Qed.

Lemma token_at_Throw l e :
  token_at l (Throw e) →
  ∃ name ws l', l = name ++ ws ++ l' ∧ name_chars name ∧ spaces ws ∧
    params_at name l' (Throw e).
Proof.
  inversion 1 as [name ws l0 o Hname Hws Hstop Hl0 Hp]; subst.
  destruct o as [|e'|]; simplify_eq/=. by exists name, ws, l0.
Qed.

(** An exception of a scan is the exception of one placeholder. *)
Lemma scan_at_Throw off l e :
  scan_at off l (Throw e) →
  ∃ pre l', l = pre ++ "$" ++ l' ∧ token_at l' (Throw e).
Proof.
  intros H. remember (Throw e) as o eqn:Ho. revert Ho.
  induction H as [off l Hl|off gap l e' Hgap Htok
    |off gap l name args w l' o Hgap Htok Hscan IH]; intros Ho.
  - done.
  - simplify_eq. by exists gap, l.
  - destruct o as [|e'|]; simplify_eq/=.
    destruct (IH eq_refl) as (pre & l0 & -> & Htok').
    pose proof (token_at_Return _ _ _ _ _ Htok) as ->.
    exists (gap ++ "$" ++ w ++ pre), l0. split; [solve_app|done].
Qed.
End throws.

(** ** The relations are single-valued *)

Section deterministic.
Implicit Types (l w name a ws : jsstring) (args : list jsstring).

(** A text that starts with an argument does not stop the characters
    of arguments. *)
Lemma argument_not_stops a l : argument a → ¬ stops (re_match arg_re) (a ++ l).
Proof.
  intros (Hne & Ha & _) Hl. destruct a as [|c a]; [done|].
  apply stops_cons in Hl. inversion Ha; congruence.
Qed.

(** The two ways a text splits into an argument and what follows it
    are one. *)
Lemma argument_inj a l a' l' :
  argument a → stops (re_match arg_re) l →
  argument a' → stops (re_match arg_re) l' →
  a ++ l = a' ++ l' → a = a' ∧ l = l'.
Proof.
  intros (_ & ? & _) ? (_ & ? & _) ?. by apply (app_stop_inj (re_match arg_re)).
Qed.

Lemma spaces_inj ws l ws' l' :
  spaces ws → stops is_space l → spaces ws' → stops is_space l' →
  ws ++ l = ws' ++ l' → ws = ws' ∧ l = l'.
Proof. apply (app_stop_inj is_space). Qed.

Lemma args_at_det name l o1 o2 :
  args_at name l o1 → args_at name l o2 → o1 = o2.
Proof.
  intros H1. revert o2.
  induction H1 as [l Hl|a l Ha Hl Hc|a ws l o Ha Hws Hl Hargs IH]; intros o2 H2.
  - inversion H2 as [|a' l' Ha'|a' ws' l' o' Ha']; subst; [done|..];
      exfalso; by eapply argument_not_stops.
  - inversion H2 as [l0 Hl0|a' l' Ha' Hl' Hc' Heq|a' ws' l' o' Ha' Hws' Hl' Hargs' Heq];
      subst; [exfalso; by eapply argument_not_stops|..];
      apply argument_inj in Heq as [? ?]; try done; by simplify_eq/=.
  - inversion H2 as [l0 Hl0|a' l' Ha' Hl' Hc' Heq|a' ws' l' o' Ha' Hws' Hl' Hargs' Heq];
      subst; [exfalso; by eapply argument_not_stops|..];
      apply argument_inj in Heq as [? Heq]; try done; simplify_eq/=.
    apply spaces_inj in Heq as [-> ->]; [|done..]. by rewrite (IH _ Hargs').
Qed.

(** Inverts the hypotheses that the text starts with the character it
    is known not to start with. *)
Ltac head_absurd :=
  match goal with
  | H : head (_ :: _) ≠ Some _ |- _ => by destruct H
  | H : head (?ws ++ _ :: _) ≠ Some _, Hws : spaces ?ws |- _ =>
      destruct ws; [by destruct H|]
  end.

Lemma params_at_det name l o1 o2 :
  params_at name l o1 → params_at name l o2 → o1 = o2.
Proof.
  destruct 1 as [l Hl|ws l Hws|ws l args w l' Hws Hl Hc Hargs
    |ws l args w Hws Hl Hc Hargs|ws l e Hws Hl Hc Hargs];
    inversion 1 as [l0 Hl0|ws0 l0 Hws0 Heq|ws0 l0 args0 w0 l0' Hws0 Hl0 Hc0 Hargs0 Heq
    |ws0 l0 args0 w0 Hws0 Hl0 Hc0 Hargs0 Heq|ws0 l0 e0 Hws0 Hl0 Hc0 Hargs0 Heq];
    simplify_eq/=.
  all: try head_absurd.
  all: try (apply spaces_inj in Heq as [? ?]; [|done..]; simplify_eq/=).
  all: try head_absurd.
  all: try done.
  all: try (pose proof (args_at_det _ _ _ _ Hargs Hargs0); by simplify_eq).
Qed.

Lemma token_at_det l o1 o2 : token_at l o1 → token_at l o2 → o1 = o2.
Proof.
  destruct 1 as [name ws l o Hname Hws Hstop Hl Hp].
  inversion 1 as [name0 ws0 l0 o0 Hname0 Hws0 Hstop0 Hl0 Hp0 Heq].
  apply (app_stop_inj (re_match name_re)) in Heq as [-> Heq]; [|done..].
  apply spaces_inj in Heq as [-> ->]; [|done..].
  by rewrite (params_at_det _ _ _ _ Hp Hp0).
Qed.

Lemma marker_elem_of gap l : "$"%char ∈ gap ++ "$" ++ l.
Proof. apply elem_of_app. right. by left. Qed.

(** A text splits in one way only at its first marker. *)
Lemma marker_inj gap l gap' l' :
  "$"%char ∉ gap → "$"%char ∉ gap' →
  gap ++ "$" ++ l = gap' ++ "$" ++ l' → gap = gap' ∧ l = l'.
Proof.
  intros Hgap%marker_free Hgap'%marker_free Heq.
  apply (app_stop_inj (λ c, negb (re_match marker_re c))) in Heq as [-> [= ->]];
    [done|..]; try done; (eapply Forall_impl; [done|]); by intros c ->.
Qed.

Lemma scan_at_det off l o1 o2 : scan_at off l o1 → scan_at off l o2 → o1 = o2.
Proof.
  intros H1. revert o2.
  induction H1 as [off l Hl|off gap l e Hgap Htok
    |off gap l name args w l' o Hgap Htok Hscan IH]; intros o2 H2.
  - inversion H2; subst; [done|..]; destruct Hl; apply marker_elem_of.
  - inversion H2 as [? ? Hnone|? gap0 l0 e0 Hgap0 Htok0 Hoff Heq|? gap0 l0 name0 args0 w0 l0' o0 Hgap0 Htok0 Hscan0 Hoff Heq];
      subst; [destruct Hnone; apply marker_elem_of|..];
      apply marker_inj in Heq as [-> ->]; try done;
      pose proof (token_at_det _ _ _ Htok Htok0); by simplify_eq.
  - inversion H2 as [? ? Hnone|? gap0 l0 e0 Hgap0 Htok0 Hoff Heq|? gap0 l0 name0 args0 w0 l0' o0 Hgap0 Htok0 Hscan0 Hoff Heq];
      subst; [destruct Hnone; apply marker_elem_of|..];
      apply marker_inj in Heq as [-> ->]; try done;
      pose proof (token_at_det _ _ _ Htok Htok0); simplify_eq.
    by rewrite (IH _ Hscan0).
Qed.
End deterministic.
