(* ===== verification/Parser.v ===== *)
(** The grammar as functions of the text.

    [parse_args], [parse_params], [parse_token] and [parse_all] compute
    the outcome that the relations of [Grammar] give, on lists of
    characters, with no cursor and no fuel: the two loops recurse on the
    text that remains, which gets shorter ([Equations], by well-founded
    recursion on its length).  Each function satisfies its relation;
    with the relations single-valued, a relation holds of an outcome
    exactly when the function returns it.  Totality of the relations is
    a corollary. *)

From Stdlib Require Import Ascii String.
From stdpp Require Import list strings.
From Equations Require Import Equations.
From S2P Require Import Prelude Regex Cursor TokenScanner Grammar.

#[local] Open Scope js_scope.

(** ** Results and one-character lookahead *)

(** A value packed with the proof that it is the value inspected. *)
Definition inspect {A} (a : A) : {b | a = b} := exist _ a eq_refl.

(** The outcome of a result: an exception or a value. *)
Definition to_outcome {A} (r : error + A) : outcome error A :=
  match r with
  | inl e => Throw e
  | inr a => Return a
  end.

(** The text after the character [c], where the text starts with it. *)
Definition strip (c : ascii) (l : jsstring) : option jsstring :=
  match l with
  | c' :: l' => if decide (c' = c) then Some l' else None
  | [] => None
  end.

(** The characters before the first marker. *)
Definition not_marker (c : ascii) : bool := negb (re_match marker_re c).

Section lookahead.
Implicit Types (c : ascii) (l : jsstring).

Lemma strip_Some c l l' : strip c l = Some l' ↔ l = c :: l'.
Proof. destruct l as [|c' l0]; simpl; [done|]. case_decide; naive_solver. Qed.

Lemma strip_None c l : strip c l = None ↔ head l ≠ Some c.
Proof. destruct l as [|c' l0]; simpl; [done|]. case_decide; naive_solver. Qed.

Lemma to_outcome_fuel {A} (r : error + A) : to_outcome r ≠ OutOfFuel.
Proof. by destruct r. Qed.

Lemma not_marker_free l : Forall (λ c, not_marker c = true) l → "$"%char ∉ l.
Proof.
  intros Hl. apply marker_free. eapply Forall_impl; [done|].
  intros c. unfold not_marker. by destruct (re_match marker_re c).
Qed.

(** What remains after the characters before the first marker is empty
    or starts with the marker. *)
Lemma strip_marker l :
  match strip "$" (drop_while not_marker l) with
  | Some l1 => l = take_while not_marker l ++ "$" ++ l1
  | None => "$"%char ∉ l
  end.
Proof.
  pose proof (take_drop_while not_marker l) as Hl.
  pose proof (stops_drop_while not_marker l) as Hstop.
  pose proof (Forall_take_while not_marker l) as Hgap.
  destruct (drop_while not_marker l) as [|c l1]; simpl.
  - rewrite app_nil_r in Hl. rewrite <-Hl. by apply not_marker_free.
  - apply stops_cons, negb_false_iff, re_match_Lit in Hstop as ->.
    by rewrite decide_True.
Qed.
End lookahead.

(** ** The functions *)

(** The arguments at the start of [l], which does not start with white
    space: the loop of [scanArgs]. *)
Equations? parse_args (name l : jsstring) : error + parsed by wf (length l) lt :=
  parse_args name l with decide (take_while (re_match arg_re) l = []) := {
    | left _ := inl (MissingArgument name);
    | right _ with inspect (strip "," (drop_while (re_match arg_re) l)) := {
      | exist _ None _ :=
          inr ([take_while (re_match arg_re) l],
               take_while (re_match arg_re) l,
               drop_while (re_match arg_re) l);
      | exist _ (Some l1) Hl with parse_args name (drop_while is_space l1) := {
        | inl e := inl e;
        | inr v :=
            inr (parsed_cons (take_while (re_match arg_re) l)
                   (take_while (re_match arg_re) l ++ "," ++
                    take_while is_space l1) v) } } }.
Proof.
  apply strip_Some in Hl.
  pose proof (length_drop_while (re_match arg_re) l).
  pose proof (length_drop_while is_space l1).
  rewrite Hl in *. simpl in *. lia.
Qed.

(** The parameter list at the start of [l], if there is one. *)
Definition parse_params (name l : jsstring) : error + parsed :=
  match strip "(" l with
  | None => inr ([], [], l)
  | Some l1 =>
      let ws := take_while is_space l1 in
      let l2 := drop_while is_space l1 in
      match strip ")" l2 with
      | Some l3 => inr ([], "(" ++ ws ++ ")", l3)
      | None =>
          match parse_args name l2 with
          | inl e => inl e
          | inr (args, w, l3) =>
              match strip ")" l3 with
              | Some l4 => inr (parsed_wrap ws args w l4)
              | None => inl (Expected rparen_re)
              end
          end
      end
  end.

(** The placeholder whose marker [l] follows. *)
Definition parse_token (l : jsstring) : error + placeholder :=
  let name := take_while (re_match name_re) l in
  let l1 := drop_while (re_match name_re) l in
  match parse_params name (drop_while is_space l1) with
  | inl e => inl e
  | inr v => inr (placeholder_of name (take_while is_space l1) v)
  end.

(** ** The functions satisfy the relations *)

Section sound.
Implicit Types (l name : jsstring) (o : outcome error parsed).

(** The characters of arguments at the start of a text that does not
    start with white space are an argument, if there are any. *)
Lemma argument_take_while l :
  take_while (re_match arg_re) l ≠ [] → stops is_space l →
  argument (take_while (re_match arg_re) l).
Proof.
  intros Hne Hl. split; [done|]. split; [apply Forall_take_while|].
  rewrite <-(take_drop_while (re_match arg_re) l) in Hl.
  by apply stops_app_l in Hl.
Qed.

(** The rules of [args_at], at a text that is not yet decomposed. *)
Lemma args_at_last name l :
  take_while (re_match arg_re) l ≠ [] → stops is_space l →
  strip "," (drop_while (re_match arg_re) l) = None →
  args_at name l
    (Return ([take_while (re_match arg_re) l], take_while (re_match arg_re) l,
             drop_while (re_match arg_re) l)).
Proof.
  intros Hne Hl Hc%strip_None.
  pose proof (args_last name _ (drop_while (re_match arg_re) l)
    (argument_take_while l Hne Hl) (stops_drop_while _ _) Hc) as Hargs.
  by rewrite take_drop_while in Hargs.
Qed.

Lemma args_at_more name l (l1 : jsstring) o :
  take_while (re_match arg_re) l ≠ [] → stops is_space l →
  strip "," (drop_while (re_match arg_re) l) = Some l1 →
  args_at name (drop_while is_space l1) o →
  args_at name l
    (outcome_map (parsed_cons (take_while (re_match arg_re) l)
       (take_while (re_match arg_re) l ++ "," ++ take_while is_space l1)) o).
Proof.
  intros Hne Hl Hc%strip_Some Hargs.
  pose proof (args_more name _ (take_while is_space l1) _ o
    (argument_take_while l Hne Hl) (Forall_take_while _ _)
    (stops_drop_while _ _) Hargs) as Hmore.
  simpl in Hmore. by rewrite take_drop_while, <-Hc, take_drop_while in Hmore.
Qed.

Lemma parse_args_sound name l :
  stops is_space l → args_at name l (to_outcome (parse_args name l)).
Proof.
  funelim (parse_args name l); intros Hsp; simpl.
  - by apply args_missing.
  - by apply args_at_last.
  - apply (args_at_more name l l1 (Throw e)); [done..|].
    rewrite Heq in Hind. apply Hind, stops_drop_while.
  - apply (args_at_more name l l1 (Return v)); [done..|].
    rewrite Heq in Hind. apply Hind, stops_drop_while.
Qed.

Lemma parse_params_sound name l :
  params_at name l (to_outcome (parse_params name l)).
Proof.
  unfold parse_params.
  destruct (strip "(" l) as [l1|] eqn:Hopen;
    [apply strip_Some in Hopen as ->|by apply params_absent, strip_None].
  pose proof (Forall_take_while is_space l1) as Hws.
  pose proof (stops_drop_while is_space l1) as Hl2.
  rewrite <-(take_drop_while is_space l1) at 1.
  destruct (strip ")" (drop_while is_space l1)) as [l3|] eqn:Hclose.
  { apply strip_Some in Hclose as ->. by apply (params_empty name _ l3). }
  apply strip_None in Hclose. pose proof (parse_args_sound name _ Hl2) as Hargs.
  destruct (parse_args name _) as [e|[[args w] l3]]; simpl in *;
    [by apply (params_missing name _ _ e)|].
  destruct (args_at_rest _ _ _ _ _ Hargs) as [->|[l4 ->]]; simpl;
    [by eapply params_unclosed|].
  by apply (params_args name _ _ args w l4).
Qed.

Lemma parse_token_sound l : token_at l (to_outcome (parse_token l)).
Proof.
  unfold parse_token.
  set (name := take_while (re_match name_re) l).
  set (l1 := drop_while (re_match name_re) l).
  set (ws := take_while is_space l1). set (l2 := drop_while is_space l1).
  assert (ws ++ l2 = l1) as Hl1 by apply take_drop_while.
  assert (l = name ++ ws ++ l2) as Hl
    by (rewrite Hl1; symmetry; apply take_drop_while).
  assert (token_at l (outcome_map (placeholder_of name ws)
    (to_outcome (parse_params name l2)))) as Htok.
  { rewrite Hl at 1. apply token_intro;
      [apply Forall_take_while..| |apply stops_drop_while
      |apply parse_params_sound].
    rewrite Hl1. apply stops_drop_while. }
  by destruct (parse_params name l2).
Qed.

(** A placeholder that is read leaves less text than it was given. *)
Lemma parse_token_length l name args w l' :
  parse_token l = inr (name, args, w, l') → length l' ≤ length l.
Proof.
  intros Hp. pose proof (parse_token_sound l) as Htok. rewrite Hp in Htok.
  apply token_at_Return in Htok as ->. rewrite length_app. lia.
Qed.
End sound.

(** The tokens of [l], which starts at offset [off] of the text: the
    loop of [scanAll]. *)
Equations? parse_all (off : nat) (l : jsstring) : error + list Token
    by wf (length l) lt :=
  parse_all off l with inspect (strip "$" (drop_while not_marker l)) := {
    | exist _ None _ := inr [];
    | exist _ (Some l1) Hl with inspect (parse_token l1) := {
      | exist _ (inl e) _ := inl e;
      | exist _ (inr (name, args, w, l')) Htok
          with parse_all (off + length (take_while not_marker l) + 1 + length w) l' := {
        | inl e := inl e;
        | inr tks :=
            inr (token_of (off + length (take_while not_marker l))
                   (name, args, w, l') :: tks) } } }.
Proof.
  apply parse_token_length in Htok. pose proof (strip_marker l) as Hsplit.
  rewrite Hl in Hsplit. apply (f_equal length) in Hsplit.
  rewrite !length_app in Hsplit. simpl in Hsplit. lia.
Qed.

Section sound_all.
Implicit Types (l : jsstring).

(** The rules of [scan_at], at a text that is not yet decomposed. *)
Lemma scan_at_throw_at off l (l1 : jsstring) e :
  strip "$" (drop_while not_marker l) = Some l1 → token_at l1 (Throw e) →
  scan_at off l (Throw e).
Proof.
  intros Hl Htok. pose proof (strip_marker l) as Hsplit. rewrite Hl in Hsplit.
  pose proof (scan_throw off _ l1 e
    (not_marker_free _ (Forall_take_while not_marker l)) Htok) as Hscan.
  by rewrite <-Hsplit in Hscan.
Qed.

Lemma scan_at_token_at off l (l1 : jsstring) name args w l' o :
  strip "$" (drop_while not_marker l) = Some l1 →
  token_at l1 (Return (name, args, w, l')) →
  scan_at (off + length (take_while not_marker l) + 1 + length w) l' o →
  scan_at off l
    (outcome_map (cons (token_of (off + length (take_while not_marker l))
       (name, args, w, l'))) o).
Proof.
  intros Hl Htok Hrest. pose proof (strip_marker l) as Hsplit.
  rewrite Hl in Hsplit.
  pose proof (scan_token off _ l1 name args w l' o
    (not_marker_free _ (Forall_take_while not_marker l)) Htok Hrest) as Hscan.
  by rewrite <-Hsplit in Hscan.
Qed.

Lemma parse_all_sound off l : scan_at off l (to_outcome (parse_all off l)).
Proof.
  funelim (parse_all off l); simpl;
    try (pose proof (parse_token_sound l1) as Hsound).
  - apply scan_done. pose proof (strip_marker l) as Hsplit. by rewrite e in Hsplit.
  - rewrite e1 in Hsound. by eapply scan_at_throw_at.
  - rewrite Htok in Hsound. rewrite Heq in Hind.
    by apply (scan_at_token_at off l l1 name args w l' (Throw e)).
  - rewrite Htok in Hsound. rewrite Heq in Hind.
    by apply (scan_at_token_at off l l1 name args w l' (Return tks)).
Qed.
End sound_all.

(** ** The relations are total, and decided by the functions *)

Section decided.
Implicit Types (l name : jsstring).

Lemma args_at_total name l : stops is_space l → ∃ o, args_at name l o.
Proof. intros Hl. eexists. by apply parse_args_sound. Qed.

Lemma params_at_total name l : ∃ o, params_at name l o.
Proof. eexists. apply parse_params_sound. Qed.

Lemma token_at_total l : ∃ o, token_at l o.
Proof. eexists. apply parse_token_sound. Qed.

Lemma scan_at_total off l : ∃ o, scan_at off l o.
Proof. eexists. apply parse_all_sound. Qed.

Lemma args_at_parse name l o :
  stops is_space l → args_at name l o ↔ o = to_outcome (parse_args name l).
Proof.
  intros Hl. split; [|intros ->; by apply parse_args_sound].
  intros Hargs. eapply args_at_det; [done|by apply parse_args_sound].
Qed.

Lemma params_at_parse name l o :
  params_at name l o ↔ o = to_outcome (parse_params name l).
Proof.
  split; [|intros ->; by apply parse_params_sound].
  intros Hp. eapply params_at_det; [done|by apply parse_params_sound].
Qed.

Lemma token_at_parse l o : token_at l o ↔ o = to_outcome (parse_token l).
Proof.
  split; [|intros ->; by apply parse_token_sound].
  intros Htok. eapply token_at_det; [done|by apply parse_token_sound].
Qed.

Lemma scan_at_parse off l o : scan_at off l o ↔ o = to_outcome (parse_all off l).
Proof.
  split; [|intros ->; by apply parse_all_sound].
  intros Hscan. eapply scan_at_det; [done|by apply parse_all_sound].
Qed.

#[export] Instance scan_at_dec off l o : Decision (scan_at off l o).
Proof.
  refine (cast_if (decide (o = to_outcome (parse_all off l))));
    by rewrite scan_at_parse.
Defined.
End decided.

(** ** The functions on the inputs of the specification *)

Example parse_all_two_tokens :
  parse_all 0 "x $a(1) y $b(2) z" =
  inr [mkToken 2 7 "$a(1)" ["a"] ["1"]; mkToken 10 15 "$b(2)" ["b"] ["2"]].
Proof. reflexivity. Qed.

Example parse_all_missing_argument :
  parse_all 0 "$f(a,)" = inl (MissingArgument "f").
Proof. reflexivity. Qed.

Example parse_all_unclosed : parse_all 0 "a $f( x , y" = inl (Expected rparen_re).
Proof. reflexivity. Qed.
