(* ===== verification/Refinement.v ===== *)
(** token-scanner.js computes the relations of [Grammar].

    On the reference cursor, seen as a zipper, each function of the
    scanner started where the text that remains is [l] ends with the
    outcome the corresponding relation gives for [l], the cursor moved
    over the text the value accounts for.  The relations are total and
    give one outcome ([Parser], [Grammar]), so the outcome of [scanAll]
    is the one of [scan_at] and of the parser [parse_all], and the fuel
    of its loops never runs out. *)

From Stdlib Require Import Ascii String.
From stdpp Require Import list strings.
From S2P Require Import Prelude Regex Cursor TokenScanner Simulation Grammar Parser.

#[local] Open Scope js_scope.

(** Discharges the side conditions of the lemmas on the cursor. *)
Ltac scan_side :=
  first [ done | by apply stops_Lit | by apply stops_cons
        | by apply stops_arg_space | by apply marker_free
        | eauto with scan ].

(** Runs the operations of the cursor at the head of a computation that
    starts from a state [Ref.zip pre l] whose text [l] is decomposed. *)
Ltac scan_exec :=
  repeat first
  [ erewrite bind_lift by
      first [ apply ref_readWhile_app; scan_side
            | apply ref_accept_hit; scan_side
            | apply ref_accept_miss; scan_side
            | apply ref_seek_app; scan_side
            | apply ref_seek_none; scan_side
            | apply ref_read_zip ]
  | rewrite bind_exec, ref_skipSpace_app by scan_side
  | rewrite bind_exec, ref_skipSpace_stops by scan_side
  | erewrite bind_returns by (apply ref_expect_hit; scan_side)
  | erewrite bind_throws by (apply ref_expect_miss; scan_side)
  | rewrite bind_gets
  | progress simpl (negb _)
  | progress cbv beta iota ].

(** ** The value of a relation, as the state of the cursor *)

(** The arguments appended to [acc], and the cursor after [pre] and the
    text of the value. *)
Definition at_cursor (acc : list jsstring) (pre : jsstring) (v : parsed)
    : list jsstring * Ref.t :=
  let '(args, w, l) := v in (acc ++ args, Ref.zip (pre ++ w) l).

(** The token of a placeholder whose marker follows [pre], and the
    cursor after it. *)
Definition token_at_cursor (pre : jsstring) (v : placeholder)
    : option Token * Ref.t :=
  let '(_, _, w, l) := v in
  (Some (token_of (length pre) v), Ref.zip (pre ++ "$" ++ w) l).

Section on_ref.
Implicit Types (pre l w ws name a : jsstring) (acc : list jsstring).

Lemma at_cursor_cons acc pre a w o :
  outcome_map (at_cursor acc pre) (outcome_map (parsed_cons a w) o) =
  outcome_map (E := error) (at_cursor (acc ++ [a]) (pre ++ w)) o.
Proof.
  destruct o as [[[args w'] l]| |]; simpl; [|done..].
  by rewrite <-!(assoc_L (++)).
Qed.

(** ** [scanName] and [scanArg] *)

Lemma scanName_computes pre name ws l :
  name_chars name → spaces ws →
  stops (re_match name_re) (ws ++ l) → stops is_space l →
  scanName (Ref.zip pre (name ++ ws ++ l)) =
  Return (name, Ref.zip (pre ++ name ++ ws) l).
Proof.
  intros Hname Hws Hstop Hl. unfold scanName. scan_exec.
  by rewrite <-(assoc_L (++)).
Qed.

Lemma scanArg_computes name pre a l :
  argument a → stops (re_match arg_re) l →
  scanArg name (Ref.zip pre (a ++ l)) = Return (a, Ref.zip (pre ++ a) l).
Proof.
  intros (Ha & Hchars & _) Hl. unfold scanArg. scan_exec.
  rewrite decide_False by done. by scan_exec.
Qed.

Lemma scanArg_missing name pre l :
  stops (re_match arg_re) l →
  scanArg name (Ref.zip pre l) = Throw (MissingArgument name).
Proof.
  intros Hl. unfold scanArg. rewrite <-(app_nil_l l). by scan_exec.
Qed.

(** ** The loop of [scanArgs] *)

Lemma scanArgs_loop_computes name l o :
  args_at name l o → ∀ fuel acc pre, length l < fuel →
  scanArgs_loop fuel name acc (Ref.zip pre l) = outcome_map (at_cursor acc pre) o.
Proof.
  induction 1 as [l Hl|a l Ha Hl Hc|a ws l o Ha Hws Hl Hargs IH];
    intros [|fuel] acc pre Hfuel; try lia; simpl.
  - by rewrite (bind_throws _ _ _ _ (scanArg_missing _ _ _ Hl)).
  - rewrite (bind_returns _ _ _ _ _ (scanArg_computes _ _ _ _ Ha Hl)).
    by scan_exec.
  - erewrite bind_returns by (apply scanArg_computes; [done|by apply stops_cons]).
    scan_exec. rewrite IH, at_cursor_cons.
    + by rewrite <-!(assoc_L (++)).
    + rewrite !length_app in Hfuel. simpl in Hfuel. lia.
Qed.

(** The fuel that [scanFunc css] gives a loop is enough for any part
    of [css]. *)
Ltac solve_fuel :=
  unfold fuel_for in *; simpl in *; rewrite ?length_app in *; simpl in *;
  rewrite ?length_app in *; simpl in *; lia.

Section with_css.
Variable css : jsstring.

Lemma scanArgs_computes name l o pre :
  args_at name l o → length l ≤ length css →
  scanArgs css name (Ref.zip pre l) = outcome_map (at_cursor [] pre) o.
Proof.
  intros Hargs Hlen. apply scanArgs_loop_computes; [done|]. solve_fuel.
Qed.

(** ** [scanParams] *)

Lemma scanParams_computes name l o :
  params_at name l o → ∀ pre, length l ≤ length css →
  scanParams css name (Ref.zip pre l) = outcome_map (at_cursor [] pre) o.
Proof.
  destruct 1 as [l Hl|ws l Hws|ws l args w l' Hws Hl Hc Hargs
    |ws l args w Hws Hl Hc Hargs|ws l e Hws Hl Hc Hargs];
    intros pre Hlen; unfold scanParams; scan_exec;
    try (erewrite bind_outcome_map by (by apply scanArgs_computes; [|solve_fuel]));
    simpl; scan_exec; try done.
  - by rewrite app_nil_r.
  - do 3 f_equal. solve_app.
  - do 3 f_equal. solve_app.
Qed.

(** ** The closure *)

Lemma next_none pre l :
  "$"%char ∉ l → next css (Ref.zip pre l) = Return (None, Ref.zip pre l).
Proof. intros Hl. unfold next. by scan_exec. Qed.

Lemma next_computes pre gap l o :
  "$"%char ∉ gap → token_at l o → length l ≤ length css →
  next css (Ref.zip pre (gap ++ "$" ++ l)) =
  outcome_map (token_at_cursor (pre ++ gap)) o.
Proof.
  intros Hgap Htok Hlen. unfold next. scan_exec.
  destruct Htok as [name ws l o Hname Hws Hstop Hl Hparams].
  erewrite bind_returns by by apply scanName_computes.
  erewrite bind_outcome_map by (by apply scanParams_computes; [|solve_fuel]).
  destruct o as [[[args w] l']|e|]; simpl; [|done..].
  scan_exec. unfold ret, token_of. rewrite !ref_index_zip.
  replace ((((pre ++ gap) ++ "$") ++ name ++ ws) ++ w)
    with ((pre ++ gap) ++ "$" ++ name ++ ws ++ w) by solve_app.
  rewrite ref_slice_zip, (length_app (pre ++ gap)).
  simpl. do 4 f_equal. lia.
Qed.

(** ** The loop of [scanAll] *)

Lemma outcome_map_app_cons (acc : list Token) tk (o : outcome error (list Token)) :
  outcome_map (app acc) (outcome_map (cons tk) o) =
  outcome_map (app (acc ++ [tk])) o.
Proof. destruct o; simpl; [|done..]. by rewrite <-(assoc_L (++)). Qed.

Lemma scanAll_loop_computes off l o :
  scan_at off l o → ∀ fuel result pre,
  off = length pre → length l < fuel → length l ≤ length css →
  outcome_map fst (scanAll_loop fuel (next css) result (Ref.zip pre l)) =
  outcome_map (app result) o.
Proof.
  induction 1 as [off l Hl|off gap l e Hgap Htok
    |off gap l name args w l' o Hgap Htok Hscan IH];
    intros [|fuel] result pre -> Hfuel Hlen; try lia; simpl.
  - rewrite (bind_returns _ _ _ _ _ (next_none _ _ Hl)). simpl.
    by rewrite app_nil_r.
  - erewrite bind_outcome_map by (by apply next_computes; [| |solve_fuel]).
    done.
  - erewrite bind_outcome_map by (by apply next_computes; [| |solve_fuel]).
    simpl. pose proof (token_at_Return _ _ _ _ _ Htok) as ->.
    rewrite IH, outcome_map_app_cons, length_app; [done| |solve_fuel..].
    rewrite !length_app. simpl. lia.
Qed.

(** On the reference cursor [scanAll] has the outcome that [scan_at]
    gives for the whole text. *)
Lemma scanAll_computes o :
  scan_at 0 css o → scanAll (S := Ref.t) css = o.
Proof.
  intros Hscan. unfold scanAll, scanFunc. rewrite ref_newScanner_zip.
  rewrite (scanAll_loop_computes _ _ _ Hscan); [by destruct o|done|..];
    solve_fuel.
Qed.
End with_css.
End on_ref.

(** ** [scanAll] against its specification *)

Section scanAll_spec.
Context {S : Type} `{CursorLaws S}.
Implicit Types (css : jsstring) (o : outcome error (list Token)).

(** On any cursor that satisfies the laws of the interface,
    [scanAll css] has outcome [o] exactly when the grammar gives [o]
    for the text [css] read from offset 0. *)
Lemma scanAll_scan_at css o : scanAll (S := S) css = o ↔ scan_at 0 css o.
Proof.
  rewrite scanAll_on_ref. split; [|apply scanAll_computes].
  intros <-. destruct (scan_at_total 0 css) as [o Ho].
  by rewrite (scanAll_computes _ _ Ho).
Qed.

(** C1: on any cursor that satisfies the laws of the interface, the
    outcome of [scanAll css], a list of tokens or an exception, is the
    outcome that the grammar of placeholders gives for the text [css]
    read from offset 0, and the grammar gives no other. *)
Theorem scanAll_refines css :
  scan_at 0 css (scanAll (S := S) css) ∧
  ∀ o, scan_at 0 css o → o = scanAll (S := S) css.
Proof. split; [by apply scanAll_scan_at|]. by intros o <-%scanAll_scan_at. Qed.

(** C8: [scanAll] is the parser.  On any cursor that satisfies the laws
    of the interface, [scanAll css] returns the tokens, or throws the
    exception, that the function [parse_all], which recurses on the
    text and has no cursor and no fuel, computes for [css]. *)
Theorem scanAll_parse_all css :
  scanAll (S := S) css = to_outcome (parse_all 0 css).
Proof. apply scanAll_scan_at, parse_all_sound. Qed.

(** C2: the loops of [scanAll] and [scanArgs] never run out of the fuel
    [scanFunc] starts them with: [scanAll] returns or throws. *)
Theorem scanAll_terminates css : scanAll (S := S) css ≠ OutOfFuel.
Proof. intros Hfuel%scanAll_scan_at. by apply scan_at_fuel in Hfuel. Qed.
End scanAll_spec.
