(* ===== verification/Properties.v ===== *)
(** What the callers of the scanner rely on.

    The theorems of this file are stated of [scanAll] on any cursor that
    satisfies the laws of the interface.  They follow from the grammar
    ([scanAll_scan_at]) by induction on its derivations: where the
    tokens lie in the text and in which order, what a token is (a
    placeholder that scans to itself), which texts have a known outcome
    (derivations built by hand: a bare name, a rendered placeholder, an
    empty argument position, an unclosed list), and what an exception
    says of the text.  The last section is about [scanArg] on the
    reference cursor. *)

From Stdlib Require Import Ascii String.
From stdpp Require Import list strings sorting.
From S2P Require Import Prelude Regex Cursor TokenScanner Simulation.
From S2P Require Import Grammar Refinement.

#[local] Open Scope js_scope.

(** ** Where a token lies in the text *)

(** [tk] lies in [l], a text that starts at offset [off]: its [raw] is
    the part of [l] between its offsets, which are within [l]. *)
Definition lies_in (off : nat) (l : jsstring) (tk : Token) : Prop :=
  ∃ pre post, l = pre ++ raw tk ++ post ∧
    start tk = off + length pre ∧ end_ tk = start tk + length (raw tk).

Section located.
Implicit Types (l w gap : jsstring) (tk : Token) (tks : list Token).

(** A token that lies in the rest of a text lies in the text. *)
Lemma lies_in_app off w l tk :
  lies_in (off + length w) l tk → lies_in off (w ++ l) tk.
Proof.
  intros (pre & post & -> & Hs & He). exists (w ++ pre), post.
  rewrite length_app. split; [solve_app|lia].
Qed.

Lemma lies_in_slice off l tk :
  lies_in off l tk →
  raw tk = take (end_ tk - start tk) (drop (start tk - off) l) ∧
  off ≤ start tk ∧ end_ tk ≤ off + length l.
Proof.
  intros (pre & post & -> & -> & ->). rewrite !length_app.
  replace (off + length pre - off) with (length pre) by lia.
  replace (off + length pre + length (raw tk) - (off + length pre))
    with (length (raw tk)) by lia.
  by rewrite drop_app_length, take_app_length; split; [|lia].
Qed.

(** The token of a placeholder lies where the placeholder was read. *)
Lemma lies_in_token_of off gap name args w l' :
  lies_in off (gap ++ "$" ++ w ++ l')
    (token_of (off + length gap) (name, args, w, l')).
Proof. exists gap, l'. simpl. split; [done|]. split; [done|lia]. Qed.

(** Every token of a text lies in it, after the tokens before it. *)
Lemma scan_at_lies_in off l tks :
  scan_at off l (Return tks) → Forall (lies_in off l) tks.
Proof.
  intros H. scan_at_ind H; [constructor|].
  intros off gap name args w l' tks Hgap Htok _ IH.
  constructor; [apply lies_in_token_of|].
  eapply Forall_impl; [done|]. intros tk Htk.
  replace (gap ++ "$" ++ w ++ l') with ((gap ++ "$" ++ w) ++ l') by solve_app.
  apply lies_in_app. rewrite !length_app. simpl.
  by replace (off + (length gap + S (length w)))
    with (off + length gap + 1 + length w) by lia.
Qed.

(** Tokens come in the order of the text and do not overlap. *)
Lemma scan_at_sorted off l tks :
  scan_at off l (Return tks) →
  StronglySorted (λ tk1 tk2, end_ tk1 ≤ start tk2) tks.
Proof.
  intros H. scan_at_ind H; [constructor|].
  intros off gap name args w l' tks Hgap Htok Hscan IH. constructor; [done|].
  eapply Forall_impl; [by apply scan_at_lies_in|].
  intros tk (pre & post & _ & -> & _). simpl. lia.
Qed.

(** A marker of the text is inside one of its tokens. *)
Lemma scan_at_covers off l tks i :
  scan_at off l (Return tks) → l !! i = Some "$"%char →
  Exists (λ tk, start tk ≤ off + i < end_ tk) tks.
Proof.
  intros H. revert i. scan_at_ind H.
  { intros off l Hl i Hi. by apply list_elem_of_lookup_2 in Hi. }
  intros off gap name args w l' tks Hgap Htok _ IH i Hi.
  destruct (decide (i < length gap)) as [Hlt|Hge].
  { rewrite lookup_app_l in Hi by done. by apply list_elem_of_lookup_2 in Hi. }
  destruct (decide (i < length gap + 1 + length w)) as [Hin|Hout].
  { apply Exists_cons_hd. simpl. lia. }
  apply Exists_cons_tl.
  replace (off + i) with
    (off + length gap + 1 + length w + (i - (length gap + 1 + length w))) by lia.
  apply IH. rewrite <-Hi.
  replace (gap ++ "$" ++ w ++ l') with ((gap ++ "$" ++ w) ++ l') by solve_app.
  rewrite lookup_app_r; rewrite length_app; simpl; [|lia].
  f_equal. lia.
Qed.
End located.

(** ** What a token is *)

(** [tk] is a placeholder: its [raw] text is a marker followed by a text
    that, scanned alone, is read to its end as a placeholder with the
    name that [path] splits and the arguments [args]. *)
Definition is_placeholder (tk : Token) : Prop :=
  ∃ name w, raw tk = "$" ++ w ∧ path tk = split_on "."%char name ∧
    token_at w (Return (name, args tk, w, [])).

Section placeholders.
Implicit Types (l w gap : jsstring) (tk : Token) (tks : list Token).

Lemma scan_at_placeholders off l tks :
  scan_at off l (Return tks) → Forall is_placeholder tks.
Proof.
  intros H. scan_at_ind H; [constructor|].
  intros off gap name args w l' tks Hgap Htok _ IH. constructor; [|done].
  exists name, w. simpl. eauto using token_at_alone.
Qed.

(** A placeholder alone in a text is its only token. *)
Lemma is_placeholder_scan_at tk :
  is_placeholder tk →
  scan_at 0 (raw tk)
    (Return [mkToken 0 (length (raw tk)) (raw tk) (path tk) (args tk)]).
Proof.
  intros (name & w & -> & -> & Htok).
  pose proof (scan_token 0 [] w name (args tk) w [] (Return [])) as Hscan.
  simpl in Hscan. apply Hscan; [apply not_elem_of_nil|done|].
  apply scan_done, not_elem_of_nil.
Qed.
End placeholders.

(** ** The tokens that [scanAll] returns *)

Section scanAll_returns.
Context {S : Type} `{CursorLaws S}.
Implicit Types (css : jsstring) (tk : Token) (tks : list Token).

(** C3: every token that [scanAll] returns lies in the text: its offsets
    are in range and not empty, the character at [start] is the marker,
    and [raw] is the slice of the text between [start] and [end_]. *)
Theorem scanAll_offsets css tks :
  scanAll (S := S) css = Return tks →
  Forall (λ tk, start tk < end_ tk ≤ length css ∧
                css !! start tk = Some "$"%char ∧
                raw tk = take (end_ tk - start tk) (drop (start tk) css)) tks.
Proof.
  intros Hscan%scanAll_scan_at.
  pose proof (scan_at_lies_in _ _ _ Hscan) as Hin.
  pose proof (scan_at_placeholders _ _ _ Hscan) as Hph.
  eapply Forall_impl; [exact (List.Forall_and Hin Hph)|]. clear.
  intros tk [Hin (name & w & Hraw & _)].
  pose proof (lies_in_slice _ _ _ Hin) as (Hslice & _ & Hend).
  destruct Hin as (pre & post & -> & Hs & He). simpl in *.
  rewrite Nat.sub_0_r in Hslice. rewrite Hs, He, Hraw in *. simpl in *.
  repeat split; [lia|lia| |done].
  by rewrite lookup_app_r, Nat.sub_diag by lia.
Qed.

(** C4: the tokens come in the order of the text and do not overlap:
    each token ends before any later token starts. *)
Theorem scanAll_sorted css tks :
  scanAll (S := S) css = Return tks →
  StronglySorted (λ tk1 tk2, end_ tk1 ≤ start tk2) tks.
Proof. intros Hscan%scanAll_scan_at. by eapply scan_at_sorted. Qed.

(** C5: round trip.  Scanning the [raw] text of a returned token alone
    returns that one token again, with the same [raw], [path] and
    [args], at offsets 0 and the length of [raw]. *)
Theorem scanAll_roundtrip css tks tk :
  scanAll (S := S) css = Return tks → tk ∈ tks →
  scanAll (S := S) (raw tk) =
  Return [mkToken 0 (length (raw tk)) (raw tk) (path tk) (args tk)].
Proof.
  intros Hscan%scanAll_scan_at Htk. apply scanAll_scan_at.
  apply is_placeholder_scan_at.
  by eapply Forall_forall; [eapply scan_at_placeholders|].
Qed.

(** C20: every marker of the text is inside a token: at or after its
    [start] and before its [end_].  No placeholder is skipped. *)
Theorem scanAll_covers css tks i :
  scanAll (S := S) css = Return tks → css !! i = Some "$"%char →
  Exists (λ tk, start tk ≤ i < end_ tk) tks.
Proof.
  intros Hscan%scanAll_scan_at Hi. by apply (scan_at_covers 0 css tks i).
Qed.

(** C21: [scanAll] returns the empty list exactly on the texts without a
    marker. *)
Theorem scanAll_no_marker css :
  scanAll (S := S) css = Return [] ↔ "$"%char ∉ css.
Proof.
  rewrite scanAll_scan_at. split; [|apply scan_done].
  intros Hscan Hin. apply list_elem_of_lookup in Hin as [i Hi].
  by apply (scan_at_covers 0 css [] i), Exists_nil in Hscan.
Qed.

(** C23: the [path] of a returned token is not empty, its segments are
    made of the characters of names and hold no dot, and joined by dots
    after the marker they start the [raw] text. *)
Theorem scanAll_path css tks :
  scanAll (S := S) css = Return tks →
  Forall (λ tk, path tk ≠ [] ∧
                Forall (λ seg, name_chars seg ∧ "."%char ∉ seg) (path tk) ∧
                ("$" ++ join "."%char (path tk)) `prefix_of` raw tk) tks.
Proof.
  intros Hscan%scanAll_scan_at.
  eapply Forall_impl; [by eapply scan_at_placeholders|]. clear.
  intros tk (name & w & -> & -> & Htok).
  rewrite join_split_on. split; [apply split_on_nonempty|].
  pose proof (token_at_shape _ _ _ _ _ Htok) as [Hname _]. split.
  - apply Forall_and. split; [|apply Forall_split_on].
    apply (Forall_join _ "."%char). by rewrite join_split_on.
  - by apply prefix_cons, (token_at_name _ _ _ _ _ Htok).
Qed.

(** C24: the [args] of a returned token are arguments: not empty, free of
    commas and closing parentheses, and not starting with white space. *)
Theorem scanAll_args css tks :
  scanAll (S := S) css = Return tks →
  Forall (λ tk, Forall argument (args tk)) tks.
Proof.
  intros Hscan%scanAll_scan_at.
  eapply Forall_impl; [by eapply scan_at_placeholders|]. clear.
  intros tk (name & w & _ & _ & Htok). by apply token_at_shape in Htok as [_ ?].
Qed.

End scanAll_returns.

Lemma scanAll_offsets_witness :
  Forall (λ tk, start tk < end_ tk ≤ 17 ∧
                ("x $a(1) y $b(2) z" : jsstring) !! start tk = Some "$"%char ∧
                raw tk = take (end_ tk - start tk)
                           (drop (start tk) "x $a(1) y $b(2) z"))
    [mkToken 2 7 "$a(1)" ["a"] ["1"]; mkToken 10 15 "$b(2)" ["b"] ["2"]].
Proof. apply (scanAll_offsets (S := Ref.t) "x $a(1) y $b(2) z"). reflexivity. Defined.

Lemma scanAll_sorted_witness :
  StronglySorted (λ tk1 tk2, end_ tk1 ≤ start tk2)
    [mkToken 2 7 "$a(1)" ["a"] ["1"]; mkToken 10 15 "$b(2)" ["b"] ["2"]].
Proof. apply (scanAll_sorted (S := Ref.t) "x $a(1) y $b(2) z"). reflexivity. Defined.

Lemma scanAll_roundtrip_witness :
  scanAll (S := Ref.t) "$b.c( 2 , x)" =
  Return [mkToken 0 12 "$b.c( 2 , x)" ["b"; "c"] ["2 "; "x"]].
Proof.
  apply (scanAll_roundtrip (S := Ref.t) "x $a(1) y $b.c( 2 , x) z"
    [mkToken 2 7 "$a(1)" ["a"] ["1"];
     mkToken 10 22 "$b.c( 2 , x)" ["b"; "c"] ["2 "; "x"]]
    (mkToken 10 22 "$b.c( 2 , x)" ["b"; "c"] ["2 "; "x"])).
  - reflexivity.
  - apply list_elem_of_lookup. by exists 1.
Defined.

Lemma scanAll_covers_witness :
  Exists (λ tk, start tk ≤ 10 < end_ tk)
    [mkToken 2 7 "$a(1)" ["a"] ["1"]; mkToken 10 15 "$b(2)" ["b"] ["2"]].
Proof. apply (scanAll_covers (S := Ref.t) "x $a(1) y $b(2) z"); reflexivity. Defined.

Lemma scanAll_path_witness :
  Forall (λ tk, path tk ≠ [] ∧
                Forall (λ seg, name_chars seg ∧ "."%char ∉ seg) (path tk) ∧
                ("$" ++ join "."%char (path tk)) `prefix_of` raw tk)
    [mkToken 0 9 "$a.b.c(1)" ["a"; "b"; "c"] ["1"]].
Proof. apply (scanAll_path (S := Ref.t) "$a.b.c(1)"). reflexivity. Defined.

Lemma scanAll_args_witness :
  Forall (λ tk, Forall argument (args tk))
    [mkToken 0 10 "$f(a, b,c)" ["f"] ["a"; "b"; "c"]].
Proof. apply (scanAll_args (S := Ref.t) "$f(a, b,c)"). reflexivity. Defined.

(** ** Texts whose outcome is known *)

(** The arguments [args], each followed by a comma. *)
Definition commas (args : list jsstring) : jsstring :=
  concat (map (λ a, a ++ ",") args).

(** The text of the placeholder [name] applied to [args]. *)
Definition render (name : jsstring) (args : list jsstring) : jsstring :=
  "$" ++ name ++ "(" ++ join ","%char args ++ ")".

Section derivations.
Implicit Types (l w name a : jsstring) (args : list jsstring).

Lemma argument_stops a l : argument a → stops is_space (a ++ l).
Proof. intros (? & _ & ?). by apply stops_app_r. Qed.

(** An argument does not start with a comma or a closing parenthesis. *)
Lemma argument_head a l c :
  argument a → re_match arg_re c = false → head (a ++ l) ≠ Some c.
Proof.
  destruct a as [|x a]; [by intros []|]. intros (_ & Ha & _) Hc [= ->].
  inversion Ha; congruence.
Qed.

(** The rule [args_more] at a value, with the text consumed given apart. *)
Lemma args_at_cons name a ws l args w l' w' :
  argument a → spaces ws → stops is_space l →
  args_at name l (Return (args, w, l')) → w' = a ++ "," ++ ws ++ w →
  args_at name (a ++ "," ++ ws ++ l) (Return (a :: args, w', l')).
Proof.
  intros Ha Hws Hl Hargs ->.
  pose proof (args_more name a ws l _ Ha Hws Hl Hargs) as H. simpl in H.
  by rewrite <-!(assoc_L (++)) in H.
Qed.

Lemma stops_join args l :
  Forall argument args → args ≠ [] → stops is_space (join ","%char args ++ l).
Proof.
  intros Hall Hne. destruct Hall as [|a args Ha Hall]; [done|].
  destruct args; [|rewrite join_cons, <-(assoc_L (++)) by done];
    by apply argument_stops.
Qed.

Lemma args_at_join name args l :
  Forall argument args → args ≠ [] →
  stops (re_match arg_re) l → head l ≠ Some ","%char →
  args_at name (join ","%char args ++ l) (Return (args, join ","%char args, l)).
Proof.
  intros Hall Hne Hl Hc. induction Hall as [|a args Ha Hall IH]; [done|].
  destruct args as [|a' args]; [by apply args_last|].
  rewrite join_cons, <-(assoc_L (++)) by done.
  apply (args_at_cons name a [] _ _ (join ","%char (a' :: args)));
    [done|by apply Forall_nil_2|by apply stops_join|by apply IH|done].
Qed.

Lemma commas_cons a args : commas (a :: args) = a ++ "," ++ commas args.
Proof. unfold commas. simpl. by rewrite <-(assoc_L (++)). Qed.

Lemma stops_commas args l :
  Forall argument args → stops (re_match arg_re) l →
  stops is_space (commas args ++ l).
Proof.
  intros [|a args' Ha _] Hl; [by apply stops_arg_space|].
  rewrite commas_cons, <-(assoc_L (++)). by apply argument_stops.
Qed.

Lemma args_at_commas name args l :
  Forall argument args → stops (re_match arg_re) l →
  args_at name (commas args ++ l) (Throw (MissingArgument name)).
Proof.
  intros Hall Hl. induction Hall as [|a args Ha Hall IH];
    [by apply args_missing|].
  rewrite commas_cons, <-!(assoc_L (++)).
  apply (args_more name a [] _ (Throw (MissingArgument name)));
    [done|by apply Forall_nil_2|by apply stops_commas|done].
Qed.
Lemma head_join args l c :
  Forall argument args → args ≠ [] → re_match arg_re c = false →
  head (join ","%char args ++ l) ≠ Some c.
Proof.
  intros Hall Hne Hc. destruct Hall as [|a args Ha Hall]; [done|].
  destruct args; [|rewrite join_cons, <-(assoc_L (++)) by done];
    by apply argument_head.
Qed.

Lemma params_at_commas name ws args l :
  spaces ws → Forall argument args → stops (re_match arg_re) l →
  (args = [] → head l ≠ Some ")"%char) →
  params_at name ("(" ++ ws ++ commas args ++ l) (Throw (MissingArgument name)).
Proof.
  intros Hws Hall Hl Hc.
  apply params_missing; [done|by apply stops_commas| |by apply args_at_commas].
  destruct Hall as [|a args Ha _]; [by apply Hc|].
  rewrite commas_cons, <-(assoc_L (++)). by apply argument_head.
Qed.

Lemma params_at_join name ws args :
  spaces ws → Forall argument args → args ≠ [] →
  params_at name ("(" ++ ws ++ join ","%char args) (Throw (Expected rparen_re)).
Proof.
  intros Hws Hall Hne.
  pose proof (args_at_join name args [] Hall Hne eq_refl) as Hargs.
  pose proof (stops_join args [] Hall Hne) as Hsp.
  pose proof (head_join args [] ")"%char Hall Hne eq_refl) as Hc.
  rewrite app_nil_r in *. eapply params_unclosed; eauto.
Qed.

Lemma params_at_render name args :
  Forall argument args →
  params_at name ("(" ++ join ","%char args ++ ")")
    (Return (args, "(" ++ join ","%char args ++ ")", [])).
Proof.
  intros Hall. destruct (decide (args = [])) as [->|Hne].
  { apply (params_empty name [] []), Forall_nil_2. }
  apply (params_args name [] _ args (join ","%char args) []);
    [by apply Forall_nil_2|by apply stops_join|by apply head_join|].
  by apply args_at_join.
Qed.

(** A parameter list that follows the name and white space. *)
Lemma token_at_params name ws l o :
  name_chars name → spaces ws → params_at name ("(" ++ l) o →
  token_at (name ++ ws ++ "(" ++ l) (outcome_map (placeholder_of name ws) o).
Proof.
  intros Hname Hws Hp. apply token_intro; [done..| |done|done].
  destruct Hws as [|c ws Hc _]; apply stops_cons; [done|by apply space_not_name].
Qed.

(** A name and white space at the end of the text. *)
Lemma token_at_bare name ws :
  name_chars name → spaces ws →
  token_at (name ++ ws) (Return (name, [], name ++ ws, [])).
Proof.
  intros Hname Hws.
  pose proof (token_intro name ws [] (Return ([], [], [])) Hname Hws) as Htok.
  simpl in Htok. rewrite !app_nil_r in Htok.
  apply Htok; [|done|by apply params_absent].
  destruct Hws as [|c ws Hc _]; [done|]. by apply stops_cons, space_not_name.
Qed.

(** The text of one placeholder has one token. *)
Lemma scan_at_single w name args :
  token_at w (Return (name, args, w, [])) →
  scan_at 0 ("$" ++ w)
    (Return [mkToken 0 (S (length w)) ("$" ++ w) (split_on "."%char name) args]).
Proof.
  intros Htok.
  apply (is_placeholder_scan_at
    (mkToken 0 0 ("$" ++ w) (split_on "."%char name) args)).
  by exists name, w.
Qed.
End derivations.

Section scanAll_known.
Context {S : Type} `{CursorLaws S}.
Implicit Types (css pre name ws l : jsstring) (args : list jsstring).

(** C22: a marker followed by a name, and possibly white space, up to the
    end of the text is one token without arguments; its [path] is the
    name split at the dots and its [raw] text includes the white
    space. *)
Theorem scanAll_bare name ws :
  name_chars name → spaces ws →
  scanAll (S := S) ("$" ++ name ++ ws) =
  Return [mkToken 0 (length ("$" ++ name ++ ws)) ("$" ++ name ++ ws)
            (split_on "."%char name) []].
Proof.
  intros Hname Hws. by apply scanAll_scan_at, scan_at_single, token_at_bare.
Qed.

(** C16: scanning the text of a placeholder, [$name(a1,...,an)], returns
    one token that spans the text, with the name split at the dots as
    [path] and the arguments as [args]. *)
Theorem scanAll_render name args :
  name_chars name → Forall argument args →
  scanAll (S := S) (render name args) =
  Return [mkToken 0 (length (render name args)) (render name args)
            (split_on "."%char name) args].
Proof.
  intros Hname Hall. apply scanAll_scan_at, scan_at_single.
  apply (token_at_params name [] _ (Return (args, _, [])));
    [done|by apply Forall_nil_2|by apply params_at_render].
Qed.

(** C17: an argument position that holds no character raises the missing
    argument of the placeholder's name: after the opening parenthesis
    (also at the end of the text) or after a comma, where a comma, a
    closing parenthesis or the end of the text follows. *)
Theorem scanAll_missing_argument pre name ws ws' args l :
  "$"%char ∉ pre → name_chars name → spaces ws → spaces ws' →
  Forall argument args → stops (re_match arg_re) l →
  (args = [] → head l ≠ Some ")"%char) →
  scanAll (S := S) (pre ++ "$" ++ name ++ ws ++ "(" ++ ws' ++ commas args ++ l) =
  Throw (MissingArgument name).
Proof.
  intros Hpre Hname Hws Hws' Hall Hl Hc. apply scanAll_scan_at, scan_throw; [done|].
  by apply (token_at_params name ws _ (Throw _)), params_at_commas.
Qed.

(** C18: a parameter list that the end of the text cuts after an argument
    raises the expected closing parenthesis. *)
Theorem scanAll_unclosed pre name ws ws' args :
  "$"%char ∉ pre → name_chars name → spaces ws → spaces ws' →
  Forall argument args → args ≠ [] →
  scanAll (S := S) (pre ++ "$" ++ name ++ ws ++ "(" ++ ws' ++ join ","%char args) =
  Throw (Expected rparen_re).
Proof.
  intros Hpre Hname Hws Hws' Hall Hne. apply scanAll_scan_at, scan_throw; [done|].
  by apply (token_at_params name ws _ (Throw _)), params_at_join.
Qed.

(** C6: the exceptions of [scanAll].  An exception comes from a
    placeholder with an opened parameter list that holds no closing
    parenthesis up to the point of failure: the expected closing
    parenthesis is raised at the end of the text, after at least one
    character of the list; the missing argument names the placeholder
    and is raised before a comma, a closing parenthesis or the end of
    the text. *)
Theorem scanAll_throws css e :
  scanAll (S := S) css = Throw e →
  ∃ pre name ws w l,
    css = pre ++ "$" ++ name ++ ws ++ "(" ++ w ++ l ∧
    name_chars name ∧ spaces ws ∧ (")"%char ∉ w) ∧
    ((e = Expected rparen_re ∧ w ≠ [] ∧ l = []) ∨
     (e = MissingArgument name ∧ stops (re_match arg_re) l)).
Proof.
  intros (pre & l1 & -> & Htok)%scanAll_scan_at%scan_at_Throw.
  apply token_at_Throw in Htok as (name & ws & l2 & -> & Hname & Hws & Hp).
  apply params_at_Throw in Hp as (w & l & -> & Hw & He).
  by exists pre, name, ws, w, l.
Qed.
End scanAll_known.

Lemma scanAll_bare_witness :
  scanAll (S := Ref.t) "$a.b  " = Return [mkToken 0 6 "$a.b  " ["a"; "b"] []].
Proof. apply (scanAll_bare (S := Ref.t) "a.b" "  "); compute_done. Defined.

Lemma scanAll_render_witness :
  scanAll (S := Ref.t) "$f.g(a,b c ,1)" =
  Return [mkToken 0 14 "$f.g(a,b c ,1)" ["f"; "g"] ["a"; "b c "; "1"]].
Proof.
  apply (scanAll_render (S := Ref.t) "f.g" ["a"; "b c "; "1"]); compute_done.
Defined.

Lemma scanAll_missing_argument_witness :
  scanAll (S := Ref.t) "x $f ( a,b,)" = Throw (MissingArgument "f") ∧
  scanAll (S := Ref.t) "$f(" = Throw (MissingArgument "f").
Proof.
  split.
  - apply (scanAll_missing_argument (S := Ref.t) "x " "f" " " " " ["a"; "b"] ")");
      compute_done.
  - apply (scanAll_missing_argument (S := Ref.t) "" "f" "" "" [] ""); compute_done.
Defined.

Lemma scanAll_unclosed_witness :
  scanAll (S := Ref.t) "x $f ( a,b" = Throw (Expected rparen_re).
Proof.
  apply (scanAll_unclosed (S := Ref.t) "x " "f" " " " " ["a"; "b"]); compute_done.
Defined.

Lemma scanAll_throws_witness :
  ∃ pre name ws w l,
    ("x $f(a, b" : jsstring) = pre ++ "$" ++ name ++ ws ++ "(" ++ w ++ l ∧
    name_chars name ∧ spaces ws ∧ (")"%char ∉ w) ∧
    ((Expected rparen_re = Expected rparen_re ∧ w ≠ [] ∧ l = []) ∨
     (Expected rparen_re = MissingArgument name ∧ stops (re_match arg_re) l)).
Proof. apply (scanAll_throws (S := Ref.t) "x $f(a, b"). reflexivity. Defined.

(** ** White space after an argument *)

(** C30: in [scanArg], the call of [skipSpace] after the argument never
    moves the cursor: the characters of an argument include white
    space, so the argument is read with the white space that follows
    it, and [scanArg] returns what [readWhile] returned and leaves the
    cursor where [readWhile] left it. *)
Theorem scanArg_skips_nothing name (r : Ref.t) arg r' :
  scanArg name r = Return (arg, r') → readWhile arg_re r = (arg, r').
Proof.
  unfold scanArg. intros (w & r1 & Hread & Hk)%bind_Return.
  unfold lift in Hread.
  pose proof (ref_skipSpace_readWhile arg_re r space_is_arg) as Hskip.
  destruct (readWhile arg_re r) as [w' r1']. simplify_eq/=.
  destruct (decide _); [done|]. rewrite bind_exec, Hskip in Hk.
  by injection Hk as -> ->.
Qed.

Lemma scanArg_skips_nothing_witness :
  readWhile arg_re (Ref.mk "$f(a  ,b)" 3) = ("a  "%js, Ref.mk "$f(a  ,b)" 6).
Proof. by apply (scanArg_skips_nothing "f"). Defined.
