(* ===== verification/Anatomy.v ===== *)
(** The anatomy of a token.

    The [raw] text of a token says what the token is.  It is the marker,
    a name and white space, and then nothing, or a parameter list: an
    opening parenthesis, a body without a closing parenthesis, and the
    closing parenthesis.  The [path] is the name cut at the dots, and the
    [args] are the body cut at the commas, each piece without the white
    space it starts with; a body of white space gives no argument.  In
    JavaScript: [body.trim() === '' ? [] : body.split(',').map(s =>
    s.trimStart())].  White space at the end of a piece stays. *)

From Stdlib Require Import Ascii String.
From stdpp Require Import list strings.
From S2P Require Import Prelude Regex Cursor TokenScanner Simulation Grammar Refinement Properties.

#[local] Open Scope js_scope.

(** The arguments that the body of a parameter list holds. *)
Definition args_of (body : jsstring) : list jsstring :=
  if decide (spaces body) then []
  else drop_while is_space <$> split_on ","%char body.

(** [tk] is read off its [raw] text. *)
Definition well_read (tk : Token) : Prop :=
  ∃ name ws, name_chars name ∧ spaces ws ∧
    path tk = split_on "."%char name ∧
    ((raw tk = "$" ++ name ++ ws ∧ args tk = []) ∨
     (∃ body, raw tk = "$" ++ name ++ ws ++ "(" ++ body ++ ")" ∧
        ")"%char ∉ body ∧ args tk = args_of body)).

Section anatomy.
Implicit Types (l w ws body name a : jsstring) (args : list jsstring).

Lemma arg_chars_no_comma a : arg_chars a → ","%char ∉ a.
Proof.
  intros Ha Hin. eapply Forall_forall in Ha; [|done]. by apply arg_re_spec in Ha as [? _].
Qed.

Lemma spaces_no_comma ws : spaces ws → ","%char ∉ ws.
Proof. intros Hws Hin. eapply Forall_forall in Hws; [|done]. done. Qed.

(** White space before a text goes with its first piece, and is
    dropped with the white space the piece starts with. *)
Lemma trim_split_app ws l :
  spaces ws →
  drop_while is_space <$> split_on ","%char (ws ++ l) =
  drop_while is_space <$> split_on ","%char l.
Proof.
  intros Hws. rewrite split_on_app_l by by apply spaces_no_comma.
  pose proof (split_on_nonempty ","%char l).
  destruct (split_on ","%char l) as [|seg segs]; [done|]. simpl.
  by rewrite drop_while_app_all.
Qed.

(** The arguments are the pieces of the text they were read from. *)
Lemma args_at_split name l args w l' :
  args_at name l (Return (args, w, l')) →
  drop_while is_space <$> split_on ","%char w = args.
Proof.
  intros H. args_at_ind H.
  - intros a l (_ & Ha & Hsp) _ _.
    rewrite split_on_no_sep by by apply arg_chars_no_comma.
    simpl. by rewrite drop_while_stops.
  - intros a ws l args w l' (_ & Ha & Hsp) Hws _ _ IH.
    rewrite <-!(assoc_L (++)). simpl.
    rewrite split_on_app_sep by by apply arg_chars_no_comma.
    simpl. by rewrite drop_while_stops, trim_split_app, IH.
Qed.

Lemma args_of_spaces ws : spaces ws → args_of ws = [].
Proof. intros. unfold args_of. by rewrite decide_True. Qed.

(** The body of a parameter list with arguments: white space and the
    text the arguments were read from. *)
Lemma args_of_args_at name ws l args w l' :
  spaces ws → args_at name l (Return (args, w, l')) → args_of (ws ++ w) = args.
Proof.
  intros Hws Hargs. pose proof (args_at_arguments _ _ _ _ _ Hargs) as (_ & _ & Hw & Hsp).
  unfold args_of. rewrite decide_False.
  - rewrite trim_split_app by done. by eapply args_at_split.
  - intros [_ Hall]%Forall_app. destruct w as [|c w]; [done|].
    apply stops_cons in Hsp. apply Forall_cons in Hall as [Hc _]. congruence.
Qed.

Lemma params_at_anatomy name l args w l' :
  params_at name l (Return (args, w, l')) →
  (w = [] ∧ args = []) ∨
  (∃ body, w = "(" ++ body ++ ")" ∧ ")"%char ∉ body ∧ args = args_of body).
Proof.
  inversion 1 as [| |ws l0 args0 w0 l0' Hws Hl0 Hc Hargs| |]; subst.
  - by left.
  - right. exists ws. by rewrite args_of_spaces; eauto using spaces_no_rparen.
  - right. unfold parsed_wrap in *. simplify_eq. exists (ws ++ w0).
    rewrite <-(assoc_L (++)). split; [done|].
    rewrite (args_of_args_at _ _ _ _ _ _ Hws Hargs). split; [|done].
    rewrite not_elem_of_app. eauto using spaces_no_rparen, args_at_no_rparen.
Qed.

Lemma is_placeholder_well_read tk : is_placeholder tk → well_read tk.
Proof.
  intros (name & w & Hraw & Hpath & Htok).
  inversion Htok as [name0 ws l0 o Hname Hws _ _ Hp Hl0 Ho]; subst.
  destruct o as [[[args0 w0] l0']| |]; simplify_eq/=.
  exists name, ws. do 3 (split; [done|]). rewrite Hraw.
  destruct (params_at_anatomy _ _ _ _ _ Hp) as [[-> ?]|(body & -> & ? & ?)].
  - left. by rewrite app_nil_r.
  - right. by exists body.
Qed.
End anatomy.

Section scanAll_anatomy.
Context {S : Type} `{CursorLaws S}.

(** C10: every token that [scanAll] returns is read off its [raw] text:
    [raw] is the marker, a name and white space, alone or followed by a
    parameter list whose body holds no closing parenthesis; [path] is
    the name cut at the dots; [args] is empty without a parameter list
    or with a body of white space, and otherwise the body cut at the
    commas, each piece without the white space it starts with. *)
Theorem scanAll_anatomy (css : jsstring) tks :
  scanAll (S := S) css = Return tks → Forall well_read tks.
Proof.
  intros Hscan%scanAll_scan_at.
  eapply Forall_impl; [by eapply scan_at_placeholders|].
  apply is_placeholder_well_read.
Qed.
End scanAll_anatomy.

Lemma scanAll_anatomy_witness :
  Forall well_read
    [mkToken 2 15 "$f ( a , b c)" ["f"] ["a "; "b c"];
     mkToken 16 22 "$g.h  " ["g"; "h"] []].
Proof. by apply (scanAll_anatomy (S := Ref.t) "x $f ( a , b c) $g.h  "). Defined.

(** The pieces keep the white space they end with. *)
Example args_of_trailing_space : args_of " a , b c" = ["a "; "b c"].
Proof. reflexivity. Qed.
