(* ===== verification/Producer.v ===== *)
(** The producer: the closure of [scanFunc], called again and again.

    [yields css s trace s'] is the step relation of the producer: the
    values that successive calls of the closure return from the state
    [s] of the cursor, and the state they leave.  The file relates the
    loop of [scanAll] to it (the loop drains the producer, and fails
    where the producer fails), shows that an exhausted producer stays
    exhausted, and that the cursor of a producer only moves forward and
    stays within the text. *)

From Stdlib Require Import Ascii String.
From stdpp Require Import list strings.
From S2P Require Import Prelude Regex Cursor TokenScanner Simulation Grammar Parser Refinement.

#[local] Open Scope js_scope.

(** ** Calls of the closure *)

Section yields.
Context {S : Type} `{Cursor S}.
Variable css : jsstring.
Implicit Types (s : S) (tk : option Token) (trace : list (option Token)).
Implicit Types (toks result : list Token).

(** Successive calls from the state [s] return the values [trace], in
    this order, and leave the cursor in the state [s']. *)
Inductive yields : S → list (option Token) → S → Prop :=
| yields_nil s : yields s [] s
| yields_cons s tk s1 trace s2 :
    next css s = Return (tk, s1) → yields s1 trace s2 →
    yields s (tk :: trace) s2.

(** The states a producer for [css] can be in. *)
Definition reachable (s : S) : Prop := ∃ trace, yields (newScanner css) trace s.

Lemma yields_one s tk s' : next css s = Return (tk, s') → yields s [tk] s'.
Proof. intros Hnext. eapply yields_cons; [done|constructor]. Qed.

Lemma yields_app s trace1 s1 trace2 s2 :
  yields s trace1 s1 → yields s1 trace2 s2 → yields s (trace1 ++ trace2) s2.
Proof. induction 1; simpl; eauto using yields. Qed.

Lemma yields_app_inv s trace1 trace2 s2 :
  yields s (trace1 ++ trace2) s2 →
  ∃ s1, yields s trace1 s1 ∧ yields s1 trace2 s2.
Proof.
  revert s. induction trace1 as [|tk trace1 IH]; simpl; intros s Hy.
  - exists s. split; [constructor|done].
  - inversion Hy as [|? ? s1 ? ? Hnext Hy']; subst.
    destruct (IH _ Hy') as (s1' & ? & ?). eauto using yields.
Qed.

Lemma reachable_yields s trace s' : reachable s → yields s trace s' → reachable s'.
Proof. intros [trace0 Hy0] Hy. exists (trace0 ++ trace). by eapply yields_app. Qed.

(** The closure is a function of the state: of two runs from the same
    state one continues the other. *)
Lemma yields_det s trace1 s1 trace2 s2 :
  yields s trace1 s1 → yields s trace2 s2 → length trace1 ≤ length trace2 →
  ∃ trace, trace2 = trace1 ++ trace ∧ yields s1 trace s2.
Proof.
  intros Hy1. revert trace2. induction Hy1 as [s|s tk s1 trace1 s1' Hnext _ IH];
    intros trace2 Hy2 Hlen; [by exists trace2|].
  inversion Hy2 as [|? tk' s1'' trace2' ? Hnext' Hy2']; simplify_eq/=; [lia|].
  rewrite Hnext in Hnext'. simplify_eq.
  destruct (IH _ Hy2') as (trace & -> & Hy); [lia|]. by exists trace.
Qed.

(** A run cannot go on from a state in which the closure throws. *)
Lemma yields_throws s e trace s' :
  next css s = Throw e → yields s trace s' → trace = [].
Proof. intros Hnext. inversion 1; [done|congruence]. Qed.

(** ** The loop of [scanAll] drains the producer *)

Lemma scanAll_loop_Return fuel result s tks s' :
  scanAll_loop fuel (next css) result s = Return (tks, s') →
  ∃ toks, tks = result ++ toks ∧ yields s ((Some <$> toks) ++ [None]) s'.
Proof.
  revert result s. induction fuel as [|fuel IH]; simpl; intros result s; [done|].
  intros ([tk|] & s1 & Hnext & Hk)%bind_Return.
  - apply IH in Hk as (toks & -> & Hy). exists (tk :: toks).
    split; [solve_app|]. by eapply yields_cons.
  - unfold ret in Hk. simplify_eq. exists []. rewrite app_nil_r.
    split; [done|]. by apply yields_one.
Qed.

Lemma scanAll_loop_Throw fuel result s e :
  scanAll_loop fuel (next css) result s = Throw e →
  ∃ toks s1, yields s (Some <$> toks) s1 ∧ next css s1 = Throw e.
Proof.
  revert result s. induction fuel as [|fuel IH]; simpl; intros result s; [done|].
  intros [Hnext|([tk|] & s1 & Hnext & Hk)]%bind_Throw.
  - exists [], s. split; [constructor|done].
  - apply IH in Hk as (toks & s2 & Hy & Hthrow). exists (tk :: toks), s2.
    split; [by eapply yields_cons|done].
  - done.
Qed.
End yields.

(** Identifies the results of two calls of the closure from one state. *)
Ltac next_eq :=
  repeat match goal with
  | H1 : next ?css ?s = _, H2 : next ?css ?s = _ |- _ =>
      rewrite H1 in H2; simplify_eq
  end.

(** Inverts the runs of the hypotheses whose trace starts with a value. *)
Ltac yields_inv :=
  repeat match goal with
  | H : yields _ _ (_ :: _) _ |- _ => inversion H; clear H; subst
  | H : yields _ _ [] _ |- _ => inversion H; clear H; subst
  end; next_eq.

Section sentinel.
Context {S : Type} `{Cursor S}.
Variable css : jsstring.
Implicit Types (s : S) (a b : list Token).

(** The tokens before the sentinel are determined by the state. *)
Lemma yields_sentinel s a s1 b s2 :
  yields css s ((Some <$> a) ++ [None]) s1 →
  yields css s ((Some <$> b) ++ [None]) s2 → a = b.
Proof.
  revert s b. induction a as [|tk a IH]; intros s [|tk' b] Hy1 Hy2;
    simpl in *; yields_inv; [done|]. f_equal. eauto.
Qed.

(** A producer that throws does not reach the sentinel. *)
Lemma yields_sentinel_throw s a s1 b s2 e :
  yields css s ((Some <$> a) ++ [None]) s1 →
  yields css s (Some <$> b) s2 → next css s2 = Throw e → False.
Proof.
  revert s b. induction a as [|tk a IH]; intros s [|tk' b] Hy1 Hy2 He;
    simpl in *; yields_inv; eauto.
Qed.

(** The closure returns the sentinel only where [seek] finds no
    marker. *)
Lemma next_None s s' :
  next css s = Return (None, s') → seek marker_re s = (false, s').
Proof.
  unfold next. intros ([] & s1 & Hseek & Hk)%bind_Return; simpl in Hk.
  - scan_inv.
  - unfold ret in Hk. unfold lift in Hseek.
    destruct (seek marker_re s). by simplify_eq.
Qed.

(** Where and with what a producer throws is determined by the state. *)
Lemma yields_throw_det s a s1 e b s2 e' :
  yields css s (Some <$> a) s1 → next css s1 = Throw e →
  yields css s (Some <$> b) s2 → next css s2 = Throw e' → e' = e.
Proof.
  revert s b. induction a as [|tk a IH]; intros s [|tk' b] Hy1 He Hy2 He';
    simpl in *; yields_inv; eauto.
Qed.

Lemma scanAll_Return_yields tks :
  scanAll (S := S) css = Return tks →
  ∃ s, yields css (newScanner css) ((Some <$> tks) ++ [None]) s.
Proof.
  unfold scanAll, scanFunc.
  destruct (scanAll_loop _ _ _ _) as [[tks' s]| |] eqn:Hloop; intros [=<-].
  apply scanAll_loop_Return in Hloop as (toks & -> & Hy). by exists s.
Qed.

Lemma scanAll_Throw_yields e :
  scanAll (S := S) css = Throw e →
  ∃ toks s, yields css (newScanner css) (Some <$> toks) s ∧
    next css s = Throw e.
Proof.
  unfold scanAll, scanFunc.
  destruct (scanAll_loop _ _ _ _) as [[tks' s']| |] eqn:Hloop; intros [=<-].
  by apply scanAll_loop_Throw in Hloop.
Qed.
End sentinel.

(** ** Producers on a cursor that satisfies the laws *)

Section lawful.
Context {S : Type} `{CursorLaws S}.
Variable css : jsstring.
Implicit Types (s : S) (r : Ref.t) (tks : list Token).

(** A run is a run of the reference cursor, through related states. *)
Lemma yields_sim s trace s' r :
  yields css s trace s' → sim s r →
  ∃ r', yields css r trace r' ∧ sim s' r'.
Proof.
  intros Hy. revert r. induction Hy as [s|s tk s1 trace s2 Hnext _ IH];
    intros r Hs; [exists r; split; [constructor|done]|].
  pose proof (next_rel css s r Hs) as Hrel. rewrite Hnext in Hrel.
  destruct (next css r) as [[tk' r1]| |] eqn:Hr; try done.
  destruct Hrel as [<- Hs1]. destruct (IH _ Hs1) as (r' & ? & ?).
  exists r'. split; [by eapply yields_cons|done].
Qed.

(** A producer that reaches the sentinel gives [scanAll] its tokens. *)
Lemma yields_scanAll_Return tks s :
  yields css (newScanner css) ((Some <$> tks) ++ [None]) s →
  scanAll (S := S) css = Return tks.
Proof.
  intros Hy. destruct (scanAll (S := S) css) as [tks'|e|] eqn:Hscan.
  - apply scanAll_Return_yields in Hscan as [s' Hy']. f_equal.
    by eapply yields_sentinel.
  - apply scanAll_Throw_yields in Hscan as (toks & s1 & Hy1 & He).
    by destruct (yields_sentinel_throw _ _ _ _ _ _ _ Hy Hy1 He).
  - by apply scanAll_scan_at, scan_at_fuel in Hscan.
Qed.

(** A producer that throws gives [scanAll] its exception. *)
Lemma yields_scanAll_Throw toks s e :
  yields css (newScanner css) (Some <$> toks) s → next css s = Throw e →
  scanAll (S := S) css = Throw e.
Proof.
  intros Hy He. destruct (scanAll (S := S) css) as [tks'|e'|] eqn:Hscan.
  - apply scanAll_Return_yields in Hscan as [s' Hy'].
    by destruct (yields_sentinel_throw _ _ _ _ _ _ _ Hy' Hy He).
  - apply scanAll_Throw_yields in Hscan as (toks' & s1 & Hy1 & He').
    f_equal. eapply yields_throw_det; [exact Hy|exact He|exact Hy1|exact He'].
  - by apply scanAll_scan_at, scan_at_fuel in Hscan.
Qed.

(** C7: [scanAll] drains the producer.  It returns [tks] exactly when the
    calls of the closure of [scanFunc css] yield the tokens [tks], in
    this order, and then the sentinel. *)
Theorem scanAll_drains tks :
  scanAll (S := S) css = Return tks ↔
  ∃ s, yields css (newScanner css) ((Some <$> tks) ++ [None]) s.
Proof.
  split; [apply scanAll_Return_yields|]. intros [s Hy].
  by eapply yields_scanAll_Return.
Qed.

(** C25: [scanAll] fails where the producer fails.  It throws [e] exactly
    when the closure, after yielding some tokens, throws [e]. *)
Theorem scanAll_fails_fast e :
  scanAll (S := S) css = Throw e ↔
  ∃ toks s, yields css (newScanner css) (Some <$> toks) s ∧
    next css s = Throw e.
Proof.
  split; [apply scanAll_Throw_yields|]. intros (toks & s & Hy & He).
  by eapply yields_scanAll_Throw.
Qed.
End lawful.

(** ** Exhaustion *)

Section exhaustion.
Context {S : Type} `{CursorLaws S}.
Variable css : jsstring.
Implicit Types (s : S) (r : Ref.t).

(** The state of a producer that has returned the sentinel: it is
    related to a state of the reference cursor in which the closure
    returns the sentinel and stays. *)
Definition drained (s : S) : Prop :=
  ∃ r, sim s r ∧ next css r = Return (None, r).

Lemma drained_intro s r s' :
  sim s r → next css s = Return (None, s') → drained s'.
Proof.
  intros Hs Hnext. pose proof (next_rel css s r Hs) as Hrel.
  rewrite Hnext in Hrel.
  destruct (next css r) as [[tk r1]| |] eqn:Hr; try done.
  destruct Hrel as [<- Hs1]. pose proof (next_None _ _ _ Hr) as Hseek.
  apply ref_seek_false in Hseek as ->. by exists r.
Qed.

Lemma drained_next s :
  drained s → ∃ s', next css s = Return (None, s') ∧ drained s'.
Proof.
  intros (r & Hs & Hr). pose proof (next_rel css s r Hs) as Hrel.
  rewrite Hr in Hrel.
  destruct (next css s) as [[tk s']| |] eqn:Hnext; try done.
  destruct Hrel as [-> Hs']. exists s'. split; [done|]. by exists r.
Qed.

Lemma drained_yields s n :
  drained s → ∃ s', yields css s (replicate n None) s'.
Proof.
  revert s. induction n as [|n IH]; intros s Hs; [exists s; constructor|].
  destruct (drained_next s Hs) as (s1 & Hnext & Hs1).
  destruct (IH s1 Hs1) as [s' Hy]. exists s'. by eapply yields_cons.
Qed.

Lemma reachable_sim s : reachable css s → ∃ r, sim s r.
Proof.
  intros [trace Hy].
  destruct (yields_sim css _ _ _ _ Hy (sim_newScanner css)) as (r & _ & Hs).
  by exists r.
Qed.

(** C12: idempotence of exhaustion.  Once the closure has returned the
    sentinel, every further call returns the sentinel: from the state
    after it, any number of calls yield the sentinel only, and no run
    yields anything else. *)
Theorem next_exhausted trace s :
  yields css (newScanner css) (trace ++ [None]) s →
  (∀ n, ∃ s', yields css s (replicate n None) s') ∧
  (∀ trace' s', yields css s trace' s' → Forall (eq None) trace').
Proof.
  intros (s1 & Hy1 & Hy2)%yields_app_inv. yields_inv.
  destruct (reachable_sim s1) as [r1 Hs1]; [by exists trace|].
  assert (drained s) as Hs by by eapply drained_intro.
  split; [intros n; by apply drained_yields|]. intros trace' s' Hy'.
  destruct (drained_yields s (length trace') Hs) as [s'' Hy''].
  destruct (yields_det css _ _ _ _ _ Hy'' Hy') as (rest & Heq & _);
    [by rewrite length_replicate|].
  rewrite Heq. apply (f_equal length) in Heq.
  rewrite length_app, length_replicate in Heq.
  destruct rest; [|simpl in Heq; lia]. rewrite app_nil_r.
  by apply Forall_replicate.
Qed.
End exhaustion.

(** ** The cursor of a producer only moves forward *)

(** [m], run on the reference cursor, leaves it ahead of where it
    was. *)
Definition advances {A} (m : Scan error Ref.t A) : Prop :=
  ∀ r a r', Ref.wf r → m r = Return (a, r') → ahead r r'.

Section advances.
Variable css : jsstring.
Implicit Types (r : Ref.t) (name : jsstring).

Lemma advances_ret {A} (a : A) : advances (ret a).
Proof. intros r a' r' Hr [= <- <-]. by apply ahead_refl. Qed.

Lemma advances_throw {A} e : advances (A := A) (throw e).
Proof. by intros r a r' Hr. Qed.

Lemma advances_bind {A B} (m : Scan error Ref.t A) (k : A → Scan error Ref.t B) :
  advances m → (∀ a, advances (k a)) → advances (bind m k).
Proof.
  intros Hm Hk r b r' Hr (a & r1 & Hm1 & Hk1)%bind_Return.
  specialize (Hm _ _ _ Hr Hm1). etrans; [done|].
  eapply Hk; [|done]. by eapply ahead_wf.
Qed.

Lemma advances_lift {A} (f : Ref.t → A * Ref.t) :
  (∀ r, Ref.wf r → ahead r (f r).2) → advances (lift f).
Proof.
  intros Hf r a r' Hr. unfold lift. specialize (Hf r Hr).
  destruct (f r). by intros [= <- <-].
Qed.

Lemma advances_exec (f : Ref.t → Ref.t) :
  (∀ r, Ref.wf r → ahead r (f r)) → advances (exec f).
Proof. intros Hf r a r' Hr [= <- <-]. by apply Hf. Qed.

Lemma advances_gets {A} (g : Ref.t → A) : advances (gets g).
Proof. intros r a r' Hr [= <- <-]. by apply ahead_refl. Qed.

Lemma advances_expect re : advances (expect re).
Proof. intros r a r' Hr. by apply ahead_expect. Qed.
End advances.

(** Shows that a computation built from the operations of the cursor
    advances, one bind at a time. *)
Ltac advances_step :=
  first
  [ apply advances_bind; [|intros ?]
  | apply advances_ret | apply advances_throw | apply advances_gets
  | apply advances_expect
  | apply advances_lift; intros ? ?;
      first [ by apply ahead_readWhile | by apply ahead_accept
            | by apply ahead_seek | by apply ahead_read ]
  | apply advances_exec; intros ? ?; by apply ahead_skipSpace
  | match goal with |- advances (if ?c then _ else _) => destruct c end ].

Section scanner_advances.
Variable css : jsstring.
Implicit Types (r : Ref.t) (name : jsstring).

Lemma scanName_advances : advances scanName.
Proof. unfold scanName. repeat advances_step. Qed.

Lemma scanArg_advances name : advances (scanArg name).
Proof. unfold scanArg. repeat advances_step. Qed.

Lemma scanArgs_loop_advances fuel name args :
  advances (scanArgs_loop fuel name args).
Proof.
  revert args. induction fuel as [|fuel IH]; intros args; simpl;
    [by intros r a r' Hr|].
  apply advances_bind; [apply scanArg_advances|]. intros arg.
  repeat advances_step. apply IH.
Qed.

Lemma scanParams_advances name : advances (scanParams css name).
Proof.
  unfold scanParams, scanArgs.
  repeat first [apply scanArgs_loop_advances | advances_step].
Qed.

Lemma next_advances : advances (next css).
Proof.
  unfold next.
  repeat first [apply scanName_advances | apply scanParams_advances
               | advances_step].
Qed.

(** A run leaves the reference cursor ahead. *)
Lemma yields_ahead r trace r' :
  Ref.wf r → yields css r trace r' → ahead r r'.
Proof.
  intros Hr Hy. induction Hy as [r|r tk r1 trace r2 Hnext _ IH];
    [by apply ahead_refl|].
  pose proof (next_advances _ _ _ Hr Hnext) as Hr1.
  etrans; [done|]. by eapply IH, ahead_wf.
Qed.
End scanner_advances.

(** ** Where the closure leaves the cursor *)

Section on_ref.
Variable css : jsstring.
Implicit Types (r : Ref.t) (tk : Token).

(** On the reference cursor, a token starts at or after the offset at
    which the closure was called, is not empty, and ends where the
    closure leaves the cursor. *)
Lemma next_Some_ref r tk r' :
  Ref.wf r → next css r = Return (Some tk, r') →
  Ref.idx r ≤ start tk < end_ tk ∧ end_ tk = Ref.idx r'.
Proof.
  intros Hr. unfold next.
  intros ([] & r1 & Hseek & Hk)%bind_Return; simpl in Hk; [|by scan_inv].
  unfold lift in Hseek. pose proof (ahead_seek marker_re r Hr) as Hr1.
  pose proof (ref_seek_found marker_re r) as Hrest.
  destruct (seek marker_re r) as [b r1']; simplify_eq/=.
  specialize (Hrest _ eq_refl). rewrite bind_gets in Hk.
  apply bind_Return in Hk as (c & r2 & Hread & Hk). unfold lift in Hread.
  assert (Ref.idx r2 = Datatypes.S (Ref.idx r1) ∧ ahead r1 r2) as [Hidx Hr2].
  { pose proof (ahead_read r1 (ahead_wf _ _ Hr1)) as Ha. revert Hread Ha.
    unfold read. simpl. unfold Ref.read.
    destruct (Ref.rest r1); [done|]. intros [= <- <-] ?. simpl.
    split; [lia|done]. }
  apply bind_Return in Hk as (name & r3 & Hname & Hk).
  apply bind_Return in Hk as (args & r4 & Hparams & Hk).
  apply scanName_advances in Hname; [|by eapply ahead_wf].
  apply (scanParams_advances css) in Hparams; [|by eapply ahead_wf].
  rewrite !bind_gets in Hk. unfold ret in Hk. simplify_eq/=.
  destruct Hr1 as (_ & ? & _), Hname as (_ & ? & _), Hparams as (_ & ? & _).
  unfold index. simpl. unfold Ref.index. lia.
Qed.
End on_ref.

Section moves.
Context {S : Type} `{CursorLaws S}.
Variable css : jsstring.
Implicit Types (s : S) (r : Ref.t).

(** A reachable state is related to a state of the reference cursor
    that holds the text [css] and an offset within it. *)
Lemma reachable_ahead s :
  reachable css s → ∃ r, sim s r ∧ ahead (Ref.newScanner css) r.
Proof.
  intros [trace Hy].
  destruct (yields_sim css _ _ _ _ Hy (sim_newScanner css)) as (r & Hyr & Hs).
  exists r. split; [done|]. eapply yields_ahead; [|done].
  unfold Ref.wf. simpl. lia.
Qed.

(** C27: the cursor of a producer never rewinds and never passes the end
    of the text: a call of the closure from a state the producer can be
    in leaves the offset where it was or further, within the text. *)
Theorem next_moves_forward s tk s' :
  reachable css s → next css s = Return (tk, s') →
  index s ≤ index s' ≤ length css.
Proof.
  intros (r & Hs & Hr)%reachable_ahead Hnext.
  pose proof (next_rel css s r Hs) as Hrel. rewrite Hnext in Hrel.
  destruct (next css r) as [[tk' r']| |] eqn:Hr'; try done.
  destruct Hrel as [<- Hs']. apply next_advances in Hr'; [|by eapply ahead_wf].
  rewrite (sim_index s r), (sim_index s' r') by done.
  destruct Hr as (Ht & _ & _), Hr' as (_ & ? & ?). rewrite Ht in *.
  unfold Ref.index. simpl in *. lia.
Qed.

(** C29: a token that the closure yields starts at or after the offset at
    which the closure was called, is not empty, and ends at the offset
    at which the closure leaves the cursor: no token is yielded
    twice. *)
Theorem next_token_span s tk s' :
  reachable css s → next css s = Return (Some tk, s') →
  index s ≤ start tk < end_ tk ∧ end_ tk = index s'.
Proof.
  intros (r & Hs & Hr)%reachable_ahead Hnext.
  pose proof (next_rel css s r Hs) as Hrel. rewrite Hnext in Hrel.
  destruct (next css r) as [[tk' r']| |] eqn:Hr'; try done.
  destruct Hrel as [<- Hs']. apply next_Some_ref in Hr'; [|by eapply ahead_wf].
  by rewrite (sim_index s r), (sim_index s' r').
Qed.
End moves.

(** ** The closure returns or throws *)

Section progress.
Context {S : Type} `{CursorLaws S}.
Variable css : jsstring.
Implicit Types (s : S) (r : Ref.t).

(** On the reference cursor, within the text [css], the closure does
    not run out of the fuel of the loop of [scanArgs]. *)
Lemma next_ref_fuel r :
  ahead (Ref.newScanner css) r → next css r ≠ OutOfFuel.
Proof.
  intros Hr. pose proof (ahead_wf _ _ Hr) as Hwf. destruct Hr as (Ht & _).
  simpl in Ht. rewrite (ref_zip_wf r Hwf).
  assert (length (Ref.rest r) ≤ length css) as Hlen.
  { rewrite ref_length_rest, Ht. lia. }
  destruct (decide ("$"%char ∈ Ref.rest r)) as [Hin|Hout];
    [|by rewrite next_none].
  apply list_elem_of_split_l in Hin as (gap & l & Hl & Hgap).
  rewrite Hl in *. destruct (token_at_total l) as [o Ho].
  rewrite (next_computes css _ gap l o Hgap Ho).
  - destruct o; [done..|]. by apply token_at_fuel in Ho.
  - revert Hlen. rewrite !length_app. simpl. lia.
Qed.

(** C19: a call of the closure from a state the producer can be in
    returns or throws: the loop of [scanArgs] ends within the fuel that
    [scanFunc] gives it. *)
Theorem next_terminates s : reachable css s → next css s ≠ OutOfFuel.
Proof.
  intros (r & Hs & Hr)%reachable_ahead Hnext.
  pose proof (next_rel css s r Hs) as Hrel. rewrite Hnext in Hrel.
  destruct (next css r) as [[tk r']| |] eqn:Hr'; try done.
  by apply next_ref_fuel in Hr'.
Qed.
End progress.

(** ** The theorems at a text *)

Lemma next_exhausted_witness :
  (∀ n, ∃ s', yields "a $b c" (Ref.mk "a $b c" 5) (replicate n None) s') ∧
  (∀ trace' s', yields "a $b c" (Ref.mk "a $b c" 5) trace' s' →
     Forall (eq None) trace').
Proof.
  apply (next_exhausted (S := Ref.t) "a $b c" [Some (mkToken 2 5 "$b " ["b"] [])]).
  simpl. eapply yields_cons; [reflexivity|]. by apply yields_one.
Defined.

Lemma next_moves_forward_witness :
  index (newScanner (S := Ref.t) "a $b c") ≤ index (Ref.mk "a $b c" 5)
    ≤ length ("a $b c" : jsstring).
Proof.
  apply (next_moves_forward (S := Ref.t) "a $b c" _
    (Some (mkToken 2 5 "$b " ["b"] []))); [|reflexivity].
  exists []. constructor.
Defined.

Lemma next_token_span_witness :
  index (newScanner (S := Ref.t) "a $b c") ≤ 2 < 5 ∧
  5 = index (Ref.mk "a $b c" 5).
Proof.
  apply (next_token_span (S := Ref.t) "a $b c" _
    (mkToken 2 5 "$b " ["b"] [])); [|reflexivity].
  exists []. constructor.
Defined.

Lemma next_terminates_witness :
  next "a $b(c" (newScanner (S := Ref.t) "a $b(c") ≠ OutOfFuel.
Proof. apply (next_terminates (S := Ref.t) "a $b(c"). exists []. constructor. Defined.
