(* ===== verification/Liveness.v ===== *)
(** The producer comes to an end.

    From any state a producer can be in, finitely many calls of the
    closure, at most one for each character that remains, yield tokens
    and lead to a state in which the closure returns the sentinel or
    throws: a loop that calls the closure until then, as [scanAll]
    does, ends.  The run is read off the derivation of the grammar for
    the text that remains, on the reference cursor, and carried to any
    cursor that satisfies the laws by the simulation, taken backwards. *)

From Stdlib Require Import Ascii String.
From stdpp Require Import list strings.
From S2P Require Import Prelude Regex Cursor TokenScanner Simulation Grammar Parser.
From S2P Require Import Refinement Producer.

#[local] Open Scope js_scope.

(** ** Runs of the reference cursor along a derivation *)

(** How the closure ends a run whose text has the outcome [o]: with the
    sentinel, leaving the cursor in place, or with the exception. *)
Definition ends_with {S A} (o : outcome error A) (s : S)
    : outcome error (option Token * S) :=
  outcome_map (λ _, (None, s)) o.

Section on_ref.
Variable css : jsstring.
Implicit Types (pre l : jsstring) (r : Ref.t) (toks : list Token).

Lemma scan_at_yields off l o :
  scan_at off l o → ∀ pre, off = length pre → length l ≤ length css →
  ∃ toks r, yields css (Ref.zip pre l) (Some <$> toks) r ∧
    length toks ≤ length l ∧ next css r = ends_with o r.
Proof.
  induction 1 as [off l Hl|off gap l e Hgap Htok
    |off gap l name args w l' o Hgap Htok Hscan IH]; intros pre -> Hlen.
  - exists [], (Ref.zip pre l).
    split; [constructor|]. split; [simpl; lia|]. by apply next_none.
  - exists [], (Ref.zip pre (gap ++ "$" ++ l)).
    split; [constructor|]. split; [simpl; lia|].
    rewrite (next_computes css pre gap l (Throw e) Hgap Htok); [done|].
    rewrite !length_app in Hlen. simpl in Hlen. lia.
  - pose proof (token_at_Return _ _ _ _ _ Htok) as ->.
    rewrite !length_app in Hlen. simpl in Hlen. rewrite ?length_app in Hlen.
    destruct (IH ((pre ++ gap) ++ "$" ++ w)) as (toks & r & Hy & Hn & Hend);
      [rewrite !length_app; simpl; lia|lia|].
    exists (token_of (length (pre ++ gap)) (name, args, w, l') :: toks), r.
    split; [|split; [rewrite !length_app; simpl; rewrite ?length_app; lia
                    |by destruct o]].
    eapply yields_cons; [|done].
    rewrite (next_computes css pre gap (w ++ l') _ Hgap Htok); [done|].
    rewrite length_app. lia.
Qed.
End on_ref.

(** ** On a cursor that satisfies the laws *)

Section eventually.
Context {S : Type} `{CursorLaws S}.
Variable css : jsstring.
Implicit Types (s : S) (r : Ref.t) (toks : list Token).

(** A run of the reference cursor is a run of the cursor, through
    related states. *)
Lemma sim_yields s r trace r' :
  yields css r trace r' → sim s r → ∃ s', yields css s trace s' ∧ sim s' r'.
Proof.
  intros Hy. revert s. induction Hy as [r|r tk r1 trace r2 Hnext _ IH];
    intros s Hs; [exists s; split; [constructor|done]|].
  pose proof (next_rel css s r Hs) as Hrel. rewrite Hnext in Hrel.
  destruct (next css s) as [[tk' s1]| |] eqn:Hs1; try done.
  destruct Hrel as [-> Hsim]. destruct (IH _ Hsim) as (s' & ? & ?).
  exists s'. split; [by eapply yields_cons|done].
Qed.

(** C11: liveness.  From any state the producer for [css] can be in,
    finitely many calls of the closure, at most as many as characters
    remain, yield tokens and reach a state in which the closure returns
    the sentinel or throws. *)
Theorem next_eventually_ends s :
  reachable css s →
  ∃ toks s1, yields css s (Some <$> toks) s1 ∧
    length toks ≤ length css - index s ∧
    ((∃ s2, next css s1 = Return (None, s2)) ∨ (∃ e, next css s1 = Throw e)).
Proof.
  intros (r & Hs & Hr)%reachable_ahead.
  pose proof (ahead_wf _ _ Hr) as Hwf. destruct Hr as (Ht & _). simpl in Ht.
  destruct (scan_at_total (Ref.idx r) (Ref.rest r)) as [o Ho].
  destruct (scan_at_yields css _ _ _ Ho (take (Ref.idx r) (Ref.text r)))
    as (toks & r1 & Hy & Hn & Hend).
  { rewrite length_take. unfold Ref.wf in Hwf. lia. }
  { rewrite ref_length_rest, Ht. lia. }
  rewrite <-(ref_zip_wf r Hwf) in Hy.
  destruct (sim_yields s r _ r1 Hy Hs) as (s1 & Hys & Hs1).
  exists toks, s1. split; [done|]. split.
  { rewrite (sim_index s r Hs). revert Hn. rewrite ref_length_rest, Ht.
    unfold Ref.index. lia. }
  pose proof (next_rel css s1 r1 Hs1) as Hrel. rewrite Hend in Hrel.
  destruct o as [tks|e|]; simpl in Hrel; [| |by apply scan_at_fuel in Ho];
    destruct (next css s1) as [[tk s2]| |]; try done.
  - left. destruct Hrel as [-> _]. by exists s2.
  - right. by eexists.
Qed.
End eventually.

Lemma next_eventually_ends_witness :
  ∃ toks s1,
    yields (S := Ref.t) "a $b $c(" (newScanner "a $b $c(") (Some <$> toks) s1 ∧
    length toks ≤ length ("a $b $c(" : jsstring) - index (newScanner (S := Ref.t) "a $b $c(") ∧
    ((∃ s2, next "a $b $c(" s1 = Return (None, s2)) ∨
     (∃ e, next "a $b $c(" s1 = Throw e)).
Proof. apply (next_eventually_ends (S := Ref.t)). exists []. constructor. Defined.
