(* ===== verification/Composition.v ===== *)
(** The scanner is compositional.

    The tokens of a text made of two parts are the tokens of the first
    part followed by the tokens of the second, moved by the length of the
    first, provided the last placeholder of the first part cannot continue
    into the second: it ends before the end of the part, or with its
    parameter list, or the second part starts with a character that
    closes it.  A preprocessor may therefore scan a style sheet rule by
    rule.  The theorem is proved on the grammar, where a derivation for
    the first part is extended by a derivation for the second, and holds
    of [scanAll] on every cursor that satisfies the laws. *)

From Stdlib Require Import Ascii String.
From stdpp Require Import list strings.
From S2P Require Import Prelude Regex Cursor TokenScanner Simulation Grammar Refinement.

#[local] Open Scope js_scope.

(** ** Tokens of a part of a text *)

(** The token [tk] of a text, as a token of a text that has [n] more
    characters before it. *)
Definition shift (n : nat) (tk : Token) : Token :=
  {| start := n + start tk; end_ := n + end_ tk; raw := raw tk;
     path := path tk; args := args tk |}.

(** The last of the tokens [tks] of a text of length [n] is closed: it
    ends before the end of the text, or with its parameter list. *)
Definition closed_at (n : nat) (tks : list Token) : Prop :=
  ∀ tk, last tks = Some tk → end_ tk < n ∨ last (raw tk) = Some ")"%char.

#[export] Instance closed_at_dec n tks : Decision (closed_at n tks).
Proof.
  unfold closed_at. destruct (last tks) as [tk|].
  - destruct (decide (end_ tk < n ∨ last (raw tk) = Some ")"%char)) as [Hd|Hd];
      [left; by intros ? [= <-]|right; intros Hall; by apply Hd, Hall].
  - left. by intros.
Defined.

Section shift.
Implicit Types (l w name gap : jsstring) (tk : Token) (tks : list Token).

Lemma shift_token_of n off v : shift n (token_of off v) = token_of (n + off) v.
Proof.
  destruct v as [[[name args] w] l]. unfold shift, token_of. simpl.
  f_equal; lia.
Qed.

Lemma outcome_map_shift n tk (o : outcome error (list Token)) :
  outcome_map (fmap (shift n)) (outcome_map (cons tk) o) =
  outcome_map (cons (shift n tk)) (outcome_map (fmap (shift n)) o).
Proof. by destruct o. Qed.

(** The tokens of a text that stands [n] characters further. *)
Lemma scan_at_shift n off l o :
  scan_at off l o → scan_at (n + off) l (outcome_map (fmap (shift n)) o).
Proof.
  induction 1 as [off l Hl|off gap l e Hgap Htok
    |off gap l name args w l' o Hgap Htok _ IH].
  - by apply scan_done.
  - by apply scan_throw.
  - rewrite outcome_map_shift, shift_token_of, (assoc_L Nat.add).
    apply scan_token; [done..|]. by rewrite !(assoc_L Nat.add) in IH.
Qed.

Lemma closed_at_cons n tk tks : closed_at n (tk :: tks) → closed_at n tks.
Proof. intros Hcl tk' Hlast. apply Hcl. by destruct tks. Qed.
End shift.

(** ** Derivations of a text made of two parts *)

Section append.
Implicit Types (l w name gap : jsstring) (tk : Token) (tks : list Token).

(** Text without a marker before a text adds nothing. *)
Lemma scan_at_gap off gap l o :
  "$"%char ∉ gap → scan_at (off + length gap) l o → scan_at off (gap ++ l) o.
Proof.
  intros Hgap. inversion 1 as [off' l0 Hl|off' gap0 l0 e Hgap0 Htok
    |off' gap0 l0 name args w l' o' Hgap0 Htok Hscan]; subst.
  - apply scan_done. rewrite elem_of_app. naive_solver.
  - rewrite (assoc_L (++)). apply scan_throw; [|done].
    rewrite elem_of_app. naive_solver.
  - rewrite (assoc_L (++)), <-(assoc_L Nat.add), <-length_app.
    apply scan_token; [rewrite elem_of_app; naive_solver|done|].
    by rewrite length_app, (assoc_L Nat.add).
Qed.

Lemma scan_at_nil off tks : scan_at off [] (Return tks) → tks = [].
Proof.
  inversion 1 as [| |off' gap l name args w l' o]; [done|].
  by destruct gap.
Qed.

Lemma outcome_map_app_nil (o : outcome error (list Token)) :
  outcome_map (app []) o = o.
Proof. by destruct o. Qed.

Lemma outcome_map_app_tokens tk tks (o : outcome error (list Token)) :
  outcome_map (app (tk :: tks)) o = outcome_map (cons tk) (outcome_map (app tks) o).
Proof. by destruct o. Qed.

Lemma length_marked off gap w l :
  off + length (gap ++ "$" ++ w ++ l) = off + length gap + 1 + length w + length l.
Proof. rewrite !length_app. simpl. lia. Qed.

(** A placeholder that reaches the end of a text whose last token is
    closed ends with its parameter list. *)
Lemma closed_at_last off gap name args w l' :
  closed_at (off + length gap + 1 + length w + 0)
    [token_of (off + length gap) (name, args, w, l')] →
  last w = Some ")"%char.
Proof.
  intros Hcl. destruct (Hcl _ eq_refl) as [Hlt|Hlast]; simpl in *; [lia|].
  by destruct w.
Qed.

(** A derivation for a text whose last placeholder is closed, or that
    is followed by a text that closes it, is extended by a derivation
    for the text that follows. *)
Lemma scan_at_app off l1 tks1 l2 o :
  scan_at off l1 (Return tks1) →
  closed_at (off + length l1) tks1 ∨ closes l2 →
  scan_at (off + length l1) l2 o →
  scan_at off (l1 ++ l2) (outcome_map (app tks1) o).
Proof.
  intros H1. scan_at_ind H1.
  { intros off l Hl Hcl H2. rewrite outcome_map_app_nil. by apply scan_at_gap. }
  intros off gap name args w l' tks Hgap Htok H1 IH Hcl H2.
  rewrite length_marked in Hcl, H2. rewrite outcome_map_app_tokens.
  replace ((gap ++ "$" ++ w ++ l') ++ l2) with (gap ++ "$" ++ w ++ l' ++ l2)
    by solve_app.
  apply (scan_token off gap (w ++ l' ++ l2) name args w (l' ++ l2)); [done| |].
  - apply (token_at_app _ _ _ _ _ _ Htok). intros ->.
    apply scan_at_nil in H1 as ->. destruct Hcl as [Hcl|Hcl]; [left|by right].
    by apply (closed_at_last off gap name args w []).
  - apply IH; [|done].
    destruct Hcl as [Hcl|Hcl]; [left|by right]. by apply closed_at_cons in Hcl.
Qed.
End append.

(** ** The scanner on a text made of two parts *)

Section scanAll_append.
Context {S : Type} `{CursorLaws S}.
(** C13: [scanAll] is compositional.  Where [scanAll] returns tokens for
    [l1] and the last of them ends before the end of [l1] or with its
    parameter list, or [l2] starts with a character that closes a
    placeholder, [scanAll] of [l1] followed by [l2] throws what [scanAll]
    of [l2] throws, and otherwise returns the tokens of [l1] followed by
    the tokens of [l2] moved by the length of [l1]. *)
Theorem scanAll_app (l1 l2 : jsstring) tks1 :
  scanAll (S := S) l1 = Return tks1 →
  closed_at (length l1) tks1 ∨ closes l2 →
  scanAll (S := S) (l1 ++ l2) =
  outcome_map (λ tks2, tks1 ++ (shift (length l1) <$> tks2)) (scanAll (S := S) l2).
Proof.
  intros H1%scanAll_scan_at Hcl. apply scanAll_scan_at.
  assert (scan_at 0 l2 (scanAll (S := S) l2)) as H2 by by apply scanAll_scan_at.
  apply (scan_at_shift (length l1)) in H2. rewrite Nat.add_0_r in H2.
  pose proof (scan_at_app 0 l1 tks1 l2 _ H1 Hcl H2) as H12.
  by destruct (scanAll l2).
Qed.
End scanAll_append.

Lemma scanAll_app_witness :
  scanAll (S := Ref.t) ("a { color: $red" ++ "; margin: $gap(2) }") =
  outcome_map
    (λ tks2, [mkToken 11 15 "$red" ["red"] []] ++ (shift 15 <$> tks2))
    (scanAll (S := Ref.t) "; margin: $gap(2) }").
Proof.
  apply (scanAll_app (S := Ref.t) "a { color: $red" "; margin: $gap(2) }");
    [reflexivity|right; by apply (bool_decide_unpack _)].
Defined.

(** The condition cannot be dropped: a name goes on into the text that
    follows. *)
Example scanAll_app_continues :
  scanAll (S := Ref.t) "$re" = Return [mkToken 0 3 "$re" ["re"] []] ∧
  scanAll (S := Ref.t) "d" = Return [] ∧
  scanAll (S := Ref.t) ("$re" ++ "d") = Return [mkToken 0 4 "$red" ["red"] []].
Proof. done. Qed.
