(* ===== verification/Substitution.v ===== *)
(** What a preprocessor does with the tokens.

    The caller of [scanAll] writes the text again with a value in the
    place of each placeholder.  [substitute] is that text: the parts of
    the text between the tokens, found by their offsets, with [f tk]
    where the token [tk] stood.  With the tokens that [scanAll] returns,
    putting each token's [raw] back gives the text, so the offsets cut
    the text exactly; and putting texts without a marker leaves a text
    without any placeholder, so one pass is enough.  The tokens are also
    at most as many as the markers of the text. *)

From Stdlib Require Import Ascii String.
From stdpp Require Import list strings.
From S2P Require Import Prelude Regex Cursor TokenScanner Simulation Grammar Refinement.

#[local] Open Scope js_scope.

(** The text [css] from offset [off] on, with [f tk] in the place of
    each token [tk] of [tks], which are in the order of the text. *)
Fixpoint substitute (f : Token → jsstring) (off : nat) (css : jsstring)
    (tks : list Token) : jsstring :=
  match tks with
  | [] => drop off css
  | tk :: tks =>
      take (start tk - off) (drop off css) ++ f tk ++ substitute f (end_ tk) css tks
  end.

(** The number of markers of a text. *)
Definition markers (l : jsstring) : nat := length (filter (λ c, c = "$"%char) l).

Section substitute.
Implicit Types (l w gap pre : jsstring) (tk : Token) (tks : list Token).
Variable f : Token → jsstring.

(** Substitution at a placeholder: the text before the marker, the value
    of the token, and the substitution in the text after the
    placeholder. *)
Lemma substitute_token pre gap w l' tk tks :
  start tk = length pre + length gap →
  end_ tk = length pre + length gap + 1 + length w →
  substitute f (length pre) (pre ++ gap ++ "$" ++ w ++ l') (tk :: tks) =
  gap ++ f tk ++
    substitute f (length pre + length gap + 1 + length w)
      ((pre ++ gap ++ "$" ++ w) ++ l') tks.
Proof.
  intros Hs He. simpl. rewrite drop_app_length, Hs, He.
  replace (length pre + length gap - length pre) with (length gap) by lia.
  rewrite take_app_length. do 3 f_equal. solve_app.
Qed.

Lemma length_placeholder pre gap w :
  length pre + length gap + 1 + length w = length (pre ++ gap ++ "$" ++ w).
Proof. rewrite !length_app. simpl. lia. Qed.

(** The substitution in a text that the grammar gives tokens for, from
    the derivation: the values of the tokens between the texts without a
    marker. *)
Lemma scan_at_substitute off l tks :
  scan_at off l (Return tks) → ∀ pre, off = length pre →
  (∀ tk, tk ∈ tks → "$"%char ∉ f tk) →
  "$"%char ∉ substitute f off (pre ++ l) tks.
Proof.
  intros H. scan_at_ind H.
  { intros off l Hl pre -> Hf. simpl. by rewrite drop_app_length. }
  intros off gap name args w l' tks Hgap Htok _ IH pre -> Hf.
  rewrite substitute_token by (simpl; lia). rewrite !elem_of_app.
  intros [?|[Hin|Hin]]; [done|by eapply Hf; [apply list_elem_of_here|]|].
  eapply IH; [apply length_placeholder| |done].
  intros. by apply Hf, list_elem_of_further.
Qed.
End substitute.

Section markers.
Implicit Types (l w gap pre : jsstring) (tk : Token) (tks : list Token).

(** Putting back the text of each token gives the text. *)
Lemma scan_at_substitute_raw off l tks :
  scan_at off l (Return tks) → ∀ pre, off = length pre →
  substitute raw off (pre ++ l) tks = l.
Proof.
  intros H. scan_at_ind H.
  { intros off l Hl pre ->. simpl. by rewrite drop_app_length. }
  intros off gap name args w l' tks Hgap Htok _ IH pre ->.
  rewrite substitute_token by (simpl; lia).
  by rewrite IH by apply length_placeholder.
Qed.

Lemma markers_app l1 l2 : markers (l1 ++ l2) = markers l1 + markers l2.
Proof. unfold markers. by rewrite filter_app, length_app. Qed.

(** Each token has a marker of its own. *)
Lemma scan_at_markers off l tks :
  scan_at off l (Return tks) → length tks ≤ markers l.
Proof.
  intros H. scan_at_ind H; [simpl; lia|].
  intros off gap name args w l' tks Hgap Htok _ IH. rewrite !markers_app. simpl. change (markers "$") with 1. lia.
Qed.
End markers.

(** ** The substitution in the tokens of [scanAll] *)

Section scanAll_substitute.
Context {S : Type} `{CursorLaws S}.
Implicit Types (css : jsstring) (tk : Token) (tks : list Token).

(** C15: the offsets of the tokens cut the text exactly: the text with
    the [raw] of each token that [scanAll] returned in the place of the
    token is the text. *)
Theorem substitute_raw css tks :
  scanAll (S := S) css = Return tks → substitute raw 0 css tks = css.
Proof.
  intros Hscan%scanAll_scan_at. by apply (scan_at_substitute_raw 0 css tks Hscan []).
Qed.

(** C9: one pass is enough.  The text with a text without a marker in
    the place of each token that [scanAll] returned holds no marker, so
    [scanAll] finds no placeholder in it. *)
Theorem substitute_complete (f : Token → jsstring) css tks :
  scanAll (S := S) css = Return tks →
  (∀ tk, tk ∈ tks → "$"%char ∉ f tk) →
  scanAll (S := S) (substitute f 0 css tks) = Return [].
Proof.
  intros Hscan%scanAll_scan_at Hf. apply scanAll_scan_at, scan_done.
  by apply (scan_at_substitute f 0 css tks Hscan []).
Qed.

(** C28: [scanAll] returns at most as many tokens as the text has
    markers. *)
Theorem scanAll_markers css tks :
  scanAll (S := S) css = Return tks → length tks ≤ markers css.
Proof. intros Hscan%scanAll_scan_at. by eapply scan_at_markers. Qed.
End scanAll_substitute.

Lemma substitute_raw_witness :
  substitute raw 0 "x $a(1) y $b(2) z"
    [mkToken 2 7 "$a(1)" ["a"] ["1"]; mkToken 10 15 "$b(2)" ["b"] ["2"]] =
  "x $a(1) y $b(2) z".
Proof. by apply (substitute_raw (S := Ref.t)). Defined.

Lemma substitute_complete_witness :
  scanAll (S := Ref.t)
    (substitute (λ tk, mjoin (path tk)) 0 "a { color: $red; margin: $gap(2) }"
       [mkToken 11 15 "$red" ["red"] []; mkToken 25 32 "$gap(2)" ["gap"] ["2"]]) =
  Return [].
Proof.
  apply (substitute_complete (S := Ref.t)); [reflexivity|].
  apply Forall_forall. by apply (bool_decide_unpack _).
Defined.

Lemma scanAll_markers_witness :
  length [mkToken 0 8 "$f($a,b)" ["f"] ["$a"; "b"]] ≤ markers "$f($a,b)".
Proof. by apply (scanAll_markers (S := Ref.t)). Defined.

(** A marker inside a parameter list is part of an argument: the text
    has more markers than tokens. *)
Example markers_in_arguments :
  scanAll (S := Ref.t) "$f($a,b)" = Return [mkToken 0 8 "$f($a,b)" ["f"] ["$a"; "b"]] ∧
  markers "$f($a,b)" = 2.
Proof. done. Qed.
