(* ===== verification/Sessions.v ===== *)
(** Producers side by side.

    A program may call [scanFunc] several times and call the closures
    it got in any order.  This file gives such programs a semantics and
    shows that, whatever the order, each closure behaves as [scanAll]
    says.

    The semantics is the model's, not code of the repository.  The
    closures are kept in a store, by address; each has an environment
    with the parameter [css] and the cursor [sr] of its call of
    [scanFunc] ([sr] is a [const] of that call, line 19, which nothing
    but the closure and the inner functions can name).  A call of a
    closure runs [next] on the cursor of its environment and puts the
    cursor back there.  That a call changes no other cursor is thus how
    [call] is defined, following the scoping rules of JavaScript; it is
    an assumption of this file, not one of its theorems.  What the
    theorems add is that, under this semantics, the values a closure
    returns in a program that interleaves it with others are those of
    the loop of [scanAll] on the same text.

    A run has no event after an exception of a closure: an exception
    carries no state in the model, so the state it leaves the cursor in
    is not known, and the theorems speak of the call that throws, not
    of calls after it. *)

From Stdlib Require Import Ascii String.
From stdpp Require Import list strings gmap.
From S2P Require Import Prelude Regex Cursor TokenScanner Simulation Grammar Parser Refinement Producer.

#[local] Open Scope js_scope.

(** The environment of a closure returned by [scanFunc]: the parameter
    [css] and the cursor [sr]. *)
Record env (S : Type) : Type := mkEnv { env_css : jsstring; env_sr : S }.

#[global] Arguments mkEnv {_} _ _.
#[global] Arguments env_css {_} _.
#[global] Arguments env_sr {_} _.

(** The closures of a program, by address. *)
Notation store S := (gmap nat (env S)).

Section sessions.
Context {S : Type} `{Cursor S}.

(** [scanFunc css] in a program whose closures are [h]: the address of
    the closure returned, and the store with its environment. *)
Definition scanFunc_new (css : jsstring) (h : store S) : nat * store S :=
  let f := fresh (dom h) in (f, <[f := mkEnv css (scanFunc css).1]> h).

(** A call of the closure at the address [f]: what the closure returns
    or throws, and the store with the cursor of the closure where the
    call left it.  [None] where [f] is not the address of a closure. *)
Definition call (f : nat) (h : store S)
    : option (outcome error (option Token * store S)) :=
  e ← h !! f;
  Some (outcome_map (λ '(tk, s), (tk, <[f := mkEnv (env_css e) s]> h))
          (next (env_css e) (env_sr e))).

(** What a program does with producers: it creates one, or calls one,
    which returns a value. *)
Inductive event : Type :=
| Created (css : jsstring) (f : nat)
| Returned (f : nat) (tk : option Token).

(** The closure that an event is about. *)
Definition addr (ev : event) : nat :=
  match ev with Created _ f | Returned f _ => f end.

(** [step h ev h']: the event [ev] leads from the store [h] to the
    store [h'].  A closure is created at an address that is not in
    use. *)
Inductive step : store S → event → store S → Prop :=
| step_created h css f :
    h !! f = None →
    step h (Created css f) (<[f := mkEnv css (scanFunc css).1]> h)
| step_returned h f tk h' :
    call f h = Some (Return (tk, h')) → step h (Returned f tk) h'.

(** [runs h trace h']: the events of [trace], in this order, lead from
    the store [h] to the store [h']. *)
Inductive runs : store S → list event → store S → Prop :=
| runs_nil h : runs h [] h
| runs_step h ev h1 trace h' :
    step h ev h1 → runs h1 trace h' → runs h (ev :: trace) h'.

(** The values that the closure at [f] returned in [trace]. *)
Definition returned (f : nat) (trace : list event) : list (option Token) :=
  omap (λ ev, match ev with
              | Returned g tk => if decide (g = f) then Some tk else None
              | Created _ _ => None
              end) trace.

Implicit Types (f g : nat) (h : store S) (css : jsstring) (s : S).
Implicit Types (tk : option Token) (ev : event) (trace : list event).

(** ** One call *)

Lemma call_Return f h tk h' :
  call f h = Some (Return (tk, h')) ↔
  ∃ css s s', h !! f = Some (mkEnv css s) ∧ next css s = Return (tk, s') ∧
    h' = <[f := mkEnv css s']> h.
Proof.
  unfold call. split.
  - destruct (h !! f) as [[css s]|]; [|done]. simpl.
    destruct (next css s) as [[tk' s']| |] eqn:Hnext; [|done..].
    intros [= <- <-]. by exists css, s, s'.
  - intros (css & s & s' & -> & Hnext & ->). simpl. by rewrite Hnext.
Qed.

Lemma call_Throw f h e :
  call f h = Some (Throw e) ↔
  ∃ css s, h !! f = Some (mkEnv css s) ∧ next css s = Throw e.
Proof.
  unfold call. split.
  - destruct (h !! f) as [[css s]|]; [|done]. simpl.
    destruct (next css s) as [[tk' s']| |] eqn:Hnext; [done| |done].
    intros [= <-]. by exists css, s.
  - intros (css & s & -> & Hnext). simpl. by rewrite Hnext.
Qed.

(** The closure that [scanFunc] returns is at a fresh address, and a
    program can create it. *)
Lemma scanFunc_new_fresh css h : h !! (scanFunc_new css h).1 = None.
Proof. apply not_elem_of_dom, is_fresh. Qed.

Lemma step_scanFunc_new css h :
  step h (Created css (scanFunc_new css h).1) (scanFunc_new css h).2.
Proof. apply step_created, scanFunc_new_fresh. Qed.

(** An event changes the closure it is about and no other. *)
Lemma step_frame h ev h' f : step h ev h' → addr ev ≠ f → h' !! f = h !! f.
Proof.
  destruct 1 as [h css g Hg|h g tk h' Hcall]; simpl; intros Hne.
  - by rewrite lookup_insert_ne.
  - apply call_Return in Hcall as (css & s & s' & _ & _ & ->).
    by rewrite lookup_insert_ne.
Qed.

(** ** Runs *)

Lemma returned_cons_eq f tk trace :
  returned f (Returned f tk :: trace) = tk :: returned f trace.
Proof. unfold returned. simpl. by rewrite decide_True. Qed.

Lemma returned_cons_ne f ev trace :
  addr ev ≠ f → returned f (ev :: trace) = returned f trace.
Proof.
  intros Hne. unfold returned. destruct ev; simpl in *; [done|].
  by rewrite decide_False.
Qed.

(** In a run, the values that a closure returns are those of a run of
    that closure alone, from the state its cursor had to the state the
    run leaves it in. *)
Lemma runs_yields f h trace h' :
  runs h trace h' → ∀ css s, h !! f = Some (mkEnv css s) →
  ∃ s', h' !! f = Some (mkEnv css s') ∧ yields css s (returned f trace) s'.
Proof.
  induction 1 as [h|h ev h1 trace h' Hstep _ IH]; intros css s Hf.
  { exists s. split; [done|constructor]. }
  destruct (decide (addr ev = f)) as [<-|Hne].
  - destruct Hstep as [h css0 g Hg|h g tk h1 Hcall]; cbn [addr] in *;
      [congruence|].
    apply call_Return in Hcall as (css1 & s1 & s1' & Hf1 & Hnext & ->).
    destruct (IH css1 s1') as (s' & ? & ?); [by rewrite lookup_insert_eq|].
    simplify_eq. exists s'. rewrite returned_cons_eq. eauto using yields.
  - rewrite returned_cons_ne by done. apply IH.
    by rewrite (step_frame _ _ _ _ Hstep).
Qed.
End sessions.

(** ** Producers in a program *)

Section interleaved.
Context {S : Type} `{CursorLaws S}.
Implicit Types (f g : nat) (h : store S) (css : jsstring).
Implicit Types (tk : option Token) (trace : list event).

(** C14: however the calls of the closures of a program are interleaved,
    a closure of [scanFunc css] that has returned the tokens [tks] and
    then [null] has returned the tokens of [scanAll css]. *)
Theorem interleaved_drains css h trace h' tks :
  runs (scanFunc_new css h).2 trace h' →
  returned (scanFunc_new css h).1 trace = (Some <$> tks) ++ [None] →
  scanAll (S := S) css = Return tks.
Proof.
  intros Hruns Hret.
  destruct (runs_yields (scanFunc_new css h).1 _ _ _ Hruns css (newScanner css))
    as (s' & _ & Hy); [apply lookup_insert_eq|].
  rewrite Hret in Hy. by eapply yields_scanAll_Return.
Qed.

(** C26: however the calls are interleaved, a closure of [scanFunc css]
    that throws after it has returned tokens throws the exception of
    [scanAll css]. *)
Theorem interleaved_throws css h trace h' toks e :
  runs (scanFunc_new css h).2 trace h' →
  returned (scanFunc_new css h).1 trace = Some <$> toks →
  call (scanFunc_new css h).1 h' = Some (Throw e) →
  scanAll (S := S) css = Throw e.
Proof.
  intros Hruns Hret (css' & s & Hf & He)%call_Throw.
  destruct (runs_yields (scanFunc_new css h).1 _ _ _ Hruns css (newScanner css))
    as (s' & Hf' & Hy); [apply lookup_insert_eq|].
  rewrite Hret in Hy. simplify_eq. by eapply yields_scanAll_Throw.
Qed.
End interleaved.

Lemma interleaved_drains_witness :
  scanAll (S := Ref.t) "$a" = Return [mkToken 0 2 "$a" ["a"] []].
Proof.
  eapply (interleaved_drains "$a" ∅
    [Created "$b" 1; Returned 0 (Some (mkToken 0 2 "$a" ["a"] []));
     Returned 1 (Some (mkToken 0 2 "$b" ["b"] [])); Returned 0 None]);
    [eapply runs_step; [by apply step_created|];
     do 3 (eapply runs_step; [apply step_returned; vm_compute; reflexivity|]);
     apply runs_nil
    |reflexivity].
Defined.

Lemma interleaved_throws_witness :
  scanAll (S := Ref.t) "$a $f(" = Throw (MissingArgument "f").
Proof.
  eapply (interleaved_throws "$a $f(" ∅
    [Created "$b" 1; Returned 0 (Some (mkToken 0 3 "$a " ["a"] []));
     Returned 1 (Some (mkToken 0 2 "$b" ["b"] []))]
    _ [mkToken 0 3 "$a " ["a"] []]);
    [eapply runs_step; [by apply step_created|];
     do 2 (eapply runs_step; [apply step_returned; vm_compute; reflexivity|]);
     apply runs_nil
    |reflexivity|vm_compute; reflexivity].
Defined.
