(* ===== verification/Examples.v ===== *)
(** The scanner run on the inputs of the specification.

    [scanAll] on the reference cursor computes.  The first group of
    examples are the inputs that section 8 of the specification lists,
    with the outcomes it states; the second group are inputs on which
    the code and the specification part, each recorded as a finding. *)

From Stdlib Require Import Ascii String.
From stdpp Require Import list strings.
From S2P Require Import Prelude Regex Cursor TokenScanner.

#[local] Open Scope js_scope.

(** ** The inputs of the specification *)

Abbreviation scan := (scanAll (S := Ref.t)).

Example scan_no_marker : scan "a { color: red; }" = Return [].
Proof. reflexivity. Qed.

Example scan_args :
  scan "$f(a, b,c)" = Return [mkToken 0 10 "$f(a, b,c)" ["f"] ["a"; "b"; "c"]].
Proof. reflexivity. Qed.

Example scan_empty_params : scan "$f()" = Return [mkToken 0 4 "$f()" ["f"] []].
Proof. reflexivity. Qed.

Example scan_dotted :
  scan "$a.b.c(1)" = Return [mkToken 0 9 "$a.b.c(1)" ["a"; "b"; "c"] ["1"]].
Proof. reflexivity. Qed.

Example scan_missing_argument : scan "$f(a,)" = Throw (MissingArgument "f").
Proof. reflexivity. Qed.

Example scan_unclosed : scan "$f(a" = Throw (Expected rparen_re).
Proof. reflexivity. Qed.

Example scan_two_tokens :
  scan "x $a(1) y $b(2) z" =
  Return [mkToken 2 7 "$a(1)" ["a"] ["1"]; mkToken 10 15 "$b(2)" ["b"] ["2"]].
Proof. reflexivity. Qed.

Example scan_trailing_space :
  scan "$a  ;" = Return [mkToken 0 4 "$a  " ["a"] []].
Proof. reflexivity. Qed.

Example scan_empty_name : scan "$(x)" = Return [mkToken 0 4 "$(x)" [""] ["x"]].
Proof. reflexivity. Qed.

(** ** Inputs on which the code and its description part *)

(** An argument keeps the white space that follows it. *)
Example scan_arg_trailing_space :
  scan "$f(a , b)" = Return [mkToken 0 9 "$f(a , b)" ["f"] ["a "; "b"]].
Proof. reflexivity. Qed.

(** A parameter list that the text ends in, before any argument or
    after a comma, is a missing argument. *)
Example scan_dangling_paren : scan "$f(" = Throw (MissingArgument "f").
Proof. reflexivity. Qed.

Example scan_dangling_comma : scan "$f(a," = Throw (MissingArgument "f").
Proof. reflexivity. Qed.

(** [raw] starts with the marker: with one more marker before it, it
    scans as two tokens. *)
Example scan_double_marker :
  scan "$$f(a)" =
  Return [mkToken 0 1 "$" [""] []; mkToken 1 6 "$f(a)" ["f"] ["a"]].
Proof. reflexivity. Qed.

(** A name with two dots in a row has an empty segment. *)
Example scan_empty_segment :
  scan "$a..b" = Return [mkToken 0 5 "$a..b" ["a"; ""; "b"] []].
Proof. reflexivity. Qed.
