(* ===== verification/ZipCursor.v ===== *)
(** A second cursor: a zipper.

    The reference cursor keeps the whole text and an offset.  The cursor
    of this file keeps the text already read, last character first, and
    the text that remains, so that moving forward never counts from the
    start of the text.  It satisfies the laws of the interface: its
    states are related to the reference states with the same text read
    and the same text left.  Every theorem stated for a cursor that
    satisfies the laws therefore holds of the scanner run on it. *)

From Stdlib Require Import Ascii String.
From stdpp Require Import list strings.
From S2P Require Import Prelude Regex Cursor TokenScanner.

#[local] Open Scope js_scope.

Module Zip.
Record t : Type := mk { before : jsstring; after : jsstring }.

(** Moves the characters [w], which start [after], to [before]. *)
Definition shift (w l : jsstring) (z : t) : t := mk (reverse w ++ before z) l.

Definition newScanner (css : jsstring) : t := mk [] css.

Definition readWhile (re : regex) (z : t) : jsstring * t :=
  let w := take_while (re_match re) (after z) in
  (w, shift w (drop_while (re_match re) (after z)) z).

Definition skipSpace (z : t) : t :=
  shift (take_while is_space (after z)) (drop_while is_space (after z)) z.

Definition accept (re : regex) (z : t) : bool * t :=
  match after z with
  | c :: l => if re_match re c then (true, shift [c] l z) else (false, z)
  | [] => (false, z)
  end.

Definition expect (re : regex) (z : t) : outcome error (unit * t) :=
  let '(ok, z') := accept re z in
  if ok then Return (tt, z') else Throw (Expected re).

Definition seek (re : regex) (z : t) : bool * t :=
  let skip c := negb (re_match re c) in
  match drop_while skip (after z) with
  | (_ :: _) as l => (true, shift (take_while skip (after z)) l z)
  | [] => (false, z)
  end.

Definition read (z : t) : option ascii * t :=
  match after z with
  | c :: l => (Some c, shift [c] l z)
  | [] => (None, z)
  end.

Definition index (z : t) : nat := length (before z).

Definition slice (a b : nat) (z : t) : jsstring :=
  take (b - a) (drop a (reverse (before z) ++ after z)).

(** The state of the reference cursor with the same text read and the
    same text left. *)
Definition to_ref (z : t) : Ref.t := Ref.zip (reverse (before z)) (after z).
End Zip.

#[export] Instance zip_cursor : Cursor Zip.t := {
  newScanner := Zip.newScanner;
  readWhile := Zip.readWhile;
  skipSpace := Zip.skipSpace;
  accept := Zip.accept;
  expect := Zip.expect;
  seek := Zip.seek;
  read := Zip.read;
  index := Zip.index;
  slice := Zip.slice;
}.

(** ** The zipper simulates the reference cursor *)

Section zip_laws.
Implicit Types (z : Zip.t) (r : Ref.t) (re : regex) (w l : jsstring).

Lemma zip_to_ref z :
  Zip.to_ref z = Ref.zip (reverse (Zip.before z)) (Zip.after z).
Proof. done. Qed.

Lemma zip_to_ref_shift w l z :
  Zip.to_ref (Zip.shift w l z) = Ref.zip (reverse (Zip.before z) ++ w) l.
Proof.
  unfold Zip.to_ref, Zip.shift. simpl. by rewrite reverse_app, reverse_involutive.
Qed.

Lemma zip_readWhile re z :
  result_rel (λ z r, r = Zip.to_ref z) (Zip.readWhile re z)
    (Ref.readWhile re (Zip.to_ref z)).
Proof.
  pose proof (ref_readWhile_zip re (reverse (Zip.before z)) (Zip.after z)) as Hr.
  unfold readWhile in Hr. simpl in Hr. rewrite (zip_to_ref z), Hr.
  split; [done|]. simpl. by rewrite zip_to_ref_shift.
Qed.

Lemma zip_skipSpace z :
  Ref.skipSpace (Zip.to_ref z) = Zip.to_ref (Zip.skipSpace z).
Proof.
  pose proof (ref_skipSpace_zip (reverse (Zip.before z)) (Zip.after z)) as Hr.
  unfold skipSpace in Hr. simpl in Hr. rewrite (zip_to_ref z), Hr.
  unfold Zip.skipSpace. by rewrite zip_to_ref_shift.
Qed.

Lemma zip_accept re z :
  result_rel (λ z r, r = Zip.to_ref z) (Zip.accept re z)
    (Ref.accept re (Zip.to_ref z)).
Proof.
  pose proof (ref_accept_zip re (reverse (Zip.before z)) (Zip.after z)) as Hr.
  unfold accept in Hr. simpl in Hr. rewrite (zip_to_ref z), Hr.
  unfold Zip.accept. destruct (Zip.after z) as [|c l] eqn:Hz; [by rewrite <-Hz|].
  destruct (re_match re c); [|by rewrite <-Hz].
  split; [done|]. simpl. by rewrite zip_to_ref_shift.
Qed.

Lemma zip_expect re z :
  outcome_rel (λ z r, r = Zip.to_ref z) (Zip.expect re z)
    (Ref.expect re (Zip.to_ref z)).
Proof.
  pose proof (zip_accept re z) as Ha. unfold Zip.expect, Ref.expect.
  destruct (Zip.accept re z) as [ok z'], (Ref.accept re _) as [ok' r'].
  destruct Ha as [Hok Hr]. simpl in *. subst ok'. by destruct ok.
Qed.

Lemma zip_seek re z :
  result_rel (λ z r, r = Zip.to_ref z) (Zip.seek re z)
    (Ref.seek re (Zip.to_ref z)).
Proof.
  pose proof (ref_seek_zip re (reverse (Zip.before z)) (Zip.after z)) as Hr.
  unfold seek in Hr. simpl in Hr. rewrite (zip_to_ref z), Hr.
  unfold Zip.seek. destruct (drop_while _ (Zip.after z)) as [|c l]; [done|].
  split; [done|]. simpl. by rewrite zip_to_ref_shift.
Qed.

Lemma zip_read z :
  Ref.rest (Zip.to_ref z) ≠ [] →
  result_rel (λ z r, r = Zip.to_ref z) (Zip.read z) (Ref.read (Zip.to_ref z)).
Proof.
  rewrite (zip_to_ref z), ref_rest_zip. intros Hz.
  destruct (Zip.after z) as [|c l] eqn:Hafter; [done|].
  pose proof (ref_read_zip (reverse (Zip.before z)) c l) as Hr.
  unfold read in Hr. simpl in Hr. unfold Zip.read.
  rewrite Hafter, Hr. split; [done|]. simpl. by rewrite zip_to_ref_shift.
Qed.

Lemma zip_index z : Zip.index z = Ref.index (Zip.to_ref z).
Proof. unfold Zip.index, Ref.index. simpl. by rewrite length_reverse. Qed.

Lemma zip_slice a b z : Zip.slice a b z = Ref.slice a b (Zip.to_ref z).
Proof. done. Qed.
End zip_laws.

#[export] Instance zip_laws : CursorLaws Zip.t := {|
  sim z r := r = Zip.to_ref z;
  sim_newScanner _ := eq_refl;
  sim_readWhile re z _ Hs := eq_ind_r (λ r, result_rel _ _ (Ref.readWhile re r))
    (zip_readWhile re z) Hs;
  sim_skipSpace z _ Hs := eq_ind_r (λ r, Ref.skipSpace r = _) (zip_skipSpace z) Hs;
  sim_accept re z _ Hs := eq_ind_r (λ r, result_rel _ _ (Ref.accept re r))
    (zip_accept re z) Hs;
  sim_expect re z _ Hs := eq_ind_r (λ r, outcome_rel _ _ (Ref.expect re r))
    (zip_expect re z) Hs;
  sim_seek re z _ Hs := eq_ind_r (λ r, result_rel _ _ (Ref.seek re r))
    (zip_seek re z) Hs;
  sim_read z _ Hs := eq_ind_r
    (λ r, Ref.rest r ≠ [] → result_rel _ _ (Ref.read r)) (zip_read z) Hs;
  sim_index z _ Hs := eq_ind_r (λ r, _ = Ref.index r) (zip_index z) Hs;
  sim_slice a b z _ Hs := eq_ind_r (λ r, _ = Ref.slice a b r) (zip_slice a b z) Hs;
|}.

(** ** The scanner on the zipper *)

Example zip_scan_two_tokens :
  scanAll (S := Zip.t) "x $a(1) y $b(2) z" =
  Return [mkToken 2 7 "$a(1)" ["a"] ["1"]; mkToken 10 15 "$b(2)" ["b"] ["2"]].
Proof. reflexivity. Qed.

Example zip_scan_missing_argument :
  scanAll (S := Zip.t) "$f(a,)" = Throw (MissingArgument "f").
Proof. reflexivity. Qed.
