(* ===== verification/Styles.v ===== *)
(** styles.js: the tables of colours, themes, fonts and sizes.

    The file is data.  Object literals are tables, lists of keys and
    values in the order of the source, and a property access [t.k] is
    [get k t], which is [None] where JavaScript gives [undefined].
    Numbers are rationals.  The functions that styles.js imports are not
    among the sources: each import is a class whose operations are the
    names imported, with types read off the way styles.js uses them
    ([rgbsToColors] is applied to [rgb] and its result is accessed by
    the keys of [rgb]; the other two names of colors.js occur only in
    code that is commented out).  The tables are built for any
    instance.  The one theorem says that every colour a theme names is a
    property of the table [color], under the assumption, stated with
    it, that [rgbsToColors] returns a colour for each key it is
    given. *)

From Stdlib Require Import QArith String.
From stdpp Require Import list strings.

#[local] Open Scope string_scope.

(** ** Object literals *)

(** An object literal: its properties in the order they are written. *)
Definition table (A : Type) : Type := list (string * A).

Definition keys {A} (t : table A) : list string := t.*1.

(** The property [k] of [t]; of two properties with one key the later
    one counts. *)
Fixpoint get {A} (k : string) (t : table A) : option A :=
  match t with
  | [] => None
  | (k', v) :: t' =>
      match get k t' with
      | Some v' => Some v'
      | None => if decide (k' = k) then Some v else None
      end
  end.

(** ** What styles.js imports *)

(** From color-scheme-renderer.js (lines 1-4): both functions are
    applied to the themes. *)
Class ColorSchemeRenderer (Color Schemes Vars : Type) : Type := {
  renderColorSchemes : table (table (option Color)) → Schemes;
  generateThemeVariables : table (table (option Color)) → Vars;
}.

(** From colors.js (line 6).  Only [rgbsToColors] is called; the other
    two are imported and named in code that is commented out. *)
Class Colors (Color : Type) : Type := {
  rgbsToColors : table (list Q) → table Color;
  rgbToColor : list Q → Color;
  rgbNoAlpha : list Q → list Q;
}.

(** Colours as their components: an instance to run the tables with. *)
Definition rgb_colors : Colors (list Q) :=
  {| rgbsToColors t := t; rgbToColor v := v; rgbNoAlpha := take 3 |}.

(** ** The tables of styles.js *)

Definition rgb : table (list Q) := [
  ("rosy_red", [255; 145; 145]);
  ("blood_red", [115; 16; 16]);
  ("burly_wood", [222; 184; 135]);
  ("burly_wood_shadow", [222; 184; 135; 0.4]);
  ("ice_cream", [250; 250; 250]);
  ("very_light_sky_blue", [231; 245; 255]);
  ("jet_blue", [30; 85; 175]);
  ("very_dark_navy", [5; 10; 35]);
  ("dark_navy_grey", [5; 10; 60])
]%Q.

Definition font_family : table (list string) := [
  ("sans_serif", ["sans-serif"; "Arial"; "Verdana"])
].

Definition font_size : table string := [
  ("md", "clamp(1.06rem, calc(0.98rem + 0.39vw), 1.38rem)");
  ("lg", "clamp(1.5rem, calc(1.41rem + 0.47vw), 1.88rem)")
].

Definition space : table string := [
  ("md", "1rem");
  ("lg", "2rem");
  ("xl", "4rem")
].

Section styles.
Context {Color Schemes Vars : Type}.
Context {colors : Colors Color} {renderer : ColorSchemeRenderer Color Schemes Vars}.

Definition color : table Color := rgbsToColors rgb.

Definition themes : table (table (option Color)) := [
  ("light", [
    ("primary", get "ice_cream" color);
    ("text", get "dark_navy_grey" color);
    ("link", get "rosy_red" color);
    ("strong", get "jet_blue" color)
  ]);
  ("dark", [
    ("primary", get "very_dark_navy" color);
    ("text", get "very_light_sky_blue" color);
    ("strong", get "burly_wood" color);
    ("link", get "blood_red" color)
  ])
].

(** The object that styles.js exports. *)
Record Styles : Type := mkStyles {
  styles_colorSchemes : Schemes;
  styles_theme : Vars;
  styles_rgb : table (list Q);
  styles_color : table Color;
  styles_font_family : table (list string);
  styles_font_size : table string;
  styles_space : table string;
}.

Definition styles : Styles := {|
  styles_colorSchemes := renderColorSchemes themes;
  styles_theme := generateThemeVariables themes;
  styles_rgb := rgb;
  styles_color := color;
  styles_font_family := font_family;
  styles_font_size := font_size;
  styles_space := space;
|}.
End styles.

(** ** Property access *)

Section get.
Context {A : Type}.
Implicit Types (t : table A) (k : string) (v : A).

Lemma get_None k t : get k t = None ↔ k ∉ keys t.
Proof.
  induction t as [|[k' v] t IH]; simpl; [by split; [intros _; apply not_elem_of_nil|]|].
  rewrite not_elem_of_cons, <-IH. destruct (get k t); [naive_solver|].
  case_decide; naive_solver.
Qed.

Lemma get_is_Some k t : is_Some (get k t) ↔ k ∈ keys t.
Proof.
  rewrite <-not_eq_None_Some, get_None. split; [|by intros ? ?].
  intros Hk. by destruct (decide (k ∈ keys t)).
Qed.
End get.

(** ** The themes name colours of the table *)

Section themes.
Context {Color : Type} {colors : Colors Color}.

(** What the themes need of [rgbsToColors]: a colour for each key of
    the table it is given. *)
Hypothesis rgbsToColors_keys : ∀ t, keys t ⊆ keys (rgbsToColors t).

(** C32: no role of a theme is undefined: every colour that a theme names
    is a colour of the table, provided [rgbsToColors] returns a colour
    for each key of [rgb]. *)
Theorem themes_defined :
  Forall (λ th, Forall (λ role, is_Some role.2) th.2) themes.
Proof.
  assert (∀ k, k ∈ keys rgb → is_Some (get k color)) as Hget.
  { intros k Hk. by apply get_is_Some, rgbsToColors_keys. }
  repeat constructor; simpl; apply Hget; by apply (bool_decide_unpack _).
Qed.
End themes.

Lemma themes_defined_witness :
  Forall (λ th, Forall (λ role : string * option (list Q), is_Some role.2) th.2)
    (themes (colors := rgb_colors)).
Proof. by apply themes_defined. Defined.
